(** * learning-threejs-slider: the transition engine of the image sliders

    A shallow embedding of the three slider components
    ([ThreeImageSlider], [ThreeImageSlider2], [ThreeImageSlider3]) and of
    their fragment shaders.

    Numbers.  A TypeScript [number] is an IEEE double and a GLSL [float]
    a 32-bit float.  Both are idealised here as exact numbers: the
    TypeScript arithmetic (aspect fitting, frame scheduling) is carried
    out in [Q], so that the definitions run, and the shader arithmetic in
    [R], because it uses [sin] and [cos].  Rounding, overflow, infinities
    and NaN are outside that model, and so is division by zero, which
    yields an infinity or NaN in the program: where a theorem divides,
    it assumes a positive divisor.  Likewise [%] is [mod] on [nat], and
    the theorems about the image index assume at least one image.

    Where rounding decides the matter it is modelled.  The noise-warp
    shader writes 3.14159 for pi: in exact arithmetic its warp is a
    little above zero at the end of a transition, on the GPU it is
    zero.  That shader is therefore embedded a second time, on the
    binary32 numbers with every operation rounded to nearest
    ([Float32], [NoiseShader32]), and what is said about its warp at
    rest and at its peak is said of that embedding. *)

From Stdlib Require Import QArith Qminmax Qround Lia Lqa List Bool ZArith
  PeanoNat String.
From Stdlib Require Import Reals Lra Qreals.
Import ListNotations.

Open Scope Q_scope.

(** * Part I: the embedding *)

(** ** The aspect fitter

    [calculateFitParams] is declared, with the same text, in each of the
    three components. *)

Module Fitter.

Record FitParams : Type := mkFitParams {
  scaleX : Q;
  scaleY : Q;
  offsetX : Q;
  offsetY : Q
}.

(** [a > b] on numbers. *)
Definition gt_bool (a b : Q) : bool := negb (Qle_bool a b).

Definition calculateFitParams
    (imageAspectRatio containerAspectRatio : Q) : FitParams :=
  let scaleX := 1 in
  let scaleY := 1 in
  let offsetX := 0 in
  let offsetY := 0 in
  if gt_bool imageAspectRatio containerAspectRatio then
    let scaleY := 1 in
    let scaleX := containerAspectRatio / imageAspectRatio in
    mkFitParams scaleX scaleY offsetX offsetY
  else
    let scaleX := 1 in
    let scaleY := imageAspectRatio / containerAspectRatio in
    mkFitParams scaleX scaleY offsetX offsetY.

(** "Exactly one of the two scales is 1.0", as the data model words it. *)
Definition exactly_one_unit_scale (f : FitParams) : Prop :=
  (scaleX f == 1 /\ ~ scaleY f == 1) \/ (~ scaleX f == 1 /\ scaleY f == 1).

End Fitter.

(** ** The transition scheduler, as the specification describes it

    Two states, Idle and Transitioning.  Idle holds progress 0 until the
    time spent in it reaches cycleDuration - transitionDuration;
    Transitioning exposes min(elapsedSinceEntry / transitionDuration, 1)
    and, when that reaches 1, advances the image index modulo the image
    count, resets progress to 0 and returns to Idle.  [Unstarted] is the
    machine before its first frame: the idle clock starts with that
    frame. *)

Module Scheduler.

Inductive phase : Type :=
| Unstarted
| Idle (since : Q)
| Transitioning (entry : Q).

Record TransitionState : Type := mkTS {
  phase_of : phase;
  progress : Q;
  currentIndex : nat
}.

Definition initial : TransitionState := mkTS Unstarted 0 0.

Definition idle_tick (hold since t : Q) (i : nat) : TransitionState :=
  if Qle_bool hold (t - since)
  then mkTS (Transitioning t) 0 i
  else mkTS (Idle since) 0 i.

Definition tick (cycleDuration transitionDuration : Q) (imageCount : nat)
    (t : Q) (s : TransitionState) : TransitionState :=
  match phase_of s with
  | Unstarted =>
      idle_tick (cycleDuration - transitionDuration) t t (currentIndex s)
  | Idle since =>
      idle_tick (cycleDuration - transitionDuration) since t (currentIndex s)
  | Transitioning entry =>
      let p := Qmin ((t - entry) / transitionDuration) 1 in
      if Qle_bool 1 p
      then mkTS (Idle t) 0 ((currentIndex s + 1) mod imageCount)
      else mkTS (Transitioning entry) p (currentIndex s)
  end.

(** The edge on which the controller is notified. *)
Definition completes (before after : TransitionState) : bool :=
  match phase_of before, phase_of after with
  | Transitioning _, Idle _ => true
  | _, _ => false
  end.

Fixpoint completions_from (prev : TransitionState)
    (tr : list TransitionState) : nat :=
  match tr with
  | [] => 0
  | s :: rest =>
      ((if completes prev s then 1 else 0) + completions_from s rest)%nat
  end.

Section Runs.

Variables (cycleDuration transitionDuration : Q) (imageCount : nat).

Definition run (ticks : list Q) (s : TransitionState) : TransitionState :=
  fold_left (fun s t => tick cycleDuration transitionDuration imageCount t s)
    ticks s.

(** The state after each tick. *)
Fixpoint trace (ticks : list Q) (s : TransitionState)
    : list TransitionState :=
  match ticks with
  | [] => []
  | t :: rest =>
      let s' := tick cycleDuration transitionDuration imageCount t s in
      s' :: trace rest s'
  end.

End Runs.

End Scheduler.

(** ** The frame callbacks of the two auto-playing components *)

(** The timing props shared by [ThreeImageSlider] and [ThreeImageSlider3],
    with [images.length]. *)
Record timing : Type := mkTiming {
  autoPlayMs : Q;
  crossfadeMs : Q;
  imagesLength : nat
}.

(** [!start] on a number: true exactly when it is zero. *)
Definition falsy (x : Q) : bool := Qeq_bool x 0.

(** [ThreeImageSlider.tsx], the third effect.  [start] and
    [isTransitioning] are the closure variables of the effect,
    [uProgress] is [uniforms.uProgress.value] and [index] the React
    state that [setIndex] updates.  The callback requests itself again on
    every frame, so the pending request needs no field. *)
Module Slider1.

Record state : Type := mkState {
  start : Q;
  isTransitioning : bool;
  uProgress : Q;
  index : nat
}.

Definition init : state := mkState 0 false 0 0.

Definition step (p : timing) (t : Q) (st : state) : state :=
  let start := if falsy (start st) then t else start st in
  let elapsed := t - start in
  if negb (isTransitioning st) then
    if Qle_bool (autoPlayMs p - crossfadeMs p) elapsed
    then mkState t true (uProgress st) (index st)
    else mkState start false (uProgress st) (index st)
  else
    let progress := Qmin (elapsed / crossfadeMs p) 1 in
    if Qle_bool (crossfadeMs p) elapsed
    then mkState t false 0 ((index st + 1) mod imagesLength p)
    else mkState start true progress (index st).

Definition view (st : state) : Scheduler.TransitionState :=
  Scheduler.mkTS
    (if isTransitioning st then Scheduler.Transitioning (start st)
     else if falsy (start st) then Scheduler.Unstarted
     else Scheduler.Idle (start st))
    (uProgress st) (index st).

(** What holds of every state the callback produces from [init]. *)
Definition wf (st : state) : Prop :=
  (isTransitioning st = true -> falsy (start st) = false) /\
  (isTransitioning st = false -> uProgress st = 0).

End Slider1.

(** [ThreeImageSlider3] (the noise-warp component), the third effect.
    Here two callbacks take turns: [step] while idle and [transitionStep],
    a closure over [transitionStart], during a transition.  [raf] is the
    callback currently requested for the next frame. *)
Module Slider3.

Inductive callback : Type :=
| Step
| TransitionStep (transitionStart : Q).

Record state : Type := mkState {
  start : Q;
  isTransitioning : bool;
  raf : option callback;
  uProgress : Q;
  index : nat
}.

Definition init : state := mkState 0 false (Some Step) 0 0.

Definition transitionStep (p : timing) (transitionStart : Q)
    (transitionTime : Q) (st : state) : state :=
  let transitionElapsed := transitionTime - transitionStart in
  let progress := Qmin (transitionElapsed / crossfadeMs p) 1 in
  if Qle_bool 1 progress
  then mkState transitionTime false (Some Step) 0
         ((index st + 1) mod imagesLength p)
  else mkState (start st) (isTransitioning st)
         (Some (TransitionStep transitionStart)) progress (index st).

Definition step (p : timing) (t : Q) (st : state) : state :=
  let start := if falsy (start st) then t else start st in
  let elapsed := t - start in
  if negb (isTransitioning st)
     && Qle_bool (autoPlayMs p - crossfadeMs p) elapsed
  then mkState start true (Some (TransitionStep t)) (uProgress st) (index st)
  else if negb (isTransitioning st)
  then mkState start false (Some Step) 0 (index st)
  else mkState start (isTransitioning st) None (uProgress st) (index st).

(** One animation frame: the requested callback runs. *)
Definition frame (p : timing) (t : Q) (st : state) : state :=
  match raf st with
  | Some Step => step p t st
  | Some (TransitionStep transitionStart) =>
      transitionStep p transitionStart t st
  | None => st
  end.

Definition view (st : state) : Scheduler.TransitionState :=
  Scheduler.mkTS
    (match raf st with
     | Some (TransitionStep transitionStart) =>
         Scheduler.Transitioning transitionStart
     | _ => if falsy (start st) then Scheduler.Unstarted
            else Scheduler.Idle (start st)
     end)
    (uProgress st) (index st).

Definition wf (st : state) : Prop :=
  match raf st with
  | Some Step => isTransitioning st = false /\ uProgress st = 0
  | Some (TransitionStep _) => isTransitioning st = true
  | None => False
  end.

End Slider3.

(** The two components behind one interface. *)
Record component : Type := mkComponent {
  cstate : Type;
  cinit : cstate;
  cframe : timing -> Q -> cstate -> cstate;
  cview : cstate -> Scheduler.TransitionState
}.

Definition slider1 : component :=
  mkComponent Slider1.state Slider1.init Slider1.step Slider1.view.

Definition slider3 : component :=
  mkComponent Slider3.state Slider3.init Slider3.frame Slider3.view.

(** The state of a mounted component after the frames [ticks]. *)
Definition frames_run (M : component) (p : timing) (ticks : list Q)
    : cstate M :=
  fold_left (fun st t => cframe M p t st) ticks (cinit M).

(** What is to be seen of it: phase, progress and image index. *)
Definition observe (M : component) (p : timing) (ticks : list Q)
    : Scheduler.TransitionState :=
  cview M (frames_run M p ticks).

(** The observations after each frame of [ticks], following [pre]. *)
Fixpoint observations (M : component) (p : timing) (pre ticks : list Q)
    : list Scheduler.TransitionState :=
  match ticks with
  | [] => []
  | t :: rest =>
      observe M p (pre ++ [t]) :: observations M p (pre ++ [t]) rest
  end.

(** Completed transitions among the frames [ticks] from the mount. *)
Definition completed (M : component) (p : timing) (ticks : list Q) : nat :=
  Scheduler.completions_from (cview M (cinit M)) (observations M p [] ticks).

(** Frames at a fixed period [dt], the first at [t]. *)
Fixpoint frames (t dt : Q) (n : nat) : list Q :=
  match n with
  | O => []
  | S k => t :: frames (t + dt) dt k
  end.

(** The time of the frame that follows [n] frames. *)
Fixpoint frame_time (t dt : Q) (n : nat) : Q :=
  match n with
  | O => t
  | S k => frame_time (t + dt) dt k
  end.

(** ** Image loading

    What the browser answers when an image URL is requested: the decoded
    picture with its pixel size, or an error.  One URL has one answer,
    whoever asks ([new Image()] for the aspect ratio, the texture loader
    for the texture). *)

Inductive imageOutcome : Type :=
| Loaded (width height : Q)
| LoadError.

Definition network : Type := string -> imageOutcome.

(** [getImageAspectRatio], declared with the same text in the three
    components: the value its promise resolves with.  The promise has
    no reject path. *)
Definition getImageAspectRatio (net : network) (imageUrl : string) : Q :=
  match net imageUrl with
  | Loaded width height => width / height
  | LoadError => 1
  end.

Inductive textureFilter : Type :=
| LinearFilter
| LinearMipmapLinearFilter.

Record texture : Type := mkTexture {
  image : string;
  magFilter : textureFilter;
  minFilter : textureFilter
}.

(** [loader.load(url, onLoad)] with no [onError]: the texture handed to
    [onLoad], if the image loads. *)
Definition textureLoad (net : network) (url : string) : option texture :=
  match net url with
  | Loaded _ _ => Some (mkTexture url LinearFilter LinearMipmapLinearFilter)
  | LoadError => None
  end.

(** Requests in flight, each with the data its continuation closes over.
    [AspectRatios] is the [await Promise.all([...])] of the two
    [getImageAspectRatio] probes of a pair of images: the probes are
    started together, and the one continuation runs when both have
    answered.  [Texture1] and [Texture2] are single [loader.load]
    calls. *)
Inductive request : Type :=
| AspectRatios (current next : string)
| Texture1 (current next : string)
| Texture2 (next : string).

Definition remove_nth {A : Type} (k : nat) (l : list A) : list A :=
  firstn k l ++ skipn (S k) l.

(** The [k]-th request in flight settles: it leaves the list and its
    continuation [continue] runs, possibly issuing new requests. *)
Definition settle_nth {U : Type}
    (continue : request -> U -> U * list request)
    (k : nat) (st : U * list request) : U * list request :=
  match nth_error (snd st) k with
  | None => st
  | Some r =>
      let (u, issued) := continue r (fst st) in
      (u, remove_nth k (snd st) ++ issued)
  end.

Definition settle_all {U : Type}
    (continue : request -> U -> U * list request)
    (ks : list nat) (st : U * list request) : U * list request :=
  fold_left (fun st k => settle_nth continue k st) ks st.

(** The second effect of [ThreeImageSlider] and, with the same text, of
    [ThreeImageSlider3]: [loadCurrentImages]. *)
Module Loader.

(** The uniforms this effect writes. *)
Record uniforms : Type := mkUniforms {
  uTex1 : option texture;
  uTex2 : option texture;
  uImageAspectRatio1 : Q;
  uImageAspectRatio2 : Q;
  uImageScale1 : Q * Q;
  uImageScale2 : Q * Q;
  uImageOffset1 : Q * Q;
  uImageOffset2 : Q * Q
}.

(** As [useMemo] creates them. *)
Definition initial : uniforms :=
  mkUniforms None None 1 1 (1, 1) (1, 1) (0, 0) (0, 0).

Section Effect.

Variables (net : network) (images : list string) (width height : Q).

(** Up to the [await]: the two aspect-ratio probes are started. *)
Definition loadCurrentImages (index : nat) : request :=
  let nextIndex := ((index + 1) mod List.length images)%nat in
  AspectRatios (nth index images EmptyString)
    (nth nextIndex images EmptyString).

(** After the [await]: fit parameters, then the texture of the current
    image is requested. *)
Definition afterAspectRatios (current next : string) (u : uniforms)
    : uniforms * list request :=
  let aspectRatio1 := getImageAspectRatio net current in
  let aspectRatio2 := getImageAspectRatio net next in
  let containerAspectRatio := width / height in
  let fitParams1 :=
    Fitter.calculateFitParams aspectRatio1 containerAspectRatio in
  let fitParams2 :=
    Fitter.calculateFitParams aspectRatio2 containerAspectRatio in
  (mkUniforms (uTex1 u) (uTex2 u) aspectRatio1 aspectRatio2
     (Fitter.scaleX fitParams1, Fitter.scaleY fitParams1)
     (Fitter.scaleX fitParams2, Fitter.scaleY fitParams2)
     (Fitter.offsetX fitParams1, Fitter.offsetY fitParams1)
     (Fitter.offsetX fitParams2, Fitter.offsetY fitParams2),
   [Texture1 current next]).

(** [(tx1) => { uniforms.uTex1.value = tx1; loader.load(next, ...) }] *)
Definition afterTexture1 (current next : string) (u : uniforms)
    : uniforms * list request :=
  match textureLoad net current with
  | Some tx1 =>
      (mkUniforms (Some tx1) (uTex2 u)
         (uImageAspectRatio1 u) (uImageAspectRatio2 u)
         (uImageScale1 u) (uImageScale2 u)
         (uImageOffset1 u) (uImageOffset2 u),
       [Texture2 next])
  | None => (u, [])
  end.

(** [(tx2) => { uniforms.uTex2.value = tx2; }] *)
Definition afterTexture2 (next : string) (u : uniforms)
    : uniforms * list request :=
  match textureLoad net next with
  | Some tx2 =>
      (mkUniforms (uTex1 u) (Some tx2)
         (uImageAspectRatio1 u) (uImageAspectRatio2 u)
         (uImageScale1 u) (uImageScale2 u)
         (uImageOffset1 u) (uImageOffset2 u),
       [])
  | None => (u, [])
  end.

Definition continue (r : request) (u : uniforms) : uniforms * list request :=
  match r with
  | AspectRatios current next => afterAspectRatios current next u
  | Texture1 current next => afterTexture1 current next u
  | Texture2 next => afterTexture2 next u
  end.

End Effect.

End Loader.

(** [loadCurrentImages] of [ThreeImageSlider2], in its mount effect: the
    two textures are requested side by side. *)
Module Loader2.

Record uniforms : Type := mkUniforms {
  texture1 : option texture;
  texture2 : option texture;
  imageAspectRatio1 : Q;
  imageAspectRatio2 : Q;
  imageScale1 : Q * Q;
  imageScale2 : Q * Q;
  imageOffset1 : Q * Q;
  imageOffset2 : Q * Q
}.

Definition initial : uniforms :=
  mkUniforms None None 1 1 (1, 1) (1, 1) (0, 0) (0, 0).

Section Effect.

Variables (net : network) (imageList : list string) (width height : Q).

(** [None] stands for the early [return] on an empty list. *)
Definition loadCurrentImages (currentIndex : nat) : option request :=
  if (List.length imageList =? 0)%nat then None
  else
    let currentImg := nth currentIndex imageList EmptyString in
    let nextImg :=
      nth ((currentIndex + 1) mod List.length imageList)%nat imageList
        EmptyString in
    Some (AspectRatios currentImg nextImg).

Definition afterAspectRatios (currentImg nextImg : string) (u : uniforms)
    : uniforms * list request :=
  let aspectRatio1 := getImageAspectRatio net currentImg in
  let aspectRatio2 := getImageAspectRatio net nextImg in
  let containerAspectRatio := width / height in
  let fitParams1 :=
    Fitter.calculateFitParams aspectRatio1 containerAspectRatio in
  let fitParams2 :=
    Fitter.calculateFitParams aspectRatio2 containerAspectRatio in
  (mkUniforms (texture1 u) (texture2 u) aspectRatio1 aspectRatio2
     (Fitter.scaleX fitParams1, Fitter.scaleY fitParams1)
     (Fitter.scaleX fitParams2, Fitter.scaleY fitParams2)
     (Fitter.offsetX fitParams1, Fitter.offsetY fitParams1)
     (Fitter.offsetX fitParams2, Fitter.offsetY fitParams2),
   [Texture1 currentImg nextImg; Texture2 nextImg]).

Definition linear (tx : texture) : texture :=
  mkTexture (image tx) LinearFilter LinearFilter.

Definition afterTexture1 (currentImg : string) (u : uniforms)
    : uniforms * list request :=
  match textureLoad net currentImg with
  | Some tx1 =>
      (mkUniforms (Some (linear tx1)) (texture2 u)
         (imageAspectRatio1 u) (imageAspectRatio2 u)
         (imageScale1 u) (imageScale2 u)
         (imageOffset1 u) (imageOffset2 u),
       [])
  | None => (u, [])
  end.

Definition afterTexture2 (nextImg : string) (u : uniforms)
    : uniforms * list request :=
  match textureLoad net nextImg with
  | Some tx2 =>
      (mkUniforms (texture1 u) (Some (linear tx2))
         (imageAspectRatio1 u) (imageAspectRatio2 u)
         (imageScale1 u) (imageScale2 u)
         (imageOffset1 u) (imageOffset2 u),
       [])
  | None => (u, [])
  end.

Definition continue (r : request) (u : uniforms) : uniforms * list request :=
  match r with
  | AspectRatios currentImg nextImg => afterAspectRatios currentImg nextImg u
  | Texture1 currentImg _ => afterTexture1 currentImg u
  | Texture2 nextImg => afterTexture2 nextImg u
  end.

End Effect.

End Loader2.

(** ** [ThreeImageSlider] as a whole: mount, frames, settled requests,
    unmount *)

Module Controller1.

Record world : Type := mkWorld {
  loaded : Loader.uniforms;   (* the uniforms of the load effect *)
  sched : Slider1.state;      (* [uProgress], [index], scheduler closure *)
  uTime : Q;
  tickStart : Q;              (* [performance.now()] at mount *)
  tickRaf : bool;             (* the render loop has a frame requested *)
  stepRaf : bool;             (* the scheduler has a frame requested *)
  inFlight : list request
}.

Inductive event : Type :=
| Frame (now : Q)
| Settle (k : nat)
| Unmount.

Section Component.

Variables (net : network) (images : list string) (width height : Q).
Variables (autoPlayMs crossfadeMs : Q).

Definition props : timing :=
  mkTiming autoPlayMs crossfadeMs (List.length images).

Definition mount (now : Q) : world :=
  mkWorld Loader.initial Slider1.init 0 now true true
    [Loader.loadCurrentImages images 0].

(** A frame runs the requested callbacks, [tick] of the first effect and
    [step] of the third; a changed [index] re-runs the second effect.
    A settled request runs its continuation.  Unmounting runs the two
    cleanups, each a [cancelAnimationFrame]; the second effect has no
    cleanup. *)
Definition handle (w : world) (e : event) : world :=
  match e with
  | Frame now =>
      let uTime' :=
        if tickRaf w then (now - tickStart w) / 1000 else uTime w in
      let sched' :=
        if stepRaf w then Slider1.step props now (sched w) else sched w in
      let reload :=
        if (Slider1.index sched' =? Slider1.index (sched w))%nat then []
        else [Loader.loadCurrentImages images (Slider1.index sched')] in
      mkWorld (loaded w) sched' uTime' (tickStart w) (tickRaf w) (stepRaf w)
        (inFlight w ++ reload)
  | Settle k =>
      let st := settle_nth (Loader.continue net width height) k
                  (loaded w, inFlight w) in
      mkWorld (fst st) (sched w) (uTime w) (tickStart w)
        (tickRaf w) (stepRaf w) (snd st)
  | Unmount =>
      mkWorld (loaded w) (sched w) (uTime w) (tickStart w) false false
        (inFlight w)
  end.

Definition run (evs : list event) (w : world) : world :=
  fold_left handle evs w.

(** The shared uniforms object. *)
Definition uniforms_of (w : world) : Loader.uniforms * Q * Q :=
  (loaded w, Slider1.uProgress (sched w), uTime w).

(** The teardown property as the specification words it: once unmounted,
    nothing writes the uniforms any more. *)
Definition quiet_after_unmount : Prop :=
  forall (w : world) (evs : list event),
    uniforms_of (run evs (handle w Unmount)) = uniforms_of (handle w Unmount).

End Component.

Definition is_frame (e : event) : Prop :=
  match e with
  | Frame _ => True
  | _ => False
  end.

End Controller1.

(** A network on which every picture but ["missing.jpg"] loads. *)
Definition one_missing : network :=
  fun url => if String.eqb url "missing.jpg" then LoadError
             else Loaded 1920 1080.

(** A network on which every picture loads. *)
Definition all_load : network := fun _ => Loaded 1920 1080.

(** ** The fragment shaders

    GLSL floats are idealised as real numbers (see the head of the
    file); the noise-warp shader is given on rounded 32-bit floats as
    well, in [NoiseShader32].  A sampler is the function from texture
    coordinates to colours that [texture2D] computes. *)

Module GLSL.

Local Open Scope R_scope.

Record vec2 : Type := mkVec2 { vx : R; vy : R }.
Record vec3 : Type := mkVec3 { x3 : R; y3 : R; z3 : R }.
Record vec4 : Type := mkVec4 { cr : R; cg : R; cb : R; ca : R }.

Definition sampler2D : Type := vec2 -> vec4.

Definition texture2D (s : sampler2D) (uv : vec2) : vec4 := s uv.

(** Component-wise arithmetic on [vec2], with vectors and with floats. *)
Definition add2 (a b : vec2) : vec2 := mkVec2 (vx a + vx b) (vy a + vy b).
Definition sub2 (a b : vec2) : vec2 := mkVec2 (vx a - vx b) (vy a - vy b).
Definition mul2 (a b : vec2) : vec2 := mkVec2 (vx a * vx b) (vy a * vy b).
Definition add2f (a : vec2) (k : R) : vec2 := mkVec2 (vx a + k) (vy a + k).
Definition sub2f (a : vec2) (k : R) : vec2 := mkVec2 (vx a - k) (vy a - k).
Definition mul2f (a : vec2) (k : R) : vec2 := mkVec2 (vx a * k) (vy a * k).
Definition dot2 (a b : vec2) : R := vx a * vx b + vy a * vy b.

(** The built-in functions, as the GLSL specification defines them. *)
Definition clamp (x lo hi : R) : R := Rmin (Rmax x lo) hi.

Definition smoothstep (edge0 edge1 x : R) : R :=
  let t := clamp ((x - edge0) / (edge1 - edge0)) 0 1 in
  t * t * (3 - 2 * t).

Definition mix (x y a : R) : R := x * (1 - a) + y * a.

Definition mix4 (x y : vec4) (a : R) : vec4 :=
  mkVec4 (mix (cr x) (cr y) a) (mix (cg x) (cg y) a)
         (mix (cb x) (cb y) a) (mix (ca x) (ca y) a).

(** [floor] and [fract]. *)
Definition floor (x : R) : R := IZR (Int_part x).
Definition fract (x : R) : R := x - floor x.

(** The remapping that all three shaders apply to [vUv]:
    [(vUv - 0.5) * scale + 0.5 + offset]. *)
Definition fit_uv (vUv scale offset : vec2) : vec2 :=
  add2 (add2f (mul2 (sub2f vUv 0.5) scale) 0.5) offset.

End GLSL.

(** The crossfade shader of [ThreeImageSlider]. *)
Module CrossfadeShader.

Import GLSL.
Local Open Scope R_scope.

(** The uniforms that [main] reads. *)
Record uniforms : Type := mkUniforms {
  uTex1 : sampler2D;
  uTex2 : sampler2D;
  uProgress : R;
  uImageScale1 : vec2;
  uImageScale2 : vec2;
  uImageOffset1 : vec2;
  uImageOffset2 : vec2
}.

(** [main]: the value assigned to [gl_FragColor]. *)
Definition main (u : uniforms) (vUv : vec2) : vec4 :=
  let uv1 := fit_uv vUv (uImageScale1 u) (uImageOffset1 u) in
  let uv2 := fit_uv vUv (uImageScale2 u) (uImageOffset2 u) in
  let c1 := texture2D (uTex1 u) uv1 in
  let c2 := texture2D (uTex2 u) uv2 in
  mix4 c1 c2 (smoothstep 0.0 1.0 (uProgress u)).

End CrossfadeShader.

(** ** The displacement shader of [ThreeImageSlider2] *)

Module DisplacementShader.

Import GLSL.
Local Open Scope R_scope.

(** [angle1 ?? angle] and [angle2 ?? -angle * 3], as [useMemo] fills
    the uniforms; [None] is a prop that was not supplied. *)
Definition uniform_angle1 (angle : R) (angle1 : option R) : R :=
  match angle1 with
  | Some a => a
  | None => angle
  end.

Definition uniform_angle2 (angle : R) (angle2 : option R) : R :=
  match angle2 with
  | Some a => a
  | None => - angle * 3
  end.

(** The default of the [angle] prop, [Math.PI / 4]. *)
Definition default_angle : R := PI / 4.

(** A [mat2], column by column, as its constructor takes it. *)
Record mat2 : Type := mkMat2 {
  col0x : R; col0y : R;
  col1x : R; col1y : R
}.

(** [mat2 * vec2]. *)
Definition mulMV (m : mat2) (v : vec2) : vec2 :=
  mkVec2 (col0x m * vx v + col1x m * vy v)
         (col0y m * vx v + col1y m * vy v).

Definition getRotM (angle : R) : mat2 :=
  let s := sin angle in
  let c := cos angle in
  mkMat2 c (- s) s c.

Record uniforms : Type := mkUniforms {
  dispFactor : R;
  disp : sampler2D;
  texture1 : sampler2D;
  texture2 : sampler2D;
  angle1 : R;
  angle2 : R;
  intensity1 : R;
  intensity2 : R;
  imageScale1 : vec2;
  imageScale2 : vec2;
  imageOffset1 : vec2;
  imageOffset2 : vec2
}.

Definition dispVec (u : uniforms) (vUv : vec2) : vec2 :=
  let dispTex := texture2D (disp u) vUv in
  mkVec2 (cr dispTex) (cg dispTex).

Definition distortedPosition1 (u : uniforms) (vUv : vec2) : vec2 :=
  let uv1 := fit_uv vUv (imageScale1 u) (imageOffset1 u) in
  add2 uv1
    (mul2f (mul2f (mulMV (getRotM (angle1 u)) (dispVec u vUv))
              (intensity1 u))
       (dispFactor u)).

Definition distortedPosition2 (u : uniforms) (vUv : vec2) : vec2 :=
  let uv2 := fit_uv vUv (imageScale2 u) (imageOffset2 u) in
  add2 uv2
    (mul2f (mul2f (mulMV (getRotM (angle2 u)) (dispVec u vUv))
              (intensity2 u))
       (1.0 - dispFactor u)).

(** [main]: the value assigned to [gl_FragColor]. *)
Definition main (u : uniforms) (vUv : vec2) : vec4 :=
  let _texture1 := texture2D (texture1 u) (distortedPosition1 u vUv) in
  let _texture2 := texture2D (texture2 u) (distortedPosition2 u vUv) in
  mix4 _texture1 _texture2 (dispFactor u).

(** "angle2 defaults to -3 * angle1 when not supplied", whatever was
    supplied for the other props. *)
Definition angle2_defaults_to_minus_three_angle1 : Prop :=
  forall (angle : R) (angle1 : option R),
    uniform_angle2 angle None = -3 * uniform_angle1 angle angle1.

End DisplacementShader.

(** ** The noise-warp shader of [ThreeImageSlider3], in exact arithmetic *)

Module NoiseShader.

Import GLSL.
Local Open Scope R_scope.

(** Component-wise arithmetic on [vec3]. *)
Definition add3 (a b : vec3) : vec3 :=
  mkVec3 (x3 a + x3 b) (y3 a + y3 b) (z3 a + z3 b).
Definition sub3 (a b : vec3) : vec3 :=
  mkVec3 (x3 a - x3 b) (y3 a - y3 b) (z3 a - z3 b).
Definition mul3 (a b : vec3) : vec3 :=
  mkVec3 (x3 a * x3 b) (y3 a * y3 b) (z3 a * z3 b).
Definition add3f (a : vec3) (k : R) : vec3 :=
  mkVec3 (x3 a + k) (y3 a + k) (z3 a + k).
Definition sub3f (a : vec3) (k : R) : vec3 :=
  mkVec3 (x3 a - k) (y3 a - k) (z3 a - k).
Definition mul3f (a : vec3) (k : R) : vec3 :=
  mkVec3 (x3 a * k) (y3 a * k) (z3 a * k).
Definition fsub3 (k : R) (a : vec3) : vec3 :=
  mkVec3 (k - x3 a) (k - y3 a) (k - z3 a).
Definition fadd3 (k : R) (a : vec3) : vec3 :=
  mkVec3 (k + x3 a) (k + y3 a) (k + z3 a).
Definition fmul3 (k : R) (a : vec3) : vec3 :=
  mkVec3 (k * x3 a) (k * y3 a) (k * z3 a).
Definition floor3 (a : vec3) : vec3 :=
  mkVec3 (floor (x3 a)) (floor (y3 a)) (floor (z3 a)).
Definition fract3 (a : vec3) : vec3 :=
  mkVec3 (fract (x3 a)) (fract (y3 a)) (fract (z3 a)).
Definition abs3 (a : vec3) : vec3 :=
  mkVec3 (Rabs (x3 a)) (Rabs (y3 a)) (Rabs (z3 a)).
Definition max3f (a : vec3) (k : R) : vec3 :=
  mkVec3 (Rmax (x3 a) k) (Rmax (y3 a) k) (Rmax (z3 a) k).
Definition dot3 (a b : vec3) : R := x3 a * x3 b + y3 a * y3 b + z3 a * z3 b.
Definition floor2 (a : vec2) : vec2 := mkVec2 (floor (vx a)) (floor (vy a)).

Definition mod289_3 (x : vec3) : vec3 :=
  sub3 x (mul3f (floor3 (mul3f x (1.0 / 289.0))) 289.0).

Definition mod289_2 (x : vec2) : vec2 :=
  sub2 x (mul2f (floor2 (mul2f x (1.0 / 289.0))) 289.0).

Definition permute (x : vec3) : vec3 :=
  mod289_3 (mul3 (add3f (mul3f x 34.0) 1.0) x).

Definition snoise (v : vec2) : R :=
  let Cx := 0.211324865405187 in
  let Cy := 0.366025403784439 in
  let Cz := -0.577350269189626 in
  let Cw := 0.024390243902439 in
  let i := floor2 (add2f v (dot2 v (mkVec2 Cy Cy))) in
  let x0 := add2f (sub2 v i) (dot2 i (mkVec2 Cx Cx)) in
  let i1 := if Rlt_dec (vy x0) (vx x0) then mkVec2 1.0 0.0
            else mkVec2 0.0 1.0 in
  (* x12 = x0.xyxy + C.xxzz; x12.xy -= i1 *)
  let x12xy := sub2 (add2 x0 (mkVec2 Cx Cx)) i1 in
  let x12zw := add2 x0 (mkVec2 Cz Cz) in
  let i := mod289_2 i in
  let p :=
    permute
      (add3 (add3f (permute (fadd3 (vy i) (mkVec3 0.0 (vy i1) 1.0))) (vx i))
            (mkVec3 0.0 (vx i1) 1.0)) in
  let m :=
    max3f (fsub3 0.5 (mkVec3 (dot2 x0 x0) (dot2 x12xy x12xy)
                             (dot2 x12zw x12zw))) 0.0 in
  let m := mul3 m m in
  let m := mul3 m m in
  let x := sub3f (fmul3 2.0 (fract3 (mul3 p (mkVec3 Cw Cw Cw)))) 1.0 in
  let h := sub3f (abs3 x) 0.5 in
  let ox := floor3 (add3f x 0.5) in
  let a0 := sub3 x ox in
  let m :=
    mul3 m (fsub3 1.79284291400159
              (fmul3 0.85373472095314 (add3 (mul3 a0 a0) (mul3 h h)))) in
  let gx := x3 a0 * vx x0 + x3 h * vy x0 in
  (* g.yz = a0.yz * x12.xz + h.yz * x12.yw *)
  let gy := y3 a0 * vx x12xy + y3 h * vy x12xy in
  let gz := z3 a0 * vx x12zw + z3 h * vy x12zw in
  130.0 * dot3 m (mkVec3 gx gy gz).

(** The loop of [fbm], [n] iterations to go. *)
Fixpoint fbm_loop (n : nat) (p : vec2) (value amplitude frequency : R) : R :=
  match n with
  | O => value
  | S k =>
      fbm_loop k p (value + amplitude * snoise (mul2f p frequency))
        (amplitude * 0.5) (frequency * 2.0)
  end.

Definition fbm (p : vec2) : R := fbm_loop 4 p 0.0 0.5 1.0.

Definition easeInOutSine (t : R) : R := -0.5 * (cos (3.14159 * t) - 1.0).

Record uniforms : Type := mkUniforms {
  uTex1 : sampler2D;
  uTex2 : sampler2D;
  uProgress : R;
  uTime : R;
  uNoiseScale : R;
  uNoiseIntensity : R;
  uImageScale1 : vec2;
  uImageScale2 : vec2;
  uImageOffset1 : vec2;
  uImageOffset2 : vec2
}.

Definition maxStrength : R := 0.4.

(** [displacementStrength], after its second assignment. *)
Definition displacementStrength (uProgress : R) : R :=
  let displacementStrength := sin (uProgress * 3.14159) in
  easeInOutSine displacementStrength * maxStrength.

Definition noise (u : uniforms) (vUv : vec2) : R :=
  let uv := vUv in
  let noiseCoord := add2f (mul2f uv (uNoiseScale u)) (uTime u * 0.1) in
  fbm noiseCoord.

Definition displacement (u : uniforms) (vUv : vec2) : vec2 :=
  let n := noise u vUv in
  mul2f (mul2f (mkVec2 n n) (uNoiseIntensity u))
    (displacementStrength (uProgress u)).

Definition distortedUV1 (u : uniforms) (vUv : vec2) : vec2 :=
  let uv1 := fit_uv vUv (uImageScale1 u) (uImageOffset1 u) in
  add2 uv1 (displacement u vUv).

Definition distortedUV2 (u : uniforms) (vUv : vec2) : vec2 :=
  let uv2 := fit_uv vUv (uImageScale2 u) (uImageOffset2 u) in
  add2 uv2 (displacement u vUv).

(** [main]: the value assigned to [gl_FragColor]. *)
Definition main (u : uniforms) (vUv : vec2) : vec4 :=
  let c1 := texture2D (uTex1 u) (distortedUV1 u vUv) in
  let c2 := texture2D (uTex2 u) (distortedUV2 u vUv) in
  mix4 c1 c2 (smoothstep 0.0 1.0 (uProgress u)).

(** The shaping of the strength as the specification writes it, with
    the number pi. *)
Definition ease_pi (t : R) : R := -0.5 * (cos (PI * t) - 1).

Definition strength_pi (progress : R) : R :=
  ease_pi (sin (progress * PI)) * maxStrength.

End NoiseShader.

(** ** 32-bit floats

    The values of a GLSL [highp float]: the binary32 numbers, as the
    real numbers they denote.  An operation computes the exact result
    and rounds it to the nearest binary32 number, ties to even.  The
    significand has 24 bits and the smallest quantum is 2^-149;
    overflow is outside the model (no largest exponent, no infinities,
    no NaN). *)
Module Float32.

Local Open Scope R_scope.

(** The binade of a nonzero [x]: the [e] with 2^e <= |x| < 2^(e+1). *)
Definition exponent (x : R) : Z := Int_part (ln (Rabs x) / ln 2).

(** The spacing of the binary32 numbers around [x]. *)
Definition ulp (x : R) : R := powerRZ 2 (Z.max (exponent x - 23) (-149)).

(** The integer nearest to [y], the even one of two that are equally
    near. *)
Definition nearest_even (y : R) : Z :=
  let f := Int_part y in
  let r := y - IZR f in
  if Rlt_dec r (1 / 2) then f
  else if Rlt_dec (1 / 2) r then (f + 1)%Z
  else if Z.even f then f else (f + 1)%Z.

Definition round (x : R) : R :=
  if Req_dec_T x 0 then 0
  else IZR (nearest_even (x / ulp x)) * ulp x.

(** The binary32 numbers. *)
Definition representable (f : R) : Prop :=
  exists m e : Z,
    (Z.abs m <= 2 ^ 24)%Z /\ (-149 <= e)%Z /\ f = IZR m * powerRZ 2 e.

(** A decimal literal of the shader text. *)
Definition literal (x : R) : R := round x.

Definition add (x y : R) : R := round (x + y).
Definition sub (x y : R) : R := round (x - y).
Definition mul (x y : R) : R := round (x * y).
Definition div (x y : R) : R := round (x / y).

(** [sin] and [cos], taken to be correctly rounded; GLSL leaves their
    precision to the implementation. *)
Definition sin (x : R) : R := round (Rtrigo_def.sin x).
Definition cos (x : R) : R := round (Rtrigo_def.cos x).

End Float32.

(** The vector arithmetic and the built-in functions on 32-bit floats:
    every addition, subtraction, multiplication and division is
    rounded.  [floor], [abs], [max], [min] and the comparisons return
    binary32 numbers on binary32 numbers as they are. *)
Module GLSL32.

Import GLSL.
Local Open Scope R_scope.

Definition add2 (a b : vec2) : vec2 :=
  mkVec2 (Float32.add (vx a) (vx b)) (Float32.add (vy a) (vy b)).
Definition sub2 (a b : vec2) : vec2 :=
  mkVec2 (Float32.sub (vx a) (vx b)) (Float32.sub (vy a) (vy b)).
Definition mul2 (a b : vec2) : vec2 :=
  mkVec2 (Float32.mul (vx a) (vx b)) (Float32.mul (vy a) (vy b)).
Definition add2f (a : vec2) (k : R) : vec2 :=
  mkVec2 (Float32.add (vx a) k) (Float32.add (vy a) k).
Definition sub2f (a : vec2) (k : R) : vec2 :=
  mkVec2 (Float32.sub (vx a) k) (Float32.sub (vy a) k).
Definition mul2f (a : vec2) (k : R) : vec2 :=
  mkVec2 (Float32.mul (vx a) k) (Float32.mul (vy a) k).
Definition dot2 (a b : vec2) : R :=
  Float32.add (Float32.mul (vx a) (vx b)) (Float32.mul (vy a) (vy b)).

Definition add3 (a b : vec3) : vec3 :=
  mkVec3 (Float32.add (x3 a) (x3 b)) (Float32.add (y3 a) (y3 b))
         (Float32.add (z3 a) (z3 b)).
Definition sub3 (a b : vec3) : vec3 :=
  mkVec3 (Float32.sub (x3 a) (x3 b)) (Float32.sub (y3 a) (y3 b))
         (Float32.sub (z3 a) (z3 b)).
Definition mul3 (a b : vec3) : vec3 :=
  mkVec3 (Float32.mul (x3 a) (x3 b)) (Float32.mul (y3 a) (y3 b))
         (Float32.mul (z3 a) (z3 b)).
Definition add3f (a : vec3) (k : R) : vec3 :=
  mkVec3 (Float32.add (x3 a) k) (Float32.add (y3 a) k)
         (Float32.add (z3 a) k).
Definition sub3f (a : vec3) (k : R) : vec3 :=
  mkVec3 (Float32.sub (x3 a) k) (Float32.sub (y3 a) k)
         (Float32.sub (z3 a) k).
Definition mul3f (a : vec3) (k : R) : vec3 :=
  mkVec3 (Float32.mul (x3 a) k) (Float32.mul (y3 a) k)
         (Float32.mul (z3 a) k).
Definition fsub3 (k : R) (a : vec3) : vec3 :=
  mkVec3 (Float32.sub k (x3 a)) (Float32.sub k (y3 a))
         (Float32.sub k (z3 a)).
Definition fadd3 (k : R) (a : vec3) : vec3 :=
  mkVec3 (Float32.add k (x3 a)) (Float32.add k (y3 a))
         (Float32.add k (z3 a)).
Definition fmul3 (k : R) (a : vec3) : vec3 :=
  mkVec3 (Float32.mul k (x3 a)) (Float32.mul k (y3 a))
         (Float32.mul k (z3 a)).
Definition dot3 (a b : vec3) : R :=
  Float32.add
    (Float32.add (Float32.mul (x3 a) (x3 b)) (Float32.mul (y3 a) (y3 b)))
    (Float32.mul (z3 a) (z3 b)).

Definition fract (x : R) : R := Float32.sub x (floor x).
Definition fract3 (a : vec3) : vec3 :=
  mkVec3 (fract (x3 a)) (fract (y3 a)) (fract (z3 a)).

Definition smoothstep (edge0 edge1 x : R) : R :=
  let t :=
    clamp (Float32.div (Float32.sub x edge0) (Float32.sub edge1 edge0))
      0 1 in
  Float32.mul (Float32.mul t t) (Float32.sub 3 (Float32.mul 2 t)).

Definition mix (x y a : R) : R :=
  Float32.add (Float32.mul x (Float32.sub 1 a)) (Float32.mul y a).

Definition mix4 (x y : vec4) (a : R) : vec4 :=
  mkVec4 (mix (cr x) (cr y) a) (mix (cg x) (cg y) a)
         (mix (cb x) (cb y) a) (mix (ca x) (ca y) a).

Definition fit_uv (vUv scale offset : vec2) : vec2 :=
  add2 (add2f (mul2 (sub2f vUv (Float32.literal 0.5)) scale)
          (Float32.literal 0.5))
       offset.

End GLSL32.

(** ** The noise-warp shader of [ThreeImageSlider3] on 32-bit floats

    The text of the fragment shader once more, each operation rounded
    as the hardware rounds it.  The uniforms and [vUv] are the same
    records, holding binary32 numbers. *)
Module NoiseShader32.

Import GLSL.
Local Open Scope R_scope.

Definition mod289_3 (x : vec3) : vec3 :=
  GLSL32.sub3 x
    (GLSL32.mul3f
       (NoiseShader.floor3
          (GLSL32.mul3f x
             (Float32.div (Float32.literal 1.0) (Float32.literal 289.0))))
       (Float32.literal 289.0)).

Definition mod289_2 (x : vec2) : vec2 :=
  GLSL32.sub2 x
    (GLSL32.mul2f
       (NoiseShader.floor2
          (GLSL32.mul2f x
             (Float32.div (Float32.literal 1.0) (Float32.literal 289.0))))
       (Float32.literal 289.0)).

Definition permute (x : vec3) : vec3 :=
  mod289_3
    (GLSL32.mul3
       (GLSL32.add3f (GLSL32.mul3f x (Float32.literal 34.0))
          (Float32.literal 1.0))
       x).

Definition snoise (v : vec2) : R :=
  let Cx := Float32.literal 0.211324865405187 in
  let Cy := Float32.literal 0.366025403784439 in
  let Cz := - Float32.literal 0.577350269189626 in
  let Cw := Float32.literal 0.024390243902439 in
  let i :=
    NoiseShader.floor2 (GLSL32.add2f v (GLSL32.dot2 v (mkVec2 Cy Cy))) in
  let x0 := GLSL32.add2f (GLSL32.sub2 v i) (GLSL32.dot2 i (mkVec2 Cx Cx)) in
  let i1 := if Rlt_dec (vy x0) (vx x0)
            then mkVec2 (Float32.literal 1.0) (Float32.literal 0.0)
            else mkVec2 (Float32.literal 0.0) (Float32.literal 1.0) in
  (* x12 = x0.xyxy + C.xxzz; x12.xy -= i1 *)
  let x12xy := GLSL32.sub2 (GLSL32.add2 x0 (mkVec2 Cx Cx)) i1 in
  let x12zw := GLSL32.add2 x0 (mkVec2 Cz Cz) in
  let i := mod289_2 i in
  let p :=
    permute
      (GLSL32.add3
         (GLSL32.add3f
            (permute
               (GLSL32.fadd3 (vy i)
                  (mkVec3 (Float32.literal 0.0) (vy i1)
                     (Float32.literal 1.0))))
            (vx i))
         (mkVec3 (Float32.literal 0.0) (vx i1) (Float32.literal 1.0))) in
  let m :=
    NoiseShader.max3f
      (GLSL32.fsub3 (Float32.literal 0.5)
         (mkVec3 (GLSL32.dot2 x0 x0) (GLSL32.dot2 x12xy x12xy)
                 (GLSL32.dot2 x12zw x12zw)))
      (Float32.literal 0.0) in
  let m := GLSL32.mul3 m m in
  let m := GLSL32.mul3 m m in
  let x :=
    GLSL32.sub3f
      (GLSL32.fmul3 (Float32.literal 2.0)
         (GLSL32.fract3 (GLSL32.mul3 p (mkVec3 Cw Cw Cw))))
      (Float32.literal 1.0) in
  let h := GLSL32.sub3f (NoiseShader.abs3 x) (Float32.literal 0.5) in
  let ox := NoiseShader.floor3 (GLSL32.add3f x (Float32.literal 0.5)) in
  let a0 := GLSL32.sub3 x ox in
  let m :=
    GLSL32.mul3 m
      (GLSL32.fsub3 (Float32.literal 1.79284291400159)
         (GLSL32.fmul3 (Float32.literal 0.85373472095314)
            (GLSL32.add3 (GLSL32.mul3 a0 a0) (GLSL32.mul3 h h)))) in
  let gx :=
    Float32.add (Float32.mul (x3 a0) (vx x0)) (Float32.mul (x3 h) (vy x0)) in
  (* g.yz = a0.yz * x12.xz + h.yz * x12.yw *)
  let gy :=
    Float32.add (Float32.mul (y3 a0) (vx x12xy))
      (Float32.mul (y3 h) (vy x12xy)) in
  let gz :=
    Float32.add (Float32.mul (z3 a0) (vx x12zw))
      (Float32.mul (z3 h) (vy x12zw)) in
  Float32.mul (Float32.literal 130.0) (GLSL32.dot3 m (mkVec3 gx gy gz)).

(** The loop of [fbm], [n] iterations to go. *)
Fixpoint fbm_loop (n : nat) (p : vec2) (value amplitude frequency : R) : R :=
  match n with
  | O => value
  | S k =>
      fbm_loop k p
        (Float32.add value
           (Float32.mul amplitude (snoise (GLSL32.mul2f p frequency))))
        (Float32.mul amplitude (Float32.literal 0.5))
        (Float32.mul frequency (Float32.literal 2.0))
  end.

Definition fbm (p : vec2) : R :=
  fbm_loop 4 p (Float32.literal 0.0) (Float32.literal 0.5)
    (Float32.literal 1.0).

Definition easeInOutSine (t : R) : R :=
  Float32.mul (- Float32.literal 0.5)
    (Float32.sub (Float32.cos (Float32.mul (Float32.literal 3.14159) t))
       (Float32.literal 1.0)).

Definition maxStrength : R := Float32.literal 0.4.

(** [displacementStrength], after its second assignment. *)
Definition displacementStrength (uProgress : R) : R :=
  let displacementStrength :=
    Float32.sin (Float32.mul uProgress (Float32.literal 3.14159)) in
  Float32.mul (easeInOutSine displacementStrength) maxStrength.

Definition noise (u : NoiseShader.uniforms) (vUv : vec2) : R :=
  let uv := vUv in
  let noiseCoord :=
    GLSL32.add2f (GLSL32.mul2f uv (NoiseShader.uNoiseScale u))
      (Float32.mul (NoiseShader.uTime u) (Float32.literal 0.1)) in
  fbm noiseCoord.

Definition displacement (u : NoiseShader.uniforms) (vUv : vec2) : vec2 :=
  let n := noise u vUv in
  GLSL32.mul2f (GLSL32.mul2f (mkVec2 n n) (NoiseShader.uNoiseIntensity u))
    (displacementStrength (NoiseShader.uProgress u)).

Definition distortedUV1 (u : NoiseShader.uniforms) (vUv : vec2) : vec2 :=
  let uv1 :=
    GLSL32.fit_uv vUv (NoiseShader.uImageScale1 u)
      (NoiseShader.uImageOffset1 u) in
  GLSL32.add2 uv1 (displacement u vUv).

Definition distortedUV2 (u : NoiseShader.uniforms) (vUv : vec2) : vec2 :=
  let uv2 :=
    GLSL32.fit_uv vUv (NoiseShader.uImageScale2 u)
      (NoiseShader.uImageOffset2 u) in
  GLSL32.add2 uv2 (displacement u vUv).

(** [main]: the value assigned to [gl_FragColor]. *)
Definition main (u : NoiseShader.uniforms) (vUv : vec2) : vec4 :=
  let c1 := texture2D (NoiseShader.uTex1 u) (distortedUV1 u vUv) in
  let c2 := texture2D (NoiseShader.uTex2 u) (distortedUV2 u vUv) in
  GLSL32.mix4 c1 c2
    (GLSL32.smoothstep (Float32.literal 0.0) (Float32.literal 1.0)
       (NoiseShader.uProgress u)).



End NoiseShader32.

(** ** Sample inputs for the noise-warp shader *)



(** ** Frame times

    [requestAnimationFrame] hands its callbacks a time that never runs
    backwards: each frame is at or after the one before, the first at or
    after [lo]. *)
Fixpoint ascending (lo : Q) (ticks : list Q) : Prop :=
  match ticks with
  | [] => True
  | t :: rest => lo <= t /\ ascending t rest
  end.

(** ** The viewport of [ThreeImageSlider] and [ThreeImageSlider3]

    What the first effect sets up from the [width] and [height] props,
    and what its [onResize] writes again. *)
Module Viewport.

Record camera : Type := mkCamera {
  left : Q;
  right : Q;
  top : Q;
  bottom : Q;
  near : Q;
  far : Q
}.

Record state : Type := mkState {
  rendererSize : Q * Q;
  cameraOf : camera;
  planeGeometry : Q * Q;
  uResolution : Q * Q;
  uContainerAspectRatio : Q
}.

Section Effect.

Variables (width height : Q).

Definition mount : state :=
  mkState (width, height)
    (mkCamera (- width / 2) (width / 2) (height / 2) (- height / 2)
       (-1000) 1000)
    (width, height) (width, height) (width / height).

Definition onResize (st : state) : state :=
  let w := width in
  let h := height in
  mkState (w, h)
    (mkCamera (- w / 2) (w / 2) (h / 2) (- h / 2)
       (near (cameraOf st)) (far (cameraOf st)))
    (planeGeometry st) (w, h) (w / h).

End Effect.

End Viewport.

(** ** The props of [ThreeImageSlider2] and what its effects do with them *)
Module Slider2.

(** A string prop in a condition: true when it was supplied and is not
    empty. *)
Definition truthy (s : option string) : bool :=
  match s with
  | None => false
  | Some EmptyString => false
  | Some (String _ _) => true
  end.

(** [a || b] on strings, [a] possibly undefined. *)
Definition or_string (a : option string) (b : string) : string :=
  match a with
  | Some s => if truthy a then s else b
  | None => b
  end.

(** [images || (image1 && image2 ? [image1, image2] : [])]: an array,
    even an empty one, is truthy. *)
Definition imageList (images : option (list string))
    (image1 image2 : option string) : list string :=
  match images with
  | Some l => l
  | None =>
      match image1, image2 with
      | Some i1, Some i2 =>
          if truthy image1 && truthy image2 then [i1; i2] else []
      | _, _ => []
      end
  end.

(** [displacementImage || imageList[0] || ""] *)
Definition displacementImg (displacementImage : option string)
    (imageList : list string) : string :=
  or_string displacementImage
    (or_string (nth_error imageList 0) EmptyString).

(** [if (displacementImg) loader.load(displacementImg, ...)]: the URL
    requested for the displacement map, if any. *)
Definition displacementRequest (displacementImg : string) : option string :=
  if truthy (Some displacementImg) then Some displacementImg else None.

(** [startAutoPlay]: the period of the interval timer it sets, if it
    sets one. *)
Definition startAutoPlay (autoPlay : bool) (imageList : list string)
    (autoPlayMs : Q) : option Q :=
  if autoPlay && (1 <? List.length imageList)%nat
  then Some autoPlayMs
  else None.

End Slider2.

(** The second effect of [ThreeImageSlider2],
    [loadImagesForCurrentIndex]: the two texture loads are wrapped in
    promises, and [dispFactor] is reset once both are resolved.
    [resolved1] and [resolved2] tell which of [loadPromises] are
    resolved; neither promise has a reject path. *)
Module Reload2.

Record state : Type := mkState {
  loaded : Loader2.uniforms;
  dispFactor : Q;
  resolved1 : bool;
  resolved2 : bool
}.

(** The state in which a run of the effect starts. *)
Definition start (u : Loader2.uniforms) (dispFactor : Q) : state :=
  mkState u dispFactor false false.

Section Effect.

Variables (net : network) (imageList : list string) (width height : Q).

(** [None] stands for the early [return] on an empty list. *)
Definition loadImagesForCurrentIndex (currentIndex : nat) : option request :=
  if (List.length imageList =? 0)%nat then None
  else
    let currentImg := nth currentIndex imageList EmptyString in
    let nextImg :=
      nth ((currentIndex + 1) mod List.length imageList)%nat imageList
        EmptyString in
    Some (AspectRatios currentImg nextImg).

(** [Promise.all(loadPromises).then(() => { dispFactor = 0 })]: the
    callback runs when the last of the two promises is resolved. *)
Definition whenAllLoaded (st : state) : state :=
  if resolved1 st && resolved2 st
  then mkState (loaded st) 0 (resolved1 st) (resolved2 st)
  else st.

Definition afterAspectRatios (currentImg nextImg : string) (st : state)
    : state * list request :=
  let aspectRatio1 := getImageAspectRatio net currentImg in
  let aspectRatio2 := getImageAspectRatio net nextImg in
  let containerAspectRatio := width / height in
  let fitParams1 :=
    Fitter.calculateFitParams aspectRatio1 containerAspectRatio in
  let fitParams2 :=
    Fitter.calculateFitParams aspectRatio2 containerAspectRatio in
  let u := loaded st in
  (mkState
     (Loader2.mkUniforms (Loader2.texture1 u) (Loader2.texture2 u)
        aspectRatio1 aspectRatio2
        (Fitter.scaleX fitParams1, Fitter.scaleY fitParams1)
        (Fitter.scaleX fitParams2, Fitter.scaleY fitParams2)
        (Fitter.offsetX fitParams1, Fitter.offsetY fitParams1)
        (Fitter.offsetX fitParams2, Fitter.offsetY fitParams2))
     (dispFactor st) (resolved1 st) (resolved2 st),
   [Texture1 currentImg nextImg; Texture2 nextImg]).

Definition afterTexture1 (currentImg : string) (st : state)
    : state * list request :=
  match textureLoad net currentImg with
  | Some tx1 =>
      let u := loaded st in
      (whenAllLoaded
         (mkState
            (Loader2.mkUniforms (Some (Loader2.linear tx1))
               (Loader2.texture2 u)
               (Loader2.imageAspectRatio1 u) (Loader2.imageAspectRatio2 u)
               (Loader2.imageScale1 u) (Loader2.imageScale2 u)
               (Loader2.imageOffset1 u) (Loader2.imageOffset2 u))
            (dispFactor st) true (resolved2 st)),
       [])
  | None => (st, [])
  end.

Definition afterTexture2 (nextImg : string) (st : state)
    : state * list request :=
  match textureLoad net nextImg with
  | Some tx2 =>
      let u := loaded st in
      (whenAllLoaded
         (mkState
            (Loader2.mkUniforms (Loader2.texture1 u)
               (Some (Loader2.linear tx2))
               (Loader2.imageAspectRatio1 u) (Loader2.imageAspectRatio2 u)
               (Loader2.imageScale1 u) (Loader2.imageScale2 u)
               (Loader2.imageOffset1 u) (Loader2.imageOffset2 u))
            (dispFactor st) (resolved1 st) true),
       [])
  | None => (st, [])
  end.

Definition continue (r : request) (st : state) : state * list request :=
  match r with
  | AspectRatios currentImg nextImg => afterAspectRatios currentImg nextImg st
  | Texture1 currentImg _ => afterTexture1 currentImg st
  | Texture2 nextImg => afterTexture2 nextImg st
  end.

End Effect.

End Reload2.

(** A [THREE.Vector2] uniform as the shader receives it. *)
Definition upload (v : Q * Q) : GLSL.vec2 :=
  GLSL.mkVec2 (Q2R (fst v)) (Q2R (snd v)).

(** ** The easing functions of the noise-warp shader

    Declared in the fragment shader of [ThreeImageSlider3] next to
    [easeInOutSine]. *)
Module Easing.

Local Open Scope R_scope.

(** [pow(x, y)].  GLSL leaves it undefined for [x < 0], and for [x = 0]
    with [y <= 0]: what this definition returns there means nothing. *)
Definition pow (x y : R) : R :=
  if Req_dec_T x 0 then 0 else Rpower x y.

Definition easeInOutQuad (t : R) : R :=
  if Rlt_dec t 0.5
  then 2.0 * t * t
  else 1.0 - pow (-2.0 * t + 2.0) 2.0 / 2.0.

Definition easeInOutCubic (t : R) : R :=
  if Rlt_dec t 0.5
  then 4.0 * t * t * t
  else 1.0 - pow (-2.0 * t + 2.0) 3.0 / 2.0.

Definition easeInOutQuart (t : R) : R :=
  if Rlt_dec t 0.5
  then 8.0 * t * t * t * t
  else 1.0 - pow (-2.0 * t + 2.0) 4.0 / 2.0.

Definition easeInOutQuint (t : R) : R :=
  if Rlt_dec t 0.5
  then 16.0 * t * t * t * t * t
  else 1.0 - pow (-2.0 * t + 2.0) 5.0 / 2.0.

Definition easeInOutExpo (t : R) : R :=
  if Req_dec_T t 0.0 then 0.0
  else if Req_dec_T t 1.0 then 1.0
  else if Rlt_dec t 0.5
  then pow 2.0 (20.0 * t - 10.0) / 2.0
  else (2.0 - pow 2.0 (-20.0 * t + 10.0)) / 2.0.

(** The four polynomial easings. *)
Definition polynomial : list (R -> R) :=
  [easeInOutQuad; easeInOutCubic; easeInOutQuart; easeInOutQuint].

End Easing.

(** The uniforms of the crossfade shader that a set of noise-warp
    uniforms contains. *)
Definition crossfade_part (u : NoiseShader.uniforms)
    : CrossfadeShader.uniforms :=
  CrossfadeShader.mkUniforms
    (NoiseShader.uTex1 u) (NoiseShader.uTex2 u) (NoiseShader.uProgress u)
    (NoiseShader.uImageScale1 u) (NoiseShader.uImageScale2 u)
    (NoiseShader.uImageOffset1 u) (NoiseShader.uImageOffset2 u).

(** The image URLs that a request names are all taken from [images]. *)
Definition names_listed (images : list string) (r : request) : Prop :=
  match r with
  | AspectRatios current next => In current images /\ In next images
  | Texture1 current next => In current images /\ In next images
  | Texture2 next => In next images
  end.

(** A texture slot is empty or shows one of [images]. *)
Definition shows_listed (images : list string) (tx : option texture) : Prop :=
  match tx with
  | Some t => In (image t) images
  | None => True
  end.

(** * Part II: properties of the embedding *)

(** Linear arithmetic over the rationals, for the TypeScript side. *)
Import Lqa.

(** ** Small facts about rational division *)

Lemma Qdiv_pos (a c : Q) : 0 < a -> 0 < c -> 0 < a / c.
Proof.
  intros Ha Hc. apply Qlt_shift_div_l; [exact Hc | lra].
Qed.

Lemma Qdiv_lt_1 (a c : Q) : 0 < c -> a < c -> a / c < 1.
Proof.
  intros Hc Hac. apply Qlt_shift_div_r; [exact Hc | lra].
Qed.

Lemma Qdiv_le_1 (a c : Q) : 0 < c -> a <= c -> a / c <= 1.
Proof.
  intros Hc Hac. apply Qle_shift_div_r; [exact Hc | lra].
Qed.

Lemma Qdiv_ge_1 (a c : Q) : 0 < c -> c <= a -> 1 <= a / c.
Proof.
  intros Hc Hac. apply Qle_shift_div_l; [exact Hc | lra].
Qed.

Lemma Qdiv_eq_1_inv (a c : Q) : 0 < c -> a / c == 1 -> a == c.
Proof.
  intros Hc H.
  assert (E : a == (a / c) * c) by (field; lra).
  rewrite E, H. ring.
Qed.

Lemma Qdiv_same (a : Q) : 0 < a -> a / a == 1.
Proof. intros Ha. field. lra. Qed.

Lemma Qdiv_le_compat_r (a b c : Q) : 0 < c -> a <= b -> a / c <= b / c.
Proof.
  intros Hc Hab. unfold Qdiv.
  apply Qmult_le_compat_r; [exact Hab |].
  apply Qlt_le_weak, Qinv_lt_0_compat, Hc.
Qed.

(** ** Facts about the aspect fitter *)

Lemma gt_bool_true (a b : Q) : Fitter.gt_bool a b = true <-> b < a.
Proof.
  unfold Fitter.gt_bool. rewrite negb_true_iff.
  split; intros H.
  - apply Qnot_le_lt. intros Hle.
    apply Qle_bool_iff in Hle. congruence.
  - destruct (Qle_bool a b) eqn:E; [| reflexivity].
    apply Qle_bool_iff in E. lra.
Qed.

Lemma gt_bool_false (a b : Q) : Fitter.gt_bool a b = false <-> a <= b.
Proof.
  unfold Fitter.gt_bool. rewrite negb_false_iff. apply Qle_bool_iff.
Qed.

Example fit_wide_image :
  Fitter.calculateFitParams (2 # 1) (16 # 9)
  = Fitter.mkFitParams ((16 # 9) / (2 # 1)) 1 0 0.
Proof. reflexivity. Qed.

Example fit_tall_image :
  Fitter.calculateFitParams (3 # 4) (16 # 9)
  = Fitter.mkFitParams 1 ((3 # 4) / (16 # 9)) 0 0.
Proof. reflexivity. Qed.

Lemma fit_wider (a c : Q) :
  c < a ->
  Fitter.calculateFitParams a c = Fitter.mkFitParams (c / a) 1 0 0.
Proof.
  intros H. unfold Fitter.calculateFitParams.
  apply gt_bool_true in H. rewrite H. reflexivity.
Qed.

Lemma fit_not_wider (a c : Q) :
  a <= c ->
  Fitter.calculateFitParams a c = Fitter.mkFitParams 1 (a / c) 0 0.
Proof.
  intros H. unfold Fitter.calculateFitParams.
  apply gt_bool_false in H. rewrite H. reflexivity.
Qed.

Lemma fit_scales_in_unit (a c : Q) :
  0 < a -> 0 < c ->
  (0 < Fitter.scaleX (Fitter.calculateFitParams a c) /\
   Fitter.scaleX (Fitter.calculateFitParams a c) <= 1) /\
  (0 < Fitter.scaleY (Fitter.calculateFitParams a c) /\
   Fitter.scaleY (Fitter.calculateFitParams a c) <= 1).
Proof.
  intros Ha Hc. destruct (Qlt_le_dec c a) as [H | H].
  - rewrite (fit_wider a c H). cbn [Fitter.scaleX Fitter.scaleY].
    split; split; try lra.
    + apply Qdiv_pos; assumption.
    + apply Qdiv_le_1; lra.
  - rewrite (fit_not_wider a c H). cbn [Fitter.scaleX Fitter.scaleY].
    split; split; try lra.
    + apply Qdiv_pos; assumption.
    + apply Qdiv_le_1; lra.
Qed.

(** ** Claims about the aspect fitter *)

(** C3, as stated, fails: an image whose aspect ratio equals the
    container's (a 1920x1080 picture in the default 960x540 viewport)
    takes the [else] branch and gets both scales equal to 1. *)
Lemma fit_same_aspect_both_unit :
  0 < 1920 # 1080 /\ 0 < 960 # 540 /\
  ~ Fitter.exactly_one_unit_scale
      (Fitter.calculateFitParams (1920 # 1080) (960 # 540)).
Proof.
  split; [reflexivity | split; [reflexivity |]].
  unfold Fitter.exactly_one_unit_scale. cbn.
  intros [[_ H] | [H _]]; apply H; reflexivity.
Qed.

(** C3, amended: for positive aspect ratios at least one of the two
    scales is 1.0 and the other lies in (0, 1]; exactly one of them is
    1.0 when the two aspect ratios differ, and both are 1.0 when they
    are equal. *)
Theorem fit_unit_scale (a c : Q) :
  0 < a -> 0 < c ->
  let f := Fitter.calculateFitParams a c in
  (Fitter.scaleX f == 1 \/ Fitter.scaleY f == 1) /\
  (0 < Fitter.scaleX f /\ Fitter.scaleX f <= 1) /\
  (0 < Fitter.scaleY f /\ Fitter.scaleY f <= 1) /\
  (~ a == c -> Fitter.exactly_one_unit_scale f) /\
  (a == c -> Fitter.scaleX f == 1 /\ Fitter.scaleY f == 1).
Proof.
  intros Ha Hc f.
  destruct (fit_scales_in_unit a c Ha Hc) as [HX HY].
  split; [| split; [exact HX | split; [exact HY |]]]; subst f.
  - destruct (Qlt_le_dec c a) as [H | H].
    + right. rewrite (fit_wider a c H). reflexivity.
    + left. rewrite (fit_not_wider a c H). reflexivity.
  - split.
    + intros Hne. destruct (Qlt_le_dec c a) as [H | H].
      * right. rewrite (fit_wider a c H). cbn.
        split; [| reflexivity].
        intros E. apply Qdiv_eq_1_inv in E; lra.
      * left. rewrite (fit_not_wider a c H). cbn.
        split; [reflexivity |].
        intros E. apply Qdiv_eq_1_inv in E; [| lra].
        apply Hne, E.
    + intros E. rewrite (fit_not_wider a c) by lra. cbn.
      split; [reflexivity |].
      rewrite E. apply Qdiv_same, Hc.
Qed.

Lemma fit_unit_scale_witness :
  let f := Fitter.calculateFitParams (4 # 3) (16 # 9) in
  (Fitter.scaleX f == 1 \/ Fitter.scaleY f == 1) /\
  (0 < Fitter.scaleX f /\ Fitter.scaleX f <= 1) /\
  (0 < Fitter.scaleY f /\ Fitter.scaleY f <= 1) /\
  (~ (4 # 3) == (16 # 9) -> Fitter.exactly_one_unit_scale f) /\
  ((4 # 3) == (16 # 9) -> Fitter.scaleX f == 1 /\ Fitter.scaleY f == 1).
Proof.
  apply (fit_unit_scale (4 # 3) (16 # 9)); reflexivity.
Defined.

(** C4: for positive aspect ratios [a] (image) and [c] (container), a
    wider image gets scaleY = 1 and scaleX = c/a < 1, any other image gets
    scaleX = 1 and scaleY = a/c <= 1; both scales lie in (0, 1], both
    offsets are 0, and the result is a function of the two ratios alone
    (equal ratios give equal parameters). *)
Theorem fit_params_spec (a c : Q) :
  0 < a -> 0 < c ->
  let f := Fitter.calculateFitParams a c in
  (c < a ->
     Fitter.scaleY f = 1 /\ Fitter.scaleX f = c / a /\ Fitter.scaleX f < 1) /\
  (a <= c ->
     Fitter.scaleX f = 1 /\ Fitter.scaleY f = a / c /\ Fitter.scaleY f <= 1) /\
  (0 < Fitter.scaleX f /\ Fitter.scaleX f <= 1) /\
  (0 < Fitter.scaleY f /\ Fitter.scaleY f <= 1) /\
  Fitter.offsetX f = 0 /\ Fitter.offsetY f = 0 /\
  (forall a' c', a' == a -> c' == c ->
     let f' := Fitter.calculateFitParams a' c' in
     Fitter.scaleX f' == Fitter.scaleX f /\
     Fitter.scaleY f' == Fitter.scaleY f /\
     Fitter.offsetX f' = Fitter.offsetX f /\
     Fitter.offsetY f' = Fitter.offsetY f).
Proof.
  intros Ha Hc f.
  destruct (fit_scales_in_unit a c Ha Hc) as [HX HY].
  subst f.
  split; [| split; [| split; [exact HX | split; [exact HY |]]]].
  - intros H. rewrite (fit_wider a c H). cbn.
    split; [reflexivity | split; [reflexivity |]].
    apply Qdiv_lt_1; lra.
  - intros H. rewrite (fit_not_wider a c H). cbn.
    split; [reflexivity | split; [reflexivity |]].
    apply Qdiv_le_1; lra.
  - split; [| split].
    + unfold Fitter.calculateFitParams.
      destruct (Fitter.gt_bool a c); reflexivity.
    + unfold Fitter.calculateFitParams.
      destruct (Fitter.gt_bool a c); reflexivity.
    + intros a' c' Ea Ec.
      destruct (Qlt_le_dec c a) as [H | H].
      * rewrite (fit_wider a c H), (fit_wider a' c') by lra.
        cbn. rewrite Ea, Ec.
        split; [reflexivity | split; [reflexivity | split; reflexivity]].
      * rewrite (fit_not_wider a c H),
          (fit_not_wider a' c') by lra.
        cbn. rewrite Ea, Ec.
        split; [reflexivity | split; [reflexivity | split; reflexivity]].
Qed.

Lemma fit_params_spec_witness :
  Fitter.scaleX (Fitter.calculateFitParams (2 # 1) (16 # 9)) < 1 /\
  Fitter.scaleY (Fitter.calculateFitParams (2 # 1) (16 # 9)) = 1.
Proof.
  assert (Ha : 0 < 2 # 1) by reflexivity.
  assert (Hc : 0 < 16 # 9) by reflexivity.
  destruct (fit_params_spec (2 # 1) (16 # 9) Ha Hc) as [Hw _].
  destruct Hw as [HY [_ HX]]; [reflexivity |].
  split; [exact HX | exact HY].
Defined.

Example slider1_default_cycle :
  let p := mkTiming 4000 1000 3 in
  map (observe slider1 p)
    [[16]; [16; 3000]; [16; 3000; 3016]; [16; 3000; 3016; 3516];
     [16; 3000; 3016; 3516; 4016]]
  = [Scheduler.mkTS (Scheduler.Idle 16) 0 0;
     Scheduler.mkTS (Scheduler.Idle 16) 0 0;
     Scheduler.mkTS (Scheduler.Transitioning 3016) 0 0;
     Scheduler.mkTS (Scheduler.Transitioning 3016)
       (Qmin ((3516 - 3016) / 1000) 1) 0;
     Scheduler.mkTS (Scheduler.Idle 4016) 0 1].
Proof. reflexivity. Qed.

Example slider3_default_cycle :
  let p := mkTiming 4000 1000 3 in
  observations slider3 p [] [16; 3000; 3016; 3516; 4016]
  = observations slider1 p [] [16; 3000; 3016; 3516; 4016].
Proof. reflexivity. Qed.

Example slider3_sixty_frames_per_second :
  completed slider3 (mkTiming 400 100 1) (frames 16 (50 # 3) 100) = 4%nat
  /\ Scheduler.currentIndex
       (observe slider3 (mkTiming 400 100 1) (frames 16 (50 # 3) 100)) = 0%nat.
Proof. vm_compute. split; reflexivity. Qed.

(** ** Facts about the scheduler of the specification *)

Lemma Qle_bool_false (x y : Q) : Qle_bool x y = false <-> y < x.
Proof.
  split; intros H.
  - apply Qnot_le_lt. intros Hle. apply Qle_bool_iff in Hle. congruence.
  - destruct (Qle_bool x y) eqn:E; [| reflexivity].
    apply Qle_bool_iff in E. lra.
Qed.

Lemma Qmin_progress_lt (e c : Q) :
  0 < c -> e < c -> Qmin (e / c) 1 < 1.
Proof.
  intros Hc He. apply Q.min_lt_iff. left. apply Qdiv_lt_1; assumption.
Qed.

Lemma Qmin_progress_full (e c : Q) :
  0 < c -> c <= e -> Qmin (e / c) 1 == 1.
Proof.
  intros Hc He. apply Q.min_r. apply Qdiv_ge_1; assumption.
Qed.

Lemma Qmin_progress_mono (e e' c : Q) :
  0 < c -> e <= e' -> Qmin (e / c) 1 <= Qmin (e' / c) 1.
Proof.
  intros Hc He. apply Q.min_le_compat_r.
  apply Qdiv_le_compat_r; assumption.
Qed.

(** The test [progress >= 1] of one component is the test
    [elapsed >= crossfadeMs] of the other. *)
Lemma progress_test (e c : Q) :
  0 < c -> Qle_bool 1 (Qmin (e / c) 1) = Qle_bool c e.
Proof.
  intros Hc. destruct (Qle_bool c e) eqn:E.
  - apply Qle_bool_iff in E. apply Qle_bool_iff.
    rewrite (Qmin_progress_full e c Hc E). lra.
  - apply Qle_bool_false in E. apply Qle_bool_false.
    apply Qmin_progress_lt; assumption.
Qed.

Lemma last_cons_default {A : Type} (l : list A) (x d : A) :
  last (x :: l) d = last l x.
Proof.
  revert x d. induction l as [| y l IH]; intros x d; [reflexivity |].
  change (last (x :: y :: l) d) with (last (y :: l) d).
  rewrite (IH y d). symmetry. apply IH.
Qed.

Section SchedulerFacts.

Variables (a c : Q) (N : nat).
Hypothesis c_pos : 0 < c.

Local Abbreviation tick := (Scheduler.tick a c N).
Local Abbreviation run := (Scheduler.run a c N).
Local Abbreviation trace := (Scheduler.trace a c N).
Local Abbreviation Idle := Scheduler.Idle.
Local Abbreviation Transitioning := Scheduler.Transitioning.
Local Abbreviation mkTS := Scheduler.mkTS.

Lemma run_app (l1 l2 : list Q) (s : Scheduler.TransitionState) :
  run (l1 ++ l2) s = run l2 (run l1 s).
Proof. apply fold_left_app. Qed.

Lemma run_cons (t : Q) (l : list Q) (s : Scheduler.TransitionState) :
  run (t :: l) s = run l (tick t s).
Proof. reflexivity. Qed.

Lemma trace_app (l1 l2 : list Q) (s : Scheduler.TransitionState) :
  trace (l1 ++ l2) s = trace l1 s ++ trace l2 (run l1 s).
Proof.
  revert s. induction l1 as [| t l1 IH]; intros s; [reflexivity |].
  cbn [app Scheduler.trace]. rewrite IH. reflexivity.
Qed.

Lemma completions_app (prev : Scheduler.TransitionState)
    (tr1 tr2 : list Scheduler.TransitionState) :
  Scheduler.completions_from prev (tr1 ++ tr2)
  = (Scheduler.completions_from prev tr1
     + Scheduler.completions_from (last tr1 prev) tr2)%nat.
Proof.
  revert prev. induction tr1 as [| s tr1 IH]; intros prev; [reflexivity |].
  cbn [app Scheduler.completions_from]. rewrite IH.
  rewrite (last_cons_default tr1 s prev). lia.
Qed.

Lemma last_trace (l : list Q) (s : Scheduler.TransitionState) :
  last (trace l s) s = run l s.
Proof.
  revert s. induction l as [| t l IH]; intros s; [reflexivity |].
  cbn [Scheduler.trace]. rewrite last_cons_default, run_cons. apply IH.
Qed.

Lemma idle_stays (s0 t : Q) (i : nat) :
  t - s0 < a - c ->
  tick t (mkTS (Idle s0) 0 i) = mkTS (Idle s0) 0 i.
Proof.
  intros H. cbn. unfold Scheduler.idle_tick.
  apply Qle_bool_false in H. rewrite H. reflexivity.
Qed.

Lemma idle_exit (s0 te : Q) (i : nat) :
  a - c <= te - s0 ->
  tick te (mkTS (Idle s0) 0 i) = mkTS (Transitioning te) 0 i.
Proof.
  intros H. cbn. unfold Scheduler.idle_tick.
  apply Qle_bool_iff in H. rewrite H. reflexivity.
Qed.

Lemma idle_hold (s0 : Q) (i : nat) (l : list Q) :
  Forall (fun t => t - s0 < a - c) l ->
  run l (mkTS (Idle s0) 0 i) = mkTS (Idle s0) 0 i.
Proof.
  induction 1 as [| t l Ht _ IH]; [reflexivity |].
  rewrite run_cons, idle_stays by exact Ht. exact IH.
Qed.

Lemma trans_stays (te t p0 : Q) (i : nat) :
  t - te < c ->
  tick t (mkTS (Transitioning te) p0 i)
  = mkTS (Transitioning te) (Qmin ((t - te) / c) 1) i.
Proof.
  intros H. cbn. rewrite progress_test by exact c_pos.
  apply Qle_bool_false in H. rewrite H. reflexivity.
Qed.

Lemma trans_exit (te tf p0 : Q) (i : nat) :
  c <= tf - te ->
  tick tf (mkTS (Transitioning te) p0 i)
  = mkTS (Idle tf) 0 ((i + 1) mod N).
Proof.
  intros H. cbn. rewrite progress_test by exact c_pos.
  apply Qle_bool_iff in H. rewrite H. reflexivity.
Qed.

Lemma trans_hold (te p0 : Q) (i : nat) (l : list Q) :
  Forall (fun t => t - te < c) l ->
  exists p1, run l (mkTS (Transitioning te) p0 i)
             = mkTS (Transitioning te) p1 i.
Proof.
  intros H. revert p0. induction H as [| t l Ht _ IH]; intros p0.
  - exists p0. reflexivity.
  - rewrite run_cons, trans_stays by exact Ht. apply IH.
Qed.

Lemma trans_hold_last (te p0 t : Q) (i : nat) (l : list Q) :
  Forall (fun t => t - te < c) (l ++ [t]) ->
  run (l ++ [t]) (mkTS (Transitioning te) p0 i)
  = mkTS (Transitioning te) (Qmin ((t - te) / c) 1) i.
Proof.
  intros H. apply Forall_app in H. destruct H as [Hl Ht].
  rewrite run_app. destruct (trans_hold te p0 i l Hl) as [p1 E].
  rewrite E. cbn [Scheduler.run fold_left].
  apply trans_stays. inversion Ht; assumption.
Qed.

(** The first frame starts the idle clock. *)
Lemma first_tick (t0 : Q) :
  tick t0 Scheduler.initial = tick t0 (mkTS (Idle t0) 0 0).
Proof. reflexivity. Qed.

(** The index moves on completed transitions only, by one, modulo [N]. *)
Lemma tick_index (t : Q) (s : Scheduler.TransitionState) :
  Scheduler.currentIndex (tick t s)
  = if Scheduler.completes s (tick t s)
    then ((Scheduler.currentIndex s + 1) mod N)%nat
    else Scheduler.currentIndex s.
Proof.
  destruct s as [[| s0 | te] p0 i]; cbn; unfold Scheduler.idle_tick.
  - destruct (Qle_bool _ _); reflexivity.
  - destruct (Qle_bool _ _); reflexivity.
  - destruct (Qle_bool _ _); reflexivity.
Qed.

Lemma index_counts (l : list Q) (s : Scheduler.TransitionState) :
  (Scheduler.currentIndex s < N)%nat ->
  Scheduler.currentIndex (run l s)
  = ((Scheduler.currentIndex s
      + Scheduler.completions_from s (trace l s)) mod N)%nat.
Proof.
  revert s. induction l as [| t l IH]; intros s Hs.
  - cbn. rewrite Nat.add_0_r. symmetry. apply Nat.mod_small, Hs.
  - rewrite run_cons. cbn [Scheduler.trace Scheduler.completions_from].
    assert (HN : N <> 0%nat) by lia.
    pose proof (tick_index t s) as Hi.
    destruct (Scheduler.completes s (tick t s)).
    + rewrite IH by (rewrite Hi; apply Nat.mod_upper_bound, HN).
      rewrite Hi. rewrite Nat.Div0.add_mod_idemp_l.
      f_equal. lia.
    + rewrite IH by (rewrite Hi; exact Hs).
      rewrite Hi. reflexivity.
Qed.

End SchedulerFacts.

(** ** Frames at a fixed period: the machine never stalls *)

Lemma archimedean_nat (x dt : Q) :
  0 < dt -> exists K : nat, x <= inject_Z (Z.of_nat K) * dt.
Proof.
  intros Hdt. exists (Z.to_nat (Qceiling (x / dt))).
  assert (Hx : x == (x / dt) * dt) by (field; lra).
  rewrite Hx at 1.
  apply Qmult_le_compat_r; [| lra].
  apply Qle_trans with (inject_Z (Qceiling (x / dt))).
  - apply Qle_ceiling.
  - rewrite <- Zle_Qle. lia.
Qed.

Lemma inject_Z_succ_nat (K : nat) :
  inject_Z (Z.of_nat (S K)) == inject_Z (Z.of_nat K) + 1.
Proof.
  rewrite Nat2Z.inj_succ. unfold Z.succ. rewrite inject_Z_plus. reflexivity.
Qed.

Lemma frames_app (t dt : Q) (n m : nat) :
  frames t dt (n + m) = frames t dt n ++ frames (frame_time t dt n) dt m.
Proof.
  revert t. induction n as [| n IH]; intros t; [reflexivity |].
  cbn [Nat.add frames frame_time app]. rewrite IH. reflexivity.
Qed.

Lemma frames_positive (t dt : Q) (n : nat) :
  0 < t -> 0 < dt -> Forall (fun x => 0 < x) (frames t dt n).
Proof.
  revert t. induction n as [| n IH]; intros t Ht Hdt; constructor.
  - exact Ht.
  - apply IH; lra.
Qed.

Section Liveness.

Variables (a c : Q) (N : nat) (dt : Q).
Hypothesis c_pos : 0 < c.
Hypothesis dt_pos : 0 < dt.

Local Abbreviation tick := (Scheduler.tick a c N).
Local Abbreviation run := (Scheduler.run a c N).
Local Abbreviation trace := (Scheduler.trace a c N).
Local Abbreviation Idle := Scheduler.Idle.
Local Abbreviation Transitioning := Scheduler.Transitioning.
Local Abbreviation mkTS := Scheduler.mkTS.
Local Abbreviation count := Scheduler.completions_from.

Lemma idle_eventually (K : nat) :
  forall (t s0 p0 : Q) (i : nat),
    s0 + (a - c) <= t + inject_Z (Z.of_nat K) * dt ->
    exists (m : nat) (t' : Q),
      run (frames t dt (S m)) (mkTS (Idle s0) p0 i)
      = mkTS (Transitioning t') 0 i /\
      count (mkTS (Idle s0) p0 i)
        (trace (frames t dt (S m)) (mkTS (Idle s0) p0 i)) = 0%nat.
Proof.
  induction K as [| K IH]; intros t s0 p0 i HK.
  - exists 0%nat, t. cbn. unfold Scheduler.idle_tick.
    assert (H : a - c <= t - s0) by (change (inject_Z (Z.of_nat 0)) with 0 in HK; lra).
    apply Qle_bool_iff in H. rewrite H. split; reflexivity.
  - destruct (Qlt_le_dec (t - s0) (a - c)) as [H | H].
    + rewrite inject_Z_succ_nat in HK.
      destruct (IH (t + dt) s0 0 i) as [m [t' [Hrun Hcount]]]; [lra |].
      exists (S m), t'.
      assert (E : tick t (mkTS (Idle s0) p0 i) = mkTS (Idle s0) 0 i).
      { cbn. unfold Scheduler.idle_tick.
        apply Qle_bool_false in H. rewrite H. reflexivity. }
      change (frames t dt (S (S m))) with (t :: frames (t + dt) dt (S m)).
      rewrite run_cons. cbn [Scheduler.trace Scheduler.completions_from].
      rewrite E. split; [exact Hrun |].
      cbn [Scheduler.completes Scheduler.phase_of].
      exact Hcount.
    + exists 0%nat, t. cbn. unfold Scheduler.idle_tick.
      apply Qle_bool_iff in H. rewrite H. split; reflexivity.
Qed.

Lemma trans_eventually (K : nat) :
  forall (t te p0 : Q) (i : nat),
    te + c <= t + inject_Z (Z.of_nat K) * dt ->
    exists (m : nat) (t' : Q),
      run (frames t dt (S m)) (mkTS (Transitioning te) p0 i)
      = mkTS (Idle t') 0 ((i + 1) mod N) /\
      count (mkTS (Transitioning te) p0 i)
        (trace (frames t dt (S m)) (mkTS (Transitioning te) p0 i)) = 1%nat.
Proof.
  induction K as [| K IH]; intros t te p0 i HK.
  - exists 0%nat, t.
    assert (H : c <= t - te) by (change (inject_Z (Z.of_nat 0)) with 0 in HK; lra).
    cbn [frames Scheduler.trace Scheduler.completions_from].
    rewrite run_cons. rewrite (trans_exit a c N c_pos te t p0 i H).
    split; reflexivity.
  - destruct (Qlt_le_dec (t - te) c) as [H | H].
    + rewrite inject_Z_succ_nat in HK.
      destruct (IH (t + dt) te (Qmin ((t - te) / c) 1) i)
        as [m [t' [Hrun Hcount]]]; [lra |].
      exists (S m), t'.
      change (frames t dt (S (S m))) with (t :: frames (t + dt) dt (S m)).
      rewrite run_cons. cbn [Scheduler.trace Scheduler.completions_from].
      rewrite (trans_stays a c N c_pos te t p0 i H).
      split; [exact Hrun |].
      cbn [Scheduler.completes Scheduler.phase_of].
      exact Hcount.
    + exists 0%nat, t.
      cbn [frames Scheduler.trace Scheduler.completions_from].
      rewrite run_cons. rewrite (trans_exit a c N c_pos te t p0 i H).
      split; reflexivity.
Qed.

(** From any state, some number of frames completes exactly one
    transition. *)
Lemma one_more_completion (t : Q) (s : Scheduler.TransitionState) :
  exists n : nat, count s (trace (frames t dt n) s) = 1%nat.
Proof.
  assert (FromIdle : forall t s0 p0 i,
    exists n, count (mkTS (Idle s0) p0 i)
                (trace (frames t dt n) (mkTS (Idle s0) p0 i)) = 1%nat).
  { intros t1 s0 p0 i.
    destruct (archimedean_nat (s0 + (a - c) - t1) dt dt_pos) as [K HK].
    destruct (idle_eventually K t1 s0 p0 i) as [m [t' [Hrun Hcount]]];
      [lra |].
    destruct (archimedean_nat (t' + c - frame_time t1 dt (S m)) dt dt_pos)
      as [K' HK'].
    destruct (trans_eventually K' (frame_time t1 dt (S m)) t' 0 i)
      as [m' [t'' [_ Hcount']]]; [lra |].
    exists (S m + S m')%nat.
    rewrite frames_app, (trace_app a c N), completions_app.
    rewrite (last_trace a c N), Hrun, Hcount, Hcount'. reflexivity. }
  destruct s as [[| s0 | te] p0 i].
  - destruct (FromIdle t t p0 i) as [n Hn].
    exists n. destruct n as [| n]; [discriminate Hn |]. exact Hn.
  - apply FromIdle.
  - destruct (archimedean_nat (te + c - t) dt dt_pos) as [K HK].
    destruct (trans_eventually K t te p0 i) as [m [t' [_ Hcount]]]; [lra |].
    exists (S m). exact Hcount.
Qed.

(** Any number of transitions gets completed. *)
Lemma completes_any_number (k : nat) :
  forall (t : Q) (s : Scheduler.TransitionState),
    exists n : nat, count s (trace (frames t dt n) s) = k.
Proof.
  induction k as [| k IH]; intros t s.
  - exists 0%nat. reflexivity.
  - destruct (one_more_completion t s) as [n1 H1].
    destruct (IH (frame_time t dt n1) (run (frames t dt n1) s)) as [n2 H2].
    exists (n1 + n2)%nat.
    rewrite frames_app, (trace_app a c N), completions_app.
    rewrite (last_trace a c N), H1, H2. reflexivity.
Qed.

End Liveness.

(** ** The components implement the scheduler of the specification *)

Lemma falsy_positive (t : Q) : 0 < t -> falsy t = false.
Proof.
  intros Ht. unfold falsy. destruct (Qeq_bool t 0) eqn:E; [| reflexivity].
  apply Qeq_bool_eq in E. lra.
Qed.

(** Closes the side conditions left once every test has been decided. *)
Ltac close_refinement :=
  repeat match goal with
         | |- _ /\ _ => split
         | |- _ -> _ => intro
         end;
  try reflexivity; try discriminate; try assumption; try congruence.

Lemma slider1_step_refines (p : timing) (t : Q) (st : Slider1.state) :
  0 < crossfadeMs p -> 0 < t -> Slider1.wf st ->
  Slider1.wf (Slider1.step p t st) /\
  Slider1.view (Slider1.step p t st)
  = Scheduler.tick (autoPlayMs p) (crossfadeMs p) (imagesLength p) t
      (Slider1.view st).
Proof.
  intros Hc Ht [Hstart Hprog].
  pose proof (falsy_positive t Ht) as Hft.
  destruct st as [s tr u i]. cbn in Hstart, Hprog.
  unfold Slider1.step, Slider1.view, Slider1.wf, Scheduler.tick,
    Scheduler.idle_tick.
  cbn [Slider1.start Slider1.isTransitioning Slider1.uProgress
       Slider1.index Scheduler.phase_of Scheduler.currentIndex].
  destruct tr; cbn [negb].
  - rewrite (Hstart eq_refl).
    rewrite (progress_test (t - s) (crossfadeMs p) Hc).
    destruct (Qle_bool (crossfadeMs p) (t - s)); cbn;
      rewrite ?Hft; close_refinement.
    apply Hstart. reflexivity.
  - rewrite (Hprog eq_refl).
    destruct (falsy s) eqn:Hfs;
      destruct (Qle_bool (autoPlayMs p - crossfadeMs p) _); cbn;
      rewrite ?Hft, ?Hfs; close_refinement.
Qed.

Lemma slider3_frame_refines (p : timing) (t : Q) (st : Slider3.state) :
  0 < crossfadeMs p -> 0 < t -> Slider3.wf st ->
  Slider3.wf (Slider3.frame p t st) /\
  Slider3.view (Slider3.frame p t st)
  = Scheduler.tick (autoPlayMs p) (crossfadeMs p) (imagesLength p) t
      (Slider3.view st).
Proof.
  intros Hc Ht Hwf.
  pose proof (falsy_positive t Ht) as Hft.
  destruct st as [s tr r u i].
  unfold Slider3.wf in Hwf. cbn in Hwf.
  unfold Slider3.frame, Slider3.view, Slider3.wf, Scheduler.tick,
    Scheduler.idle_tick.
  cbn [Slider3.raf].
  destruct r as [[| ts] |]; [| | contradiction].
  - destruct Hwf as [Htr Hu]. subst tr u.
    unfold Slider3.step.
    cbn [Slider3.start Slider3.isTransitioning Slider3.uProgress
         Slider3.index Slider3.raf Scheduler.phase_of
         Scheduler.currentIndex negb andb].
    destruct (falsy s) eqn:Hfs;
      destruct (Qle_bool (autoPlayMs p - crossfadeMs p) _); cbn;
      rewrite ?Hft, ?Hfs; close_refinement.
  - subst tr. unfold Slider3.transitionStep.
    cbn [Slider3.start Slider3.isTransitioning Slider3.uProgress
         Slider3.index Slider3.raf Scheduler.phase_of
         Scheduler.currentIndex].
    destruct (Qle_bool 1 _); cbn; rewrite ?Hft; close_refinement.
Qed.

Section Refinement.

Variables (M : component) (p : timing) (wf : cstate M -> Prop).

Local Abbreviation a := (autoPlayMs p).
Local Abbreviation c := (crossfadeMs p).
Local Abbreviation N := (imagesLength p).

Hypothesis c_pos : 0 < c.
Hypothesis wf_init : wf (cinit M).
Hypothesis view_init : cview M (cinit M) = Scheduler.initial.
Hypothesis frame_refines :
  forall (t : Q) (st : cstate M),
    0 < t -> wf st ->
    wf (cframe M p t st) /\
    cview M (cframe M p t st) = Scheduler.tick a c N t (cview M st).

Lemma fold_refines (ticks : list Q) :
  forall st : cstate M,
    wf st -> Forall (fun t => 0 < t) ticks ->
    wf (fold_left (fun st t => cframe M p t st) ticks st) /\
    cview M (fold_left (fun st t => cframe M p t st) ticks st)
    = Scheduler.run a c N ticks (cview M st).
Proof.
  induction ticks as [| t ticks IH]; intros st Hwf Hpos.
  - split; [exact Hwf | reflexivity].
  - inversion Hpos as [| ? ? Ht Hrest]; subst.
    destruct (frame_refines t st Ht Hwf) as [Hwf' Hview].
    cbn [fold_left]. destruct (IH _ Hwf' Hrest) as [Hwf'' Hview''].
    split; [exact Hwf'' |].
    rewrite Hview'', Hview. reflexivity.
Qed.

Lemma observe_run (ticks : list Q) :
  Forall (fun t => 0 < t) ticks ->
  observe M p ticks = Scheduler.run a c N ticks Scheduler.initial.
Proof.
  intros Hpos. unfold observe, frames_run.
  destruct (fold_refines ticks (cinit M) wf_init Hpos) as [_ H].
  rewrite H, view_init. reflexivity.
Qed.

Lemma observations_trace (ticks : list Q) :
  forall pre : list Q,
    Forall (fun t => 0 < t) (pre ++ ticks) ->
    observations M p pre ticks
    = Scheduler.trace a c N ticks (Scheduler.run a c N pre Scheduler.initial).
Proof.
  induction ticks as [| t ticks IH]; intros pre Hpos; [reflexivity |].
  cbn [observations Scheduler.trace].
  assert (Hpos' : Forall (fun t => 0 < t) ((pre ++ [t]) ++ ticks)).
  { rewrite <- app_assoc. exact Hpos. }
  rewrite (IH (pre ++ [t]) Hpos').
  rewrite observe_run.
  - rewrite (run_app a c N). reflexivity.
  - apply Forall_app in Hpos'. apply Hpos'.
Qed.

Lemma completed_count (ticks : list Q) :
  Forall (fun t => 0 < t) ticks ->
  completed M p ticks
  = Scheduler.completions_from Scheduler.initial
      (Scheduler.trace a c N ticks Scheduler.initial).
Proof.
  intros Hpos. unfold completed.
  rewrite view_init, (observations_trace ticks []) by exact Hpos.
  reflexivity.
Qed.

(** The first frame behaves as an idle frame whose clock starts there. *)
Lemma first_frame (t0 : Q) :
  0 < t0 ->
  (c < a -> observe M p [t0] = Scheduler.mkTS (Scheduler.Idle t0) 0 0) /\
  (a <= c ->
   observe M p [t0] = Scheduler.mkTS (Scheduler.Transitioning t0) 0 0).
Proof.
  intros Ht0.
  rewrite observe_run by (constructor; [exact Ht0 | constructor]).
  cbn. unfold Scheduler.idle_tick. split; intros H.
  - assert (H' : t0 - t0 < a - c) by lra.
    apply Qle_bool_false in H'. rewrite H'. reflexivity.
  - assert (H' : a - c <= t0 - t0) by lra.
    apply Qle_bool_iff in H'. rewrite H'. reflexivity.
Qed.

(** One cycle, starting in an idle phase entered at [s]. *)
Lemma full_cycle (pre idle trans : list Q) (s te tf : Q) (i : nat) :
  Forall (fun t => 0 < t) (pre ++ idle ++ te :: trans ++ [tf]) ->
  observe M p pre = Scheduler.mkTS (Scheduler.Idle s) 0 i ->
  Forall (fun t => t - s < a - c) idle ->
  a - c <= te - s ->
  Forall (fun t => t - te < c) trans ->
  c <= tf - te ->
  (forall idle1 idle2, idle = idle1 ++ idle2 ->
     observe M p (pre ++ idle1) = Scheduler.mkTS (Scheduler.Idle s) 0 i) /\
  observe M p (pre ++ idle ++ [te])
  = Scheduler.mkTS (Scheduler.Transitioning te) 0 i /\
  (forall tr1 t tr2, trans = tr1 ++ t :: tr2 ->
     observe M p (pre ++ idle ++ te :: tr1 ++ [t])
     = Scheduler.mkTS (Scheduler.Transitioning te)
         (Qmin ((t - te) / c) 1) i /\
     Qmin ((t - te) / c) 1 < 1) /\
  observe M p (pre ++ idle ++ te :: trans ++ [tf])
  = Scheduler.mkTS (Scheduler.Idle tf) 0 ((i + 1) mod N).
Proof.
  intros Hpos Hpre Hidle Hte Htrans Htf.
  assert (Ppre : Forall (fun t => 0 < t) pre).
  { apply Forall_app in Hpos. apply Hpos. }
  assert (Pidle : Forall (fun t => 0 < t) idle).
  { apply Forall_app in Hpos. destruct Hpos as [_ H].
    apply Forall_app in H. apply H. }
  assert (Pte : 0 < te).
  { apply Forall_app in Hpos. destruct Hpos as [_ H].
    apply Forall_app in H. destruct H as [_ H].
    inversion H; assumption. }
  assert (Ptrans : Forall (fun t => 0 < t) trans).
  { apply Forall_app in Hpos. destruct Hpos as [_ H].
    apply Forall_app in H. destruct H as [_ H].
    inversion H as [| ? ? _ H']; subst.
    apply Forall_app in H'. apply H'. }
  rewrite (observe_run pre Ppre) in Hpre.
  assert (Eidle : forall idle1 idle2, idle = idle1 ++ idle2 ->
            Scheduler.run a c N (pre ++ idle1) Scheduler.initial
            = Scheduler.mkTS (Scheduler.Idle s) 0 i).
  { intros idle1 idle2 E. subst idle.
    apply Forall_app in Hidle.
    rewrite (run_app a c N), Hpre. apply idle_hold, Hidle. }
  assert (Ete : Scheduler.run a c N (pre ++ idle ++ [te]) Scheduler.initial
                = Scheduler.mkTS (Scheduler.Transitioning te) 0 i).
  { rewrite app_assoc, (run_app a c N).
    rewrite (Eidle idle [] (eq_sym (app_nil_r idle))).
    apply idle_exit, Hte. }
  split; [| split; [| split]].
  - intros idle1 idle2 E. rewrite observe_run.
    + exact (Eidle idle1 idle2 E).
    + subst idle. apply Forall_app in Pidle.
      apply Forall_app. split; [exact Ppre | apply Pidle].
  - rewrite observe_run; [exact Ete |].
    repeat (apply Forall_app; split); try assumption.
    constructor; [exact Pte | constructor].
  - intros tr1 t tr2 E. subst trans.
    assert (Ht : t - te < c).
    { apply Forall_app in Htrans. destruct Htrans as [_ H].
      inversion H; assumption. }
    split; [| apply Qmin_progress_lt; [exact c_pos | exact Ht]].
    rewrite observe_run.
    + replace (pre ++ idle ++ te :: tr1 ++ [t])
        with ((pre ++ idle ++ [te]) ++ (tr1 ++ [t]))
        by (rewrite <- !app_assoc; reflexivity).
      rewrite (run_app a c N), Ete.
      apply trans_hold_last; [exact c_pos |].
      apply Forall_app in Htrans. destruct Htrans as [H1 H2].
      apply Forall_app. split; [exact H1 |].
      constructor; [exact Ht | constructor].
    + apply Forall_app in Ptrans. destruct Ptrans as [H1 H2].
      repeat (apply Forall_app; split); try assumption.
      constructor; [exact Pte |].
      apply Forall_app. split; [exact H1 |].
      constructor; [inversion H2; assumption | constructor].
  - rewrite (observe_run _ Hpos).
    replace (pre ++ idle ++ te :: trans ++ [tf])
      with ((pre ++ idle ++ [te]) ++ trans ++ [tf])
      by (rewrite <- !app_assoc; reflexivity).
    rewrite (run_app a c N), Ete, (run_app a c N).
    destruct (trans_hold a c N c_pos te 0 i trans Htrans) as [p1 E].
    rewrite E. cbn [Scheduler.run fold_left].
    apply trans_exit; [exact c_pos | exact Htf].
Qed.

(** The image index is the number of completed transitions modulo the
    number of images. *)
Lemma index_is_count (ticks : list Q) :
  (1 <= N)%nat ->
  Forall (fun t => 0 < t) ticks ->
  Scheduler.currentIndex (observe M p ticks)
  = (completed M p ticks mod N)%nat.
Proof.
  intros HN Hpos.
  rewrite (observe_run ticks Hpos), (completed_count ticks Hpos).
  rewrite (index_counts a c N ticks Scheduler.initial) by (cbn; lia).
  reflexivity.
Qed.

(** At a fixed frame period every number of transitions gets completed. *)
Lemma never_stalls (t0 dt : Q) (k : nat) :
  0 < t0 -> 0 < dt ->
  exists n : nat, completed M p (frames t0 dt n) = k.
Proof.
  intros Ht0 Hdt.
  destruct (completes_any_number a c N dt c_pos Hdt k t0 Scheduler.initial)
    as [n Hn].
  exists n. rewrite completed_count by (apply frames_positive; assumption).
  exact Hn.
Qed.

End Refinement.

(** Both components refine the scheduler, each with its own invariant. *)
Lemma implements_scheduler (M : component) (p : timing) :
  M = slider1 \/ M = slider3 ->
  0 < crossfadeMs p ->
  exists wf : cstate M -> Prop,
    wf (cinit M) /\
    cview M (cinit M) = Scheduler.initial /\
    (forall (t : Q) (st : cstate M),
       0 < t -> wf st ->
       wf (cframe M p t st) /\
       cview M (cframe M p t st)
       = Scheduler.tick (autoPlayMs p) (crossfadeMs p) (imagesLength p) t
           (cview M st)).
Proof.
  intros [E | E] Hc; subst M.
  - exists Slider1.wf. split; [| split].
    + split; intros H; [discriminate H | reflexivity].
    + reflexivity.
    + intros t st Ht Hwf. apply slider1_step_refines; assumption.
  - exists Slider3.wf. split; [| split].
    + split; reflexivity.
    + reflexivity.
    + intros t st Ht Hwf. apply slider3_frame_refines; assumption.
Qed.

(** ** Claims about the transition scheduler *)

(** C1: with 0 < crossfadeMs <= autoPlayMs, in [ThreeImageSlider] and in
    [ThreeImageSlider3] alike, the first frame starts an idle phase;
    an idle phase entered at [s] shows progress 0 on every frame earlier
    than [s + autoPlayMs - crossfadeMs] and the first frame [te] at or
    after that enters the transition; then every frame [t] earlier than
    [te + crossfadeMs] shows progress min((t - te) / crossfadeMs, 1),
    below 1 and non-decreasing in [t]; on the first frame [tf] at or
    after [te + crossfadeMs] that value is 1, progress is back to 0, the
    index has advanced once and a new idle phase has been entered at
    [tf].  At a fixed frame period every number of transitions gets
    completed: the machine loops for ever. *)
Theorem scheduler_cycle (M : component) (a c : Q) (N : nat) :
  M = slider1 \/ M = slider3 ->
  0 < c -> c <= a ->
  let p := mkTiming a c N in
  (forall t0 : Q, 0 < t0 ->
     (c < a -> observe M p [t0] = Scheduler.mkTS (Scheduler.Idle t0) 0 0) /\
     (a <= c ->
      observe M p [t0] = Scheduler.mkTS (Scheduler.Transitioning t0) 0 0)) /\
  (forall (pre idle trans : list Q) (s te tf : Q) (i : nat),
     Forall (fun t => 0 < t) (pre ++ idle ++ te :: trans ++ [tf]) ->
     observe M p pre = Scheduler.mkTS (Scheduler.Idle s) 0 i ->
     Forall (fun t => t - s < a - c) idle ->
     a - c <= te - s ->
     Forall (fun t => t - te < c) trans ->
     c <= tf - te ->
     (forall idle1 idle2, idle = idle1 ++ idle2 ->
        observe M p (pre ++ idle1)
        = Scheduler.mkTS (Scheduler.Idle s) 0 i) /\
     observe M p (pre ++ idle ++ [te])
     = Scheduler.mkTS (Scheduler.Transitioning te) 0 i /\
     (forall tr1 t tr2, trans = tr1 ++ t :: tr2 ->
        observe M p (pre ++ idle ++ te :: tr1 ++ [t])
        = Scheduler.mkTS (Scheduler.Transitioning te)
            (Qmin ((t - te) / c) 1) i /\
        Qmin ((t - te) / c) 1 < 1) /\
     (forall tr1 t tr2 t' tr3,
        trans = tr1 ++ t :: tr2 ++ t' :: tr3 -> t <= t' ->
        Scheduler.progress (observe M p (pre ++ idle ++ te :: tr1 ++ [t]))
        <= Scheduler.progress
             (observe M p (pre ++ idle ++ te :: tr1 ++ t :: tr2 ++ [t']))) /\
     Qmin ((tf - te) / c) 1 == 1 /\
     observe M p (pre ++ idle ++ te :: trans ++ [tf])
     = Scheduler.mkTS (Scheduler.Idle tf) 0 ((i + 1) mod N)) /\
  (forall t0 dt : Q, 0 < t0 -> 0 < dt ->
     forall k : nat, exists n : nat, completed M p (frames t0 dt n) = k).
Proof.
  intros HM Hc Hca p.
  destruct (implements_scheduler M p HM Hc) as [wf [Hinit [Hview Hstep]]].
  split; [| split].
  - intros t0 Ht0.
    apply (first_frame M p wf); assumption.
  - intros pre idle trans s te tf i Hpos Hpre Hidle Hte Htrans Htf.
    assert (Hfull := full_cycle M p wf Hc Hinit Hview Hstep
                       pre idle trans s te tf i
                       Hpos Hpre Hidle Hte Htrans Htf).
    destruct Hfull as [H1 [H2 [H3 H4]]].
    split; [exact H1 | split; [exact H2 | split; [exact H3 |]]].
    split; [| split; [| exact H4]].
    + intros tr1 t tr2 t' tr3 E Hle.
      destruct (H3 tr1 t (tr2 ++ t' :: tr3) E) as [E1 _].
      destruct (H3 (tr1 ++ t :: tr2) t' tr3) as [E2 _].
      { rewrite E, <- app_assoc. reflexivity. }
      rewrite <- app_assoc in E2. cbn [app] in E2.
      rewrite E1, E2. cbn [Scheduler.progress].
      apply Qmin_progress_mono; [exact Hc | lra].
    + apply Qmin_progress_full; [exact Hc | exact Htf].
  - intros t0 dt Ht0 Hdt k.
    apply (never_stalls M p wf); assumption.
Qed.

Lemma scheduler_cycle_witness :
  observe slider1 (mkTiming 4000 1000 3)
    ([16] ++ [1000; 3000] ++ 3016 :: [3516; 4000] ++ [4016])
  = Scheduler.mkTS (Scheduler.Idle 4016) 0 ((0 + 1) mod 3).
Proof.
  assert (Hc : 0 < 1000) by reflexivity.
  assert (Hca : 1000 <= 4000) by (intro H; discriminate H).
  destruct (scheduler_cycle slider1 4000 1000 3 (or_introl eq_refl) Hc Hca)
    as [_ [Hcycle _]].
  apply (Hcycle [16] [1000; 3000] [3516; 4000] 16 3016 4016 0%nat).
  - repeat constructor.
  - reflexivity.
  - repeat constructor.
  - intro H; discriminate H.
  - repeat constructor.
  - intro H; discriminate H.
Defined.

(** C2: with at least one image, in both components the image index
    after any frames is the number of transitions completed so far
    modulo the number of images; with a single image it stays 0; and at
    a fixed frame period every number [k] of transitions gets completed,
    whatever the number of images, leaving the index at [k mod N]. *)
Theorem index_advancement (M : component) (a c : Q) (N : nat) :
  M = slider1 \/ M = slider3 ->
  0 < c -> (1 <= N)%nat ->
  let p := mkTiming a c N in
  (forall ticks : list Q,
     Forall (fun t => 0 < t) ticks ->
     Scheduler.currentIndex (observe M p ticks)
     = (completed M p ticks mod N)%nat) /\
  (N = 1%nat ->
   forall ticks : list Q,
     Forall (fun t => 0 < t) ticks ->
     Scheduler.currentIndex (observe M p ticks) = 0%nat) /\
  (forall t0 dt : Q, 0 < t0 -> 0 < dt ->
     forall k : nat, exists n : nat,
       completed M p (frames t0 dt n) = k /\
       Scheduler.currentIndex (observe M p (frames t0 dt n))
       = (k mod N)%nat).
Proof.
  intros HM Hc HN p.
  destruct (implements_scheduler M p HM Hc) as [wf [Hinit [Hview Hstep]]].
  assert (Hidx : forall ticks : list Q,
            Forall (fun t => 0 < t) ticks ->
            Scheduler.currentIndex (observe M p ticks)
            = (completed M p ticks mod N)%nat).
  { intros ticks Hpos.
    apply (index_is_count M p wf); assumption. }
  split; [exact Hidx | split].
  - intros E ticks Hpos. rewrite (Hidx ticks Hpos), E.
    apply Nat.mod_1_r.
  - intros t0 dt Ht0 Hdt k.
    assert (Hlive : exists n : nat, completed M p (frames t0 dt n) = k).
    { apply (never_stalls M p wf); assumption. }
    destruct Hlive as [n Hn].
    exists n. split; [exact Hn |].
    rewrite Hidx by (apply frames_positive; assumption).
    rewrite Hn. reflexivity.
Qed.

Lemma index_advancement_witness :
  Scheduler.currentIndex
    (observe slider3 (mkTiming 400 100 1) (frames 16 (50 # 3) 100)) = 0%nat.
Proof.
  assert (Hc : 0 < 100) by reflexivity.
  assert (HN : (1 <= 1)%nat) by apply le_n.
  destruct (index_advancement slider3 400 100 1 (or_intror eq_refl) Hc HN)
    as [_ [Hone _]].
  apply (Hone eq_refl).
  apply frames_positive; reflexivity.
Defined.

(** ** Facts about settling requests *)

Lemma Forall_remove_nth {A : Type} (P : A -> Prop) (l : list A) :
  Forall P l -> forall k : nat, Forall P (remove_nth k l).
Proof.
  induction 1 as [| x l Hx Hl IH]; intros k.
  - destruct k; constructor.
  - destruct k as [| k].
    + exact Hl.
    + unfold remove_nth. cbn [firstn skipn app].
      constructor; [exact Hx | apply IH].
Qed.

Section Settling.

Context {U : Type}.
Variable continue : request -> U -> U * list request.
Variables (Q_ : U -> Prop) (R_ : request -> Prop).

Hypothesis continue_preserves :
  forall (r : request) (u : U),
    R_ r -> Q_ u ->
    Q_ (fst (continue r u)) /\ Forall R_ (snd (continue r u)).

Lemma settle_nth_preserves (k : nat) (st : U * list request) :
  Q_ (fst st) -> Forall R_ (snd st) ->
  Q_ (fst (settle_nth continue k st)) /\
  Forall R_ (snd (settle_nth continue k st)).
Proof.
  intros HQ HR. unfold settle_nth.
  destruct (nth_error (snd st) k) as [r |] eqn:E; [| split; assumption].
  assert (Hr : R_ r).
  { apply nth_error_In in E.
    exact (proj1 (Forall_forall R_ (snd st)) HR r E). }
  destruct (continue_preserves r (fst st) Hr HQ) as [HQ' HR'].
  destruct (continue r (fst st)) as [u issued]. cbn [fst snd] in *.
  split; [exact HQ' |].
  apply Forall_app. split; [apply Forall_remove_nth, HR | exact HR'].
Qed.

Lemma settle_nth_here (k : nat) (r : request) (u : U)
    (reqs : list request) :
  nth_error reqs k = Some r ->
  settle_nth continue k (u, reqs)
  = (fst (continue r u), remove_nth k reqs ++ snd (continue r u)).
Proof.
  intros E. unfold settle_nth. cbn [fst snd]. rewrite E.
  destruct (continue r u). reflexivity.
Qed.

Lemma settle_all_preserves (ks : list nat) :
  forall st : U * list request,
    Q_ (fst st) -> Forall R_ (snd st) ->
    Q_ (fst (settle_all continue ks st)) /\
    Forall R_ (snd (settle_all continue ks st)).
Proof.
  induction ks as [| k ks IH]; intros st HQ HR; [split; assumption |].
  cbn [settle_all fold_left].
  destruct (settle_nth_preserves k st HQ HR) as [HQ' HR'].
  exact (IH _ HQ' HR').
Qed.

End Settling.

Lemma textureLoad_error (net : network) (url : string) :
  net url = LoadError -> textureLoad net url = None.
Proof. intros H. unfold textureLoad. rewrite H. reflexivity. Qed.

Lemma textureLoad_some (net : network) (url : string) (tx : texture) :
  textureLoad net url = Some tx -> net url <> LoadError.
Proof.
  unfold textureLoad. destruct (net url); [discriminate | discriminate].
Qed.

Lemma square_offsets (c : Q) :
  Fitter.offsetX (Fitter.calculateFitParams 1 c) = 0 /\
  Fitter.offsetY (Fitter.calculateFitParams 1 c) = 0.
Proof.
  unfold Fitter.calculateFitParams.
  destruct (Fitter.gt_bool 1 c); split; reflexivity.
Qed.

(** ** Claims about image loading *)

(** C8: when the load of an image URL fails, the aspect-ratio promise
    resolves with 1.0; the fit parameters written for that slot, current
    or next, are those of a square image with zero offsets; and however
    the requests of the load cycle settle afterwards, the texture
    uniform of that slot keeps the value it had, so that an unset slot
    stays unset. *)
Theorem failed_load_is_square (net : network) (width height : Q)
    (current next : string) (u : Loader.uniforms) (ks : list nat) :
  let st :=
    settle_all (Loader.continue net width height) ks
      (Loader.afterAspectRatios net width height current next u) in
  let square := Fitter.calculateFitParams 1 (width / height) in
  (net current = LoadError ->
     getImageAspectRatio net current = 1 /\
     Loader.uImageAspectRatio1 (fst st) = 1 /\
     Loader.uImageScale1 (fst st)
     = (Fitter.scaleX square, Fitter.scaleY square) /\
     Loader.uImageOffset1 (fst st) = (0, 0) /\
     Loader.uTex1 (fst st) = Loader.uTex1 u) /\
  (net next = LoadError ->
     getImageAspectRatio net next = 1 /\
     Loader.uImageAspectRatio2 (fst st) = 1 /\
     Loader.uImageScale2 (fst st)
     = (Fitter.scaleX square, Fitter.scaleY square) /\
     Loader.uImageOffset2 (fst st) = (0, 0) /\
     Loader.uTex2 (fst st) = Loader.uTex2 u).
Proof.
  intros st square.
  set (u1 := fst (Loader.afterAspectRatios net width height current next u)).
  set (Q_ := fun u' : Loader.uniforms =>
    (Loader.uImageAspectRatio1 u' = Loader.uImageAspectRatio1 u1 /\
     Loader.uImageAspectRatio2 u' = Loader.uImageAspectRatio2 u1 /\
     Loader.uImageScale1 u' = Loader.uImageScale1 u1 /\
     Loader.uImageScale2 u' = Loader.uImageScale2 u1 /\
     Loader.uImageOffset1 u' = Loader.uImageOffset1 u1 /\
     Loader.uImageOffset2 u' = Loader.uImageOffset2 u1) /\
    (net current = LoadError -> Loader.uTex1 u' = Loader.uTex1 u) /\
    (net next = LoadError -> Loader.uTex2 u' = Loader.uTex2 u)).
  set (R_ := fun r : request => r = Texture1 current next \/ r = Texture2 next).
  assert (Hinv : Q_ (fst st) /\ Forall R_ (snd st)).
  { apply settle_all_preserves.
    - intros r u' Hr [Hfit [H1 H2]].
      destruct Hr as [Hr | Hr]; subst r; cbn [Loader.continue].
      + unfold Loader.afterTexture1.
        destruct (textureLoad net current) as [tx |] eqn:E; cbn [fst snd].
        * split; [| constructor; [right; reflexivity | constructor]].
          split; [exact Hfit | split; [| exact H2]].
          intros Herr. apply textureLoad_some in E. contradiction.
        * split; [| constructor]. split; [exact Hfit | split; assumption].
      + unfold Loader.afterTexture2.
        destruct (textureLoad net next) as [tx |] eqn:E; cbn [fst snd].
        * split; [| constructor].
          split; [exact Hfit | split; [exact H1 |]].
          intros Herr. apply textureLoad_some in E. contradiction.
        * split; [| constructor]. split; [exact Hfit | split; assumption].
    - subst Q_ u1. cbn. repeat split; reflexivity.
    - subst R_. cbn. constructor; [left; reflexivity | constructor]. }
  destruct Hinv as [[[A1 [A2 [S1 [S2 [O1 O2]]]]] [T1 T2]] _].
  destruct (square_offsets (width / height)) as [OX OY].
  subst u1. cbn in A1, A2, S1, S2, O1, O2.
  split; intros Herr.
  - assert (E : getImageAspectRatio net current = 1).
    { unfold getImageAspectRatio. rewrite Herr. reflexivity. }
    rewrite E in A1, S1, O1. fold square in S1, O1.
    subst square. rewrite OX, OY in O1.
    split; [exact E | split; [exact A1 | split; [exact S1 |]]].
    split; [exact O1 | exact (T1 Herr)].
  - assert (E : getImageAspectRatio net next = 1).
    { unfold getImageAspectRatio. rewrite Herr. reflexivity. }
    rewrite E in A2, S2, O2. fold square in S2, O2.
    subst square. rewrite OX, OY in O2.
    split; [exact E | split; [exact A2 | split; [exact S2 |]]].
    split; [exact O2 | exact (T2 Herr)].
Qed.

Lemma failed_load_is_square_witness :
  let st :=
    settle_all (Loader.continue one_missing 960 540) [0; 0; 0]%nat
      (Loader.afterAspectRatios one_missing 960 540
         "missing.jpg" "b.jpg" Loader.initial) in
  Loader.uImageAspectRatio1 (fst st) = 1 /\
  Loader.uTex1 (fst st) = None.
Proof.
  destruct (failed_load_is_square one_missing 960 540
              "missing.jpg" "b.jpg" Loader.initial [0; 0; 0]%nat)
    as [Hcur _].
  destruct (Hcur eq_refl) as [_ [HA [_ [_ HT]]]].
  split; [exact HA | exact HT].
Defined.

(** ** Claims about teardown and about the order of texture loads *)

Lemma frame_when_stopped (images : list string) (a c : Q)
    (w : Controller1.world) (now : Q) :
  Controller1.tickRaf w = false -> Controller1.stepRaf w = false ->
  Controller1.handle (fun _ => LoadError) images 0 0 a c w
    (Controller1.Frame now) = w.
Proof.
  intros Ht Hs. destruct w as [l s u ts tr sr fl].
  cbn in Ht, Hs. subst tr sr.
  cbn. rewrite Nat.eqb_refl, app_nil_r. reflexivity.
Qed.

(** A frame never looks at the network or at the viewport size. *)
Lemma frame_ignores_network (net : network) (images : list string)
    (width height a c : Q) (w : Controller1.world) (now : Q) :
  Controller1.handle net images width height a c w (Controller1.Frame now)
  = Controller1.handle (fun _ => LoadError) images 0 0 a c w
      (Controller1.Frame now).
Proof. reflexivity. Qed.

(** One cycle of the mounted component: the three requests of the first
    load settle, then a transition runs to its end; the index has moved
    on and the load effect has run again, for the new pair. *)
Example controller_first_cycle :
  let w :=
    Controller1.run all_load ["a.jpg"; "b.jpg"]%string 960 540 4000 1000
      [Controller1.Settle 0; Controller1.Settle 0; Controller1.Settle 0;
       Controller1.Frame 16; Controller1.Frame 3016; Controller1.Frame 4016]
      (Controller1.mount ["a.jpg"; "b.jpg"]%string 10) in
  Slider1.index (Controller1.sched w) = 1%nat /\
  Slider1.uProgress (Controller1.sched w) = 0 /\
  Loader.uTex2 (Controller1.loaded w)
  = Some (mkTexture "b.jpg" LinearFilter LinearMipmapLinearFilter) /\
  Controller1.inFlight w = [AspectRatios "b.jpg" "a.jpg"].
Proof. vm_compute. repeat split; reflexivity. Qed.

(** C9, as stated, fails: the texture request issued before the unmount
    settles after it and writes [uTex1]. *)
Lemma unmounted_load_still_writes :
  ~ Controller1.quiet_after_unmount all_load ["a.jpg"; "b.jpg"]%string
      960 540 4000 1000.
Proof.
  intros H.
  specialize (H (Controller1.run all_load ["a.jpg"; "b.jpg"]%string
                   960 540 4000 1000 [Controller1.Settle 0]
                   (Controller1.mount ["a.jpg"; "b.jpg"]%string 10))
                [Controller1.Settle 0]).
  vm_compute in H. discriminate H.
Qed.

(** C9, amended: once the component is unmounted, both frame loops are
    stopped and stay stopped, whatever happens next: no frame callback
    writes [uTime] or [uProgress], moves the scheduler or advances the
    index again, and a run of frames alone changes nothing at all.
    Image requests in flight are neither cancelled nor guarded: one that
    settles after the unmount writes the uniforms exactly as it would
    have before. *)
Theorem unmount_stops_frames (net : network) (images : list string)
    (width height a c : Q) (w : Controller1.world)
    (evs : list Controller1.event) :
  let handle := Controller1.handle net images width height a c in
  let w1 := handle w Controller1.Unmount in
  let w2 := Controller1.run net images width height a c evs w1 in
  Controller1.tickRaf w2 = false /\
  Controller1.stepRaf w2 = false /\
  Controller1.sched w2 = Controller1.sched w1 /\
  Controller1.uTime w2 = Controller1.uTime w1 /\
  (Forall Controller1.is_frame evs -> w2 = w1) /\
  (forall k : nat,
     Controller1.loaded (handle w1 (Controller1.Settle k))
     = Controller1.loaded (handle w (Controller1.Settle k))).
Proof.
  intros handle w1 w2.
  assert (Hstopped :
    forall (evs : list Controller1.event) (v : Controller1.world),
      Controller1.tickRaf v = false -> Controller1.stepRaf v = false ->
      let v' := Controller1.run net images width height a c evs v in
      Controller1.tickRaf v' = false /\
      Controller1.stepRaf v' = false /\
      Controller1.sched v' = Controller1.sched v /\
      Controller1.uTime v' = Controller1.uTime v /\
      (Forall Controller1.is_frame evs -> v' = v)).
  { clear. intros evs. induction evs as [| e evs IH]; intros v Ht Hs.
    - cbn. repeat split; try assumption; reflexivity.
    - cbn [Controller1.run fold_left].
      set (v1 := Controller1.handle net images width height a c v e).
      assert (H1 : Controller1.tickRaf v1 = false /\
                   Controller1.stepRaf v1 = false /\
                   Controller1.sched v1 = Controller1.sched v /\
                   Controller1.uTime v1 = Controller1.uTime v /\
                   (Controller1.is_frame e -> v1 = v)).
      { subst v1. destruct e as [now | k |].
        - rewrite frame_ignores_network, frame_when_stopped by assumption.
          repeat split; try assumption; reflexivity.
        - cbn. repeat split; try assumption; try reflexivity.
          intros F. contradiction.
        - cbn. repeat split; try reflexivity.
          intros F. contradiction. }
      destruct H1 as [Ht1 [Hs1 [Hsch1 [Htime1 Hsame1]]]].
      destruct (IH v1 Ht1 Hs1) as [Ht2 [Hs2 [Hsch2 [Htime2 Hsame2]]]].
      fold (Controller1.run net images width height a c evs v1).
      repeat split; try assumption.
      + rewrite Hsch2. exact Hsch1.
      + rewrite Htime2. exact Htime1.
      + intros F. inversion F as [| ? ? Fe Fevs]; subst.
        rewrite (Hsame2 Fevs). exact (Hsame1 Fe). }
  destruct (Hstopped evs w1 eq_refl eq_refl) as [H1 [H2 [H3 [H4 H5]]]].
  repeat split; try assumption.
Qed.

(** C10: in [ThreeImageSlider] and [ThreeImageSlider3] the continuation
    of the aspect-ratio probes requests the texture of the current image
    and nothing else; the success callback of that load assigns [uTex1]
    and, inside the callback, requests the texture of the next image,
    whose own success callback assigns [uTex2].  No other continuation
    requests the next image's texture.  So a cycle in which both images
    load ends with both slots assigned, the next image's texture still
    on its way when the current one has just arrived; and when the
    current image's texture load does not succeed, nothing further is
    requested and [uTex2] keeps its value however the requests of the
    cycle settle.  In [ThreeImageSlider2] the continuation of the
    aspect-ratio probes issues both texture requests, and the next
    image's texture is assigned although the current one fails to load. *)
Theorem next_texture_waits_for_current (net : network) (width height : Q)
    (current next : string) :
  (forall u : Loader.uniforms,
     snd (Loader.continue net width height (AspectRatios current next) u)
     = [Texture1 current next]) /\
  (forall (u : Loader.uniforms) (tx1 : texture),
     textureLoad net current = Some tx1 ->
     Loader.continue net width height (Texture1 current next) u
     = (Loader.mkUniforms (Some tx1) (Loader.uTex2 u)
          (Loader.uImageAspectRatio1 u) (Loader.uImageAspectRatio2 u)
          (Loader.uImageScale1 u) (Loader.uImageScale2 u)
          (Loader.uImageOffset1 u) (Loader.uImageOffset2 u),
        [Texture2 next])) /\
  (textureLoad net current = None ->
   forall u : Loader.uniforms,
     Loader.continue net width height (Texture1 current next) u = (u, [])) /\
  (forall (u : Loader.uniforms) (tx2 : texture),
     textureLoad net next = Some tx2 ->
     Loader.continue net width height (Texture2 next) u
     = (Loader.mkUniforms (Loader.uTex1 u) (Some tx2)
          (Loader.uImageAspectRatio1 u) (Loader.uImageAspectRatio2 u)
          (Loader.uImageScale1 u) (Loader.uImageScale2 u)
          (Loader.uImageOffset1 u) (Loader.uImageOffset2 u),
        [])) /\
  (forall (r : request) (u : Loader.uniforms) (n : string),
     In (Texture2 n) (snd (Loader.continue net width height r u)) ->
     exists cur tx,
       r = Texture1 cur n /\ textureLoad net cur = Some tx /\
       Loader.uTex1 (fst (Loader.continue net width height r u)) = Some tx) /\
  (forall (u : Loader.uniforms) (tx1 tx2 : texture),
     textureLoad net current = Some tx1 ->
     textureLoad net next = Some tx2 ->
     let arrived :=
       settle_all (Loader.continue net width height) [0; 0]%nat
         (u, [AspectRatios current next]) in
     let done :=
       settle_all (Loader.continue net width height) [0; 0; 0]%nat
         (u, [AspectRatios current next]) in
     Loader.uTex1 (fst arrived) = Some tx1 /\
     Loader.uTex2 (fst arrived) = Loader.uTex2 u /\
     snd arrived = [Texture2 next] /\
     Loader.uTex1 (fst done) = Some tx1 /\
     Loader.uTex2 (fst done) = Some tx2 /\
     snd done = []) /\
  (net current = LoadError ->
   forall (u : Loader.uniforms) (ks : list nat),
     Loader.uTex2
       (fst (settle_all (Loader.continue net width height) ks
               (u, [AspectRatios current next])))
     = Loader.uTex2 u) /\
  (forall u : Loader2.uniforms,
     snd (Loader2.afterAspectRatios net width height current next u)
     = [Texture1 current next; Texture2 next]) /\
  (net current = LoadError ->
   (exists w h, net next = Loaded w h) ->
   forall u : Loader2.uniforms,
     Loader2.texture2
       (fst (settle_all (Loader2.continue net width height) [0; 1; 0]%nat
               (u, [AspectRatios current next])))
     = Some (mkTexture next LinearFilter LinearFilter)).
Proof.
  repeat match goal with |- _ /\ _ => split end.
  - intros u. reflexivity.
  - intros u tx1 E. cbn [Loader.continue]. unfold Loader.afterTexture1.
    rewrite E. reflexivity.
  - intros E u. cbn [Loader.continue]. unfold Loader.afterTexture1.
    rewrite E. reflexivity.
  - intros u tx2 E. cbn [Loader.continue]. unfold Loader.afterTexture2.
    rewrite E. reflexivity.
  - intros r u n Hin. destruct r as [cur nxt | cur nxt | nxt];
      cbn [Loader.continue] in *.
    + cbn in Hin. destruct Hin as [E | []]. discriminate E.
    + unfold Loader.afterTexture1 in *.
      destruct (textureLoad net cur) as [tx |] eqn:E; cbn [fst snd] in *.
      * destruct Hin as [E' | []]. injection E' as E'. subst nxt.
        exists cur, tx.
        split; [reflexivity | split; [exact E | reflexivity]].
      * destruct Hin.
    + unfold Loader.afterTexture2 in Hin.
      destruct (textureLoad net nxt); destruct Hin.
  - intros u tx1 tx2 E1 E2 arrived done.
    assert (Harrived :
      arrived
      = (Loader.mkUniforms (Some tx1) (Loader.uTex2 u)
           (Loader.uImageAspectRatio1
              (fst (Loader.afterAspectRatios net width height
                      current next u)))
           (Loader.uImageAspectRatio2
              (fst (Loader.afterAspectRatios net width height
                      current next u)))
           (Loader.uImageScale1
              (fst (Loader.afterAspectRatios net width height
                      current next u)))
           (Loader.uImageScale2
              (fst (Loader.afterAspectRatios net width height
                      current next u)))
           (Loader.uImageOffset1
              (fst (Loader.afterAspectRatios net width height
                      current next u)))
           (Loader.uImageOffset2
              (fst (Loader.afterAspectRatios net width height
                      current next u))),
         [Texture2 next])).
    { subst arrived. unfold settle_all. cbn [fold_left].
      rewrite (settle_nth_here _ 0 (AspectRatios current next))
        by reflexivity.
      cbn [Loader.continue].
      change (snd (Loader.afterAspectRatios net width height current next u))
        with [Texture1 current next].
      cbn [remove_nth firstn skipn app].
      rewrite (settle_nth_here _ 0 (Texture1 current next)) by reflexivity.
      cbn [Loader.continue remove_nth firstn skipn app].
      unfold Loader.afterTexture1. rewrite E1. reflexivity. }
    assert (Hdone : done = settle_nth (Loader.continue net width height) 0
                             arrived) by reflexivity.
    rewrite Harrived in Hdone.
    rewrite (settle_nth_here _ 0 (Texture2 next)) in Hdone by reflexivity.
    cbn [Loader.continue remove_nth firstn skipn app] in Hdone.
    unfold Loader.afterTexture2 in Hdone. rewrite E2 in Hdone.
    rewrite Harrived, Hdone.
    repeat split; reflexivity.
  - intros Herr u ks.
    set (Q_ := fun u' : Loader.uniforms => Loader.uTex2 u' = Loader.uTex2 u).
    set (R_ := fun r : request =>
                 r = AspectRatios current next \/ r = Texture1 current next).
    assert (Hinv :
      Q_ (fst (settle_all (Loader.continue net width height) ks
                 (u, [AspectRatios current next]))) /\
      Forall R_ (snd (settle_all (Loader.continue net width height) ks
                        (u, [AspectRatios current next])))).
    { apply settle_all_preserves.
      - intros r u' Hr HQ. destruct Hr as [Hr | Hr]; subst r;
          cbn [Loader.continue].
        + cbn. split; [exact HQ |].
          constructor; [right; reflexivity | constructor].
        + unfold Loader.afterTexture1.
          rewrite (textureLoad_error net current Herr).
          split; [exact HQ | constructor].
      - reflexivity.
      - constructor; [left; reflexivity | constructor]. }
    exact (proj1 Hinv).
  - intros u. reflexivity.
  - intros Herr [w [h Hok]] u.
    assert (E1 := textureLoad_error net current Herr).
    assert (E2 : textureLoad net next
                 = Some (mkTexture next LinearFilter
                           LinearMipmapLinearFilter)).
    { unfold textureLoad. rewrite Hok. reflexivity. }
    unfold settle_all. cbn [fold_left].
    rewrite (settle_nth_here _ 0 (AspectRatios current next)) by reflexivity.
    cbn [Loader2.continue Loader2.afterAspectRatios fst snd remove_nth
         firstn skipn app].
    rewrite (settle_nth_here _ 1 (Texture2 next)) by reflexivity.
    cbn [Loader2.continue remove_nth firstn skipn app].
    unfold Loader2.afterTexture2 at 1 2. rewrite E2. cbn [fst snd app].
    rewrite (settle_nth_here _ 0 (Texture1 current next)) by reflexivity.
    cbn [Loader2.continue]. unfold Loader2.afterTexture1. rewrite E1.
    reflexivity.
Qed.

Lemma next_texture_waits_for_current_witness :
  Loader.continue all_load 960 540 (Texture1 "a.jpg" "b.jpg") Loader.initial
  = (Loader.mkUniforms
       (Some (mkTexture "a.jpg" LinearFilter LinearMipmapLinearFilter))
       None 1 1 (1, 1) (1, 1) (0, 0) (0, 0),
     [Texture2 "b.jpg"]) /\
  Loader.uTex2
    (fst (settle_all (Loader.continue all_load 960 540) [0; 0; 0]%nat
            (Loader.initial, [AspectRatios "a.jpg" "b.jpg"])))
  = Some (mkTexture "b.jpg" LinearFilter LinearMipmapLinearFilter) /\
  Loader.uTex2
    (fst (settle_all (Loader.continue one_missing 960 540) [0; 0; 0]%nat
            (Loader.initial, [AspectRatios "missing.jpg" "b.jpg"])))
  = None /\
  Loader2.texture2
    (fst (settle_all (Loader2.continue one_missing 960 540) [0; 1; 0]%nat
            (Loader2.initial, [AspectRatios "missing.jpg" "b.jpg"])))
  = Some (mkTexture "b.jpg" LinearFilter LinearFilter).
Proof.
  destruct (next_texture_waits_for_current all_load 960 540
              "a.jpg" "b.jpg")
    as [_ [Hcall [_ [_ [_ [Hboth _]]]]]].
  destruct (next_texture_waits_for_current one_missing 960 540
              "missing.jpg" "b.jpg")
    as [_ [_ [_ [_ [_ [_ [Hseq [_ Hpar]]]]]]]].
  split; [| split; [| split]].
  - exact (Hcall Loader.initial _ eq_refl).
  - exact (proj1 (proj2 (proj2 (proj2 (proj2
             (Hboth Loader.initial _ _ eq_refl eq_refl)))))).
  - exact (Hseq eq_refl Loader.initial [0; 0; 0]%nat).
  - apply (Hpar eq_refl).
    exists 1920, 1080. reflexivity.
Defined.

(** ** More about the two schedulers *)

Lemma ascending_positive (lo : Q) (ticks : list Q) :
  0 < lo -> ascending lo ticks -> Forall (fun t => 0 < t) ticks.
Proof.
  revert lo. induction ticks as [| t ticks IH]; intros lo Hlo H.
  - constructor.
  - destruct H as [Hle Hrest].
    assert (Ht : 0 < t) by lra.
    constructor; [exact Ht | exact (IH t Ht Hrest)].
Qed.

Lemma slider1_observe (p : timing) (ticks : list Q) :
  0 < crossfadeMs p -> Forall (fun t => 0 < t) ticks ->
  observe slider1 p ticks
  = Scheduler.run (autoPlayMs p) (crossfadeMs p) (imagesLength p) ticks
      Scheduler.initial.
Proof.
  intros Hc Hpos. apply (observe_run slider1 p Slider1.wf).
  - split; intros H; [discriminate H | reflexivity].
  - reflexivity.
  - intros t st Ht Hwf. apply slider1_step_refines; assumption.
  - exact Hpos.
Qed.

Lemma slider3_observe (p : timing) (ticks : list Q) :
  0 < crossfadeMs p -> Forall (fun t => 0 < t) ticks ->
  observe slider3 p ticks
  = Scheduler.run (autoPlayMs p) (crossfadeMs p) (imagesLength p) ticks
      Scheduler.initial.
Proof.
  intros Hc Hpos. apply (observe_run slider3 p Slider3.wf).
  - split; reflexivity.
  - reflexivity.
  - intros t st Ht Hwf. apply slider3_frame_refines; assumption.
  - exact Hpos.
Qed.

Lemma component_observe (M : component) (p : timing) (ticks : list Q) :
  M = slider1 \/ M = slider3 ->
  0 < crossfadeMs p -> Forall (fun t => 0 < t) ticks ->
  observe M p ticks
  = Scheduler.run (autoPlayMs p) (crossfadeMs p) (imagesLength p) ticks
      Scheduler.initial.
Proof.
  intros [E | E] Hc Hpos; subst M.
  - apply slider1_observe; assumption.
  - apply slider3_observe; assumption.
Qed.

Lemma observations_alike (p : timing) (ticks : list Q) :
  0 < crossfadeMs p ->
  forall pre : list Q,
    Forall (fun t => 0 < t) (pre ++ ticks) ->
    observations slider1 p pre ticks = observations slider3 p pre ticks.
Proof.
  intros Hc. induction ticks as [| t ticks IH]; intros pre Hpos;
    [reflexivity |].
  cbn [observations].
  assert (Hpos' : Forall (fun t => 0 < t) ((pre ++ [t]) ++ ticks)).
  { rewrite <- app_assoc. exact Hpos. }
  rewrite (IH (pre ++ [t]) Hpos').
  assert (Hpre : Forall (fun t => 0 < t) (pre ++ [t])).
  { apply Forall_app in Hpos'. apply Hpos'. }
  rewrite (slider1_observe p _ Hc Hpre), (slider3_observe p _ Hc Hpre).
  reflexivity.
Qed.

(** X1: with a positive [crossfadeMs], on the same positive frame
    times [ThreeImageSlider] and [ThreeImageSlider3] schedule alike,
    although the one runs a single callback and the other two that take
    turns: after every frame they are in the same phase, entered at the
    same time, with the same progress and the same image index, and
    they have completed the same number of transitions. *)
Theorem sliders_schedule_alike (p : timing) (ticks : list Q) :
  0 < crossfadeMs p ->
  Forall (fun t => 0 < t) ticks ->
  observe slider1 p ticks = observe slider3 p ticks /\
  observations slider1 p [] ticks = observations slider3 p [] ticks /\
  completed slider1 p ticks = completed slider3 p ticks /\
  Slider1.uProgress (frames_run slider1 p ticks)
  = Slider3.uProgress (frames_run slider3 p ticks) /\
  Slider1.index (frames_run slider1 p ticks)
  = Slider3.index (frames_run slider3 p ticks).
Proof.
  intros Hc Hpos.
  assert (Hobs : observe slider1 p ticks = observe slider3 p ticks).
  { rewrite (slider1_observe p ticks Hc Hpos).
    rewrite (slider3_observe p ticks Hc Hpos). reflexivity. }
  assert (Htr : observations slider1 p [] ticks
                = observations slider3 p [] ticks).
  { apply observations_alike; assumption. }
  split; [exact Hobs | split; [exact Htr | split]].
  - unfold completed. rewrite Htr. reflexivity.
  - split.
    + exact (f_equal Scheduler.progress Hobs).
    + exact (f_equal Scheduler.currentIndex Hobs).
Qed.

Lemma sliders_schedule_alike_witness :
  observe slider1 (mkTiming 4000 1000 3) [16; 3016; 3516; 4016]
  = observe slider3 (mkTiming 4000 1000 3) [16; 3016; 3516; 4016].
Proof.
  assert (Hc : 0 < crossfadeMs (mkTiming 4000 1000 3)) by reflexivity.
  assert (Hpos : Forall (fun t => 0 < t) [16; 3016; 3516; 4016]).
  { repeat constructor. }
  exact (proj1 (sliders_schedule_alike (mkTiming 4000 1000 3)
                  [16; 3016; 3516; 4016] Hc Hpos)).
Defined.

(** X2: [step] of [ThreeImageSlider3] has a path that requests no
    further frame (it is taken when [step] runs while [isTransitioning]
    is set).  With a positive [crossfadeMs] and on positive frame times
    that path is never taken: after
    any frames a callback is requested, it is [transitionStep] exactly
    when [isTransitioning] is set, and while [step] is the one requested
    [uProgress] is 0. *)
Theorem slider3_keeps_requesting_frames (p : timing) (ticks : list Q) :
  0 < crossfadeMs p ->
  Forall (fun t => 0 < t) ticks ->
  let st := frames_run slider3 p ticks in
  Slider3.raf st <> None /\
  (Slider3.isTransitioning st = true <->
   exists transitionStart,
     Slider3.raf st = Some (Slider3.TransitionStep transitionStart)) /\
  (Slider3.raf st = Some Slider3.Step -> Slider3.uProgress st = 0).
Proof.
  intros Hc Hpos st.
  assert (Hwf : Slider3.wf st).
  { refine (proj1 (fold_refines slider3 p Slider3.wf _ ticks
                     Slider3.init _ Hpos)).
    - intros t s Ht Hs. apply slider3_frame_refines; assumption.
    - split; reflexivity. }
  unfold Slider3.wf in Hwf.
  destruct (Slider3.raf st) as [[| ts] |] eqn:E; [| | contradiction].
  - destruct Hwf as [Htr Hu].
    split; [discriminate | split].
    + split.
      * intros H. rewrite Htr in H. discriminate H.
      * intros [ts H]. discriminate H.
    + intros _. exact Hu.
  - split; [discriminate | split].
    + split.
      * intros _. exists ts. reflexivity.
      * intros _. exact Hwf.
    + intros H. discriminate H.
Qed.

Lemma slider3_keeps_requesting_frames_witness :
  Slider3.raf (frames_run slider3 (mkTiming 4000 1000 3) [16; 3016; 3516])
  <> None.
Proof.
  assert (Hc : 0 < crossfadeMs (mkTiming 4000 1000 3)) by reflexivity.
  assert (Hpos : Forall (fun t => 0 < t) [16; 3016; 3516]).
  { repeat constructor. }
  exact (proj1 (slider3_keeps_requesting_frames (mkTiming 4000 1000 3)
                  [16; 3016; 3516] Hc Hpos)).
Defined.

(** ** Bounds that hold on every run *)

Lemma Qmin_progress_nonneg (e c : Q) :
  0 < c -> 0 <= e -> 0 <= Qmin (e / c) 1.
Proof.
  intros Hc He. apply Q.min_glb; [| lra].
  apply Qle_shift_div_l; [exact Hc | lra].
Qed.

Section RunBounds.

Variables (a c : Q) (N : nat).
Hypothesis c_pos : 0 < c.

Local Abbreviation tick := (Scheduler.tick a c N).
Local Abbreviation run := (Scheduler.run a c N).

(** Progress is in [0, 1) and a transition was entered no later than
    the last frame [T]. *)
Lemma tick_progress_bounds (T t : Q) (s : Scheduler.TransitionState) :
  T <= t ->
  (forall e, Scheduler.phase_of s = Scheduler.Transitioning e -> e <= T) ->
  0 <= Scheduler.progress (tick t s) /\
  Scheduler.progress (tick t s) < 1 /\
  (forall e, Scheduler.phase_of (tick t s) = Scheduler.Transitioning e ->
     e <= t).
Proof.
  intros HT He. destruct s as [[| s0 | te] p0 i]; cbn in *;
    unfold Scheduler.idle_tick.
  - destruct (Qle_bool _ _); cbn; (split; [lra | split; [lra |]]);
      intros e E; [injection E as E; subst e; lra | discriminate E].
  - destruct (Qle_bool _ _); cbn; (split; [lra | split; [lra |]]);
      intros e E; [injection E as E; subst e; lra | discriminate E].
  - specialize (He te eq_refl).
    destruct (Qle_bool 1 (Qmin ((t - te) / c) 1)) eqn:E; cbn.
    + split; [lra | split; [lra |]]. intros e E'. discriminate E'.
    + apply Qle_bool_false in E.
      split; [apply Qmin_progress_nonneg; [exact c_pos | lra] |].
      split; [exact E |].
      intros e E'. injection E' as E'. subst e. lra.
Qed.

Lemma run_progress_bounds (ticks : list Q) :
  forall (T : Q) (s : Scheduler.TransitionState),
    ascending T ticks ->
    (0 <= Scheduler.progress s /\ Scheduler.progress s < 1) ->
    (forall e, Scheduler.phase_of s = Scheduler.Transitioning e -> e <= T) ->
    0 <= Scheduler.progress (run ticks s) /\
    Scheduler.progress (run ticks s) < 1.
Proof.
  induction ticks as [| t ticks IH]; intros T s Hasc Hp He.
  - exact Hp.
  - destruct Hasc as [HT Hrest].
    destruct (tick_progress_bounds T t s HT He) as [H0 [H1 He']].
    change (run (t :: ticks) s) with (run ticks (tick t s)).
    apply (IH t (tick t s) Hrest (conj H0 H1) He').
Qed.

(** What is known once an idle phase has been entered at [s0] with
    image [i]: a phase entered later was entered late enough, and the
    image has changed only if a transition was completed at or after
    [s0 + a]. *)
Lemma tick_not_early (s0 t : Q) (i : nat) (s : Scheduler.TransitionState) :
  0 <= a ->
  match Scheduler.phase_of s with
  | Scheduler.Unstarted => False
  | Scheduler.Idle x =>
      (x == s0 /\ Scheduler.currentIndex s = i) \/ s0 + a <= x
  | Scheduler.Transitioning e =>
      (s0 + (a - c) <= e /\ Scheduler.currentIndex s = i)
      \/ s0 + a + (a - c) <= e
  end ->
  match Scheduler.phase_of (tick t s) with
  | Scheduler.Unstarted => False
  | Scheduler.Idle x =>
      (x == s0 /\ Scheduler.currentIndex (tick t s) = i) \/ s0 + a <= x
  | Scheduler.Transitioning e =>
      (s0 + (a - c) <= e /\ Scheduler.currentIndex (tick t s) = i)
      \/ s0 + a + (a - c) <= e
  end.
Proof.
  intros Ha H. destruct s as [[| x | e] p0 j]; cbn in *;
    unfold Scheduler.idle_tick.
  - contradiction.
  - destruct (Qle_bool (a - c) (t - x)) eqn:E; cbn.
    + apply Qle_bool_iff in E.
      destruct H as [[Hx Hj] | Hx].
      * left. split; [lra | exact Hj].
      * right. lra.
    + exact H.
  - rewrite (progress_test (t - e) c c_pos).
    destruct (Qle_bool c (t - e)) eqn:E; cbn.
    + apply Qle_bool_iff in E. right.
      destruct H as [[He _] | He]; lra.
    + exact H.
Qed.

Lemma run_not_early (s0 : Q) (i : nat) (ticks : list Q) :
  0 <= a ->
  forall s : Scheduler.TransitionState,
    match Scheduler.phase_of s with
    | Scheduler.Unstarted => False
    | Scheduler.Idle x =>
        (x == s0 /\ Scheduler.currentIndex s = i) \/ s0 + a <= x
    | Scheduler.Transitioning e =>
        (s0 + (a - c) <= e /\ Scheduler.currentIndex s = i)
        \/ s0 + a + (a - c) <= e
    end ->
    match Scheduler.phase_of (run ticks s) with
    | Scheduler.Unstarted => False
    | Scheduler.Idle x =>
        (x == s0 /\ Scheduler.currentIndex (run ticks s) = i) \/ s0 + a <= x
    | Scheduler.Transitioning e =>
        (s0 + (a - c) <= e /\ Scheduler.currentIndex (run ticks s) = i)
        \/ s0 + a + (a - c) <= e
    end.
Proof.
  intros Ha. induction ticks as [| t ticks IH]; intros s H.
  - exact H.
  - change (run (t :: ticks) s) with (run ticks (tick t s)).
    apply IH. apply tick_not_early; assumption.
Qed.

End RunBounds.

(** X3: with a positive [crossfadeMs], when the frame times are
    positive and never run backwards, the progress that
    [ThreeImageSlider] and [ThreeImageSlider3] leave in [uProgress]
    after a frame is always in [0, 1): the value 1 that ends a
    transition is replaced by 0 within the same frame. *)
Theorem progress_in_unit_interval (M : component) (p : timing)
    (t0 : Q) (ticks : list Q) :
  M = slider1 \/ M = slider3 ->
  0 < crossfadeMs p ->
  0 < t0 -> ascending t0 ticks ->
  0 <= Scheduler.progress (observe M p (t0 :: ticks)) /\
  Scheduler.progress (observe M p (t0 :: ticks)) < 1.
Proof.
  intros HM Hc Ht0 Hasc.
  assert (Hpos : Forall (fun t => 0 < t) (t0 :: ticks)).
  { constructor; [exact Ht0 | exact (ascending_positive t0 ticks Ht0 Hasc)]. }
  rewrite (component_observe M p _ HM Hc Hpos).
  apply (run_progress_bounds _ _ _ Hc (t0 :: ticks) t0).
  - split; [lra | exact Hasc].
  - cbn. lra.
  - intros e E. discriminate E.
Qed.

Lemma progress_in_unit_interval_witness :
  Scheduler.progress
    (observe slider3 (mkTiming 4000 1000 3) [16; 3016; 3516; 4016]) < 1.
Proof.
  refine (proj2 (progress_in_unit_interval slider3 (mkTiming 4000 1000 3)
                   16 [3016; 3516; 4016] (or_intror eq_refl) _ _ _)).
  - reflexivity.
  - reflexivity.
  - cbn. repeat split; intro H; discriminate H.
Defined.

(** X4: no image is replaced early ([crossfadeMs] positive,
    [autoPlayMs] not negative, frame times positive).  Once
    [ThreeImageSlider] or [ThreeImageSlider3] has entered an idle phase
    at [s] showing image [i], then after any further frames (in any
    order, at any rate) it is
    still in that idle phase with image [i], or in a transition entered
    at or after [s + autoPlayMs - crossfadeMs] with image [i], or a
    transition has been completed at or after [s + autoPlayMs]. *)
Theorem no_early_transition (M : component) (p : timing)
    (pre more : list Q) (s : Q) (i : nat) :
  M = slider1 \/ M = slider3 ->
  0 < crossfadeMs p -> 0 <= autoPlayMs p ->
  Forall (fun t => 0 < t) (pre ++ more) ->
  observe M p pre = Scheduler.mkTS (Scheduler.Idle s) 0 i ->
  let a := autoPlayMs p in
  let c := crossfadeMs p in
  let after := observe M p (pre ++ more) in
  match Scheduler.phase_of after with
  | Scheduler.Unstarted => False
  | Scheduler.Idle x =>
      (x == s /\ Scheduler.currentIndex after = i) \/ s + a <= x
  | Scheduler.Transitioning e =>
      (s + (a - c) <= e /\ Scheduler.currentIndex after = i)
      \/ s + a + (a - c) <= e
  end.
Proof.
  intros HM Hc Ha Hpos Hpre a c after. subst after.
  assert (Ppre : Forall (fun t => 0 < t) pre).
  { apply Forall_app in Hpos. apply Hpos. }
  rewrite (component_observe M p _ HM Hc Hpos).
  rewrite (component_observe M p _ HM Hc Ppre) in Hpre.
  rewrite (run_app (autoPlayMs p) (crossfadeMs p) (imagesLength p)).
  rewrite Hpre.
  apply (run_not_early _ _ _ Hc s i more Ha).
  cbn. left. split; [reflexivity | reflexivity].
Qed.

Lemma no_early_transition_witness :
  let after := observe slider1 (mkTiming 4000 1000 3) ([16] ++ [3016; 4016]) in
  match Scheduler.phase_of after with
  | Scheduler.Unstarted => False
  | Scheduler.Idle x =>
      (x == 16 /\ Scheduler.currentIndex after = 0%nat) \/ 16 + 4000 <= x
  | Scheduler.Transitioning e =>
      (16 + (4000 - 1000) <= e /\ Scheduler.currentIndex after = 0%nat)
      \/ 16 + 4000 + (4000 - 1000) <= e
  end.
Proof.
  apply (no_early_transition slider1 (mkTiming 4000 1000 3)
           [16] [3016; 4016] 16 0%nat).
  - left. reflexivity.
  - reflexivity.
  - intro H. discriminate H.
  - repeat constructor.
  - reflexivity.
Defined.

(** ** More about the aspect fitter *)

(** X5: the fit never stretches the picture.  For positive aspect
    ratios [a] (image) and [c] (container) the scales satisfy
    scaleX * a = scaleY * c: the part of the image that the scales
    select, scaleX of its width by scaleY of its height, has the aspect
    ratio of the container. *)
Theorem fit_keeps_aspect (a c : Q) :
  0 < a -> 0 < c ->
  let f := Fitter.calculateFitParams a c in
  Fitter.scaleX f * a == Fitter.scaleY f * c.
Proof.
  intros Ha Hc f. subst f. destruct (Qlt_le_dec c a) as [H | H].
  - rewrite (fit_wider a c H). cbn [Fitter.scaleX Fitter.scaleY].
    field. lra.
  - rewrite (fit_not_wider a c H). cbn [Fitter.scaleX Fitter.scaleY].
    field. lra.
Qed.

Lemma fit_keeps_aspect_witness :
  Fitter.scaleX (Fitter.calculateFitParams (4 # 3) (16 # 9)) * (4 # 3)
  == Fitter.scaleY (Fitter.calculateFitParams (4 # 3) (16 # 9)) * (16 # 9).
Proof.
  apply (fit_keeps_aspect (4 # 3) (16 # 9)); reflexivity.
Defined.

(** ** Load cycles, whatever the order in which requests settle *)

Section SettlingShort.

Context {U : Type}.
Variable continue : request -> U -> U * list request.

Lemma settle_nth_nil (k : nat) (u : U) :
  settle_nth continue k (u, []) = (u, []).
Proof. unfold settle_nth. cbn. destruct k; reflexivity. Qed.

Lemma settle_nth_single (k : nat) (u : U) (r : request) :
  settle_nth continue k (u, [r])
  = match k with
    | O => continue r u
    | S _ => (u, [r])
    end.
Proof.
  destruct k as [| k].
  - rewrite (settle_nth_here continue 0 r) by reflexivity.
    cbn [remove_nth firstn skipn app]. symmetry. apply surjective_pairing.
  - unfold settle_nth. cbn. destruct k; reflexivity.
Qed.

Lemma settle_nth_pair (k : nat) (u : U) (r1 r2 : request) :
  settle_nth continue k (u, [r1; r2])
  = match k with
    | O => (fst (continue r1 u), r2 :: snd (continue r1 u))
    | S O => (fst (continue r2 u), r1 :: snd (continue r2 u))
    | S (S _) => (u, [r1; r2])
    end.
Proof.
  destruct k as [| [| k]].
  - rewrite (settle_nth_here continue 0 r1) by reflexivity. reflexivity.
  - rewrite (settle_nth_here continue 1 r2) by reflexivity. reflexivity.
  - unfold settle_nth. cbn. destruct k; reflexivity.
Qed.

Lemma settle_all_cons (k : nat) (ks : list nat) (st : U * list request) :
  settle_all continue (k :: ks) st
  = settle_all continue ks (settle_nth continue k st).
Proof. reflexivity. Qed.

(** A property of the states that is kept by every settled request is
    kept by every run. *)
Lemma settle_all_invariant (Inv : U * list request -> Prop) :
  (forall (k : nat) (st : U * list request),
     Inv st -> Inv (settle_nth continue k st)) ->
  forall (ks : list nat) (st : U * list request),
    Inv st -> Inv (settle_all continue ks st).
Proof.
  intros Hstep ks. induction ks as [| k ks IH]; intros st H; [exact H |].
  rewrite settle_all_cons. apply IH, Hstep, H.
Qed.

End SettlingShort.

(** X6: one load cycle of [ThreeImageSlider] (and of
    [ThreeImageSlider3]), in whatever order completions are delivered.
    [AspectRatios] is the [await] of the two aspect-ratio probes taken
    together, pending until both have answered; the texture loads are
    counted one by one.  The two texture loads are never in flight
    together; while the probes are awaited nothing has been written and
    no texture is requested; the next image's texture is in flight only
    when [uTex1] already holds the texture of the current image; once
    the probes, then the texture load they are followed by, then the one
    after that have settled, nothing is left in flight; and once the
    cycle has drained, the aspect ratios written are those of
    images[index] and images[(index + 1) mod N] (1 for a picture that
    failed), [uTex1] holds the texture of the current image if that
    loaded and its old value otherwise, and [uTex2] holds the texture of
    the next image if both pictures loaded and its old value
    otherwise. *)
Theorem load_cycle_sequential (net : network) (images : list string)
    (width height : Q) (index : nat) (u : Loader.uniforms) (ks : list nat) :
  let current := nth index images EmptyString in
  let next :=
    nth ((index + 1) mod List.length images)%nat images EmptyString in
  let continue := Loader.continue net width height in
  let st := settle_all continue ks
              (u, [Loader.loadCurrentImages images index]) in
  let is_texture_load := fun r : request =>
    match r with
    | AspectRatios _ _ => false
    | Texture1 _ _ => true
    | Texture2 _ => true
    end in
  (List.length (filter is_texture_load (snd st)) <= 1)%nat /\
  (In (AspectRatios current next) (snd st) ->
   st = (u, [AspectRatios current next])) /\
  (In (Texture2 next) (snd st) ->
   exists tx1 : texture,
     textureLoad net current = Some tx1 /\
     Loader.uTex1 (fst st) = Some tx1) /\
  snd (settle_all continue [0; 0; 0]%nat
         (u, [Loader.loadCurrentImages images index])) = [] /\
  (snd st = [] ->
   Loader.uImageAspectRatio1 (fst st) = getImageAspectRatio net current /\
   Loader.uImageAspectRatio2 (fst st) = getImageAspectRatio net next /\
   Loader.uTex1 (fst st)
   = match textureLoad net current with
     | Some tx1 => Some tx1
     | None => Loader.uTex1 u
     end /\
   Loader.uTex2 (fst st)
   = match textureLoad net current, textureLoad net next with
     | Some _, Some tx2 => Some tx2
     | _, _ => Loader.uTex2 u
     end).
Proof.
  intros current next continue st is_texture_load.
  change (Loader.loadCurrentImages images index)
    with (AspectRatios current next) in *.
  set (s1 := Loader.afterAspectRatios net width height current next u).
  set (s2 := Loader.afterTexture1 net current next (fst s1)).
  set (s3 := Loader.afterTexture2 net next (fst s2)).
  set (Inv := fun x : Loader.uniforms * list request =>
    x = (u, [AspectRatios current next]) \/
    x = s1 \/
    x = s2 \/
    (textureLoad net current <> None /\ x = s3)).
  assert (E1 : s1 = (fst s1, [Texture1 current next])) by reflexivity.
  assert (E2 : s2 = (fst s2, match textureLoad net current with
                             | Some _ => [Texture2 next]
                             | None => []
                             end)).
  { subst s2. unfold Loader.afterTexture1.
    destruct (textureLoad net current); reflexivity. }
  assert (E3 : s3 = (fst s3, [])).
  { subst s3. unfold Loader.afterTexture2.
    destruct (textureLoad net next); reflexivity. }
  assert (Hinv : Inv st).
  { apply settle_all_invariant.
    - intros k x [E | [E | [E | [Hc E]]]]; subst x.
      + rewrite settle_nth_single. destruct k.
        * right. left. reflexivity.
        * left. reflexivity.
      + rewrite E1, settle_nth_single. destruct k.
        * right. right. left. reflexivity.
        * right. left. reflexivity.
      + rewrite E2.
        destruct (textureLoad net current) as [tx |] eqn:E.
        * rewrite settle_nth_single. destruct k.
          -- right. right. right. split; [discriminate | reflexivity].
          -- right. right. left. symmetry. exact E2.
        * rewrite settle_nth_nil. right. right. left. symmetry. exact E2.
      + rewrite E3, settle_nth_nil.
        right. right. right. split; [exact Hc | symmetry; exact E3].
    - left. reflexivity. }
  split; [| split; [| split; [| split]]].
  - destruct Hinv as [E | [E | [E | [Hc E]]]]; rewrite E.
    + cbn. lia.
    + rewrite E1. cbn. lia.
    + rewrite E2. destruct (textureLoad net current); cbn; lia.
    + rewrite E3. cbn. lia.
  - intros Hin.
    destruct Hinv as [E | [E | [E | [Hc E]]]]; rewrite E in Hin |- *.
    + reflexivity.
    + rewrite E1 in Hin. cbn [snd] in Hin.
      destruct Hin as [D | []]. discriminate D.
    + rewrite E2 in Hin. cbn [snd] in Hin.
      destruct (textureLoad net current).
      * destruct Hin as [D | []]. discriminate D.
      * destruct Hin.
    + rewrite E3 in Hin. destruct Hin.
  - intros Hin.
    destruct Hinv as [E | [E | [E | [Hc E]]]]; rewrite E in Hin |- *.
    + cbn [snd] in Hin. destruct Hin as [D | []]. discriminate D.
    + rewrite E1 in Hin. cbn [snd] in Hin.
      destruct Hin as [D | []]. discriminate D.
    + rewrite E2 in Hin. cbn [snd] in Hin.
      subst s2. unfold Loader.afterTexture1.
      destruct (textureLoad net current) as [tx |].
      * exists tx. split; reflexivity.
      * destruct Hin.
    + rewrite E3 in Hin. destruct Hin.
  - unfold settle_all. cbn [fold_left].
    rewrite settle_nth_single.
    change (continue (AspectRatios current next) u) with s1. rewrite E1.
    rewrite settle_nth_single.
    change (continue (Texture1 current next) (fst s1)) with s2. rewrite E2.
    destruct (textureLoad net current).
    + rewrite settle_nth_single.
      change (continue (Texture2 next) (fst s2)) with s3. rewrite E3.
      reflexivity.
    + rewrite settle_nth_nil. reflexivity.
  - intros Hnil.
    destruct Hinv as [E | [E | [E | [Hc E]]]]; rewrite E in Hnil |- *.
    + discriminate Hnil.
    + discriminate Hnil.
    + subst s2. unfold Loader.afterTexture1 in *.
      destruct (textureLoad net current) as [tx |]; [discriminate Hnil |].
      cbn. repeat split; reflexivity.
    + subst s3 s2. unfold Loader.afterTexture2, Loader.afterTexture1.
      destruct (textureLoad net current) as [tx |]; [| congruence].
      destruct (textureLoad net next) as [tx2 |]; cbn;
        repeat split; reflexivity.
Qed.

(** ** A texture that arrives late *)

Lemma step_idle (p : timing) (t s : Q) (u : Q) (i : nat) :
  0 < s -> t - s < autoPlayMs p - crossfadeMs p ->
  Slider1.step p t (Slider1.mkState s false u i) = Slider1.mkState s false u i.
Proof.
  intros Hs H. unfold Slider1.step.
  cbn [Slider1.start Slider1.isTransitioning Slider1.uProgress Slider1.index
       negb].
  rewrite (falsy_positive s Hs).
  apply Qle_bool_false in H. rewrite H. reflexivity.
Qed.

Lemma step_first (p : timing) (t : Q) :
  crossfadeMs p < autoPlayMs p ->
  Slider1.step p t Slider1.init = Slider1.mkState t false 0 0.
Proof.
  intros H. unfold Slider1.step, Slider1.init.
  cbn [Slider1.start Slider1.isTransitioning Slider1.uProgress Slider1.index
       negb].
  change (falsy 0) with true. cbv iota.
  assert (H' : t - t < autoPlayMs p - crossfadeMs p) by lra.
  apply Qle_bool_false in H'. rewrite H'. reflexivity.
Qed.

Lemma step_enter (p : timing) (t s : Q) (u : Q) (i : nat) :
  0 < s -> autoPlayMs p - crossfadeMs p <= t - s ->
  Slider1.step p t (Slider1.mkState s false u i) = Slider1.mkState t true u i.
Proof.
  intros Hs H. unfold Slider1.step.
  cbn [Slider1.start Slider1.isTransitioning Slider1.uProgress Slider1.index
       negb].
  rewrite (falsy_positive s Hs).
  apply Qle_bool_iff in H. rewrite H. reflexivity.
Qed.

Lemma step_complete (p : timing) (t s : Q) (u : Q) (i : nat) :
  0 < s -> crossfadeMs p <= t - s ->
  Slider1.step p t (Slider1.mkState s true u i)
  = Slider1.mkState t false 0 ((i + 1) mod imagesLength p).
Proof.
  intros Hs H. unfold Slider1.step.
  cbn [Slider1.start Slider1.isTransitioning Slider1.uProgress Slider1.index
       negb].
  rewrite (falsy_positive s Hs).
  apply Qle_bool_iff in H. rewrite H. reflexivity.
Qed.

Lemma handle_settle (net : network) (images : list string)
    (width height a c : Q) (l l' : Loader.uniforms) (s : Slider1.state)
    (ut ts : Q) (tr sr : bool) (fl fl' : list request) (k : nat) :
  settle_nth (Loader.continue net width height) k (l, fl) = (l', fl') ->
  Controller1.handle net images width height a c
    (Controller1.mkWorld l s ut ts tr sr fl) (Controller1.Settle k)
  = Controller1.mkWorld l' s ut ts tr sr fl'.
Proof.
  intros E. unfold Controller1.handle.
  cbn [Controller1.loaded Controller1.inFlight Controller1.sched
       Controller1.uTime Controller1.tickStart Controller1.tickRaf
       Controller1.stepRaf].
  rewrite E. reflexivity.
Qed.

Lemma handle_frame (net : network) (images : list string)
    (width height a c : Q) (l : Loader.uniforms) (s s' : Slider1.state)
    (ut ts : Q) (fl : list request) (now : Q) :
  Slider1.step (Controller1.props images a c) now s = s' ->
  Controller1.handle net images width height a c
    (Controller1.mkWorld l s ut ts true true fl) (Controller1.Frame now)
  = Controller1.mkWorld l s' ((now - ts) / 1000) ts true true
      (fl ++ if (Slider1.index s' =? Slider1.index s)%nat then []
             else [Loader.loadCurrentImages images (Slider1.index s')]).
Proof.
  intros E. unfold Controller1.handle.
  cbn [Controller1.loaded Controller1.inFlight Controller1.sched
       Controller1.uTime Controller1.tickStart Controller1.tickRaf
       Controller1.stepRaf].
  rewrite E. reflexivity.
Qed.

(** X7: the load effect of [ThreeImageSlider] has no cleanup and its
    callbacks do not check which run they belong to, so the completion
    delivered last wins.  With two images [a] and [b] that both load:
    if the texture of [a], requested by the load for index 0, arrives
    after the index has moved to 1 and after the texture of [b]
    requested by the load for index 1, then the component is left with
    index 1 and the aspect ratio and fit parameters of [b] for the
    current image, but with the texture of [a] in [uTex1]; the requests
    still in flight only write [uTex2]. *)
Theorem stale_texture_overwrites (net : network) (a b : string)
    (width height autoPlayMs crossfadeMs : Q) (wa ha wb hb : Q)
    (t0 t1 t2 t3 : Q) :
  net a = Loaded wa ha -> net b = Loaded wb hb ->
  0 < crossfadeMs -> crossfadeMs < autoPlayMs ->
  0 < t1 -> autoPlayMs - crossfadeMs <= t2 - t1 -> crossfadeMs <= t3 - t2 ->
  let w :=
    Controller1.run net [a; b] width height autoPlayMs crossfadeMs
      [Controller1.Settle 0;
       Controller1.Frame t1; Controller1.Frame t2; Controller1.Frame t3;
       Controller1.Settle 1; Controller1.Settle 1; Controller1.Settle 0]
      (Controller1.mount [a; b] t0) in
  Slider1.index (Controller1.sched w) = 1%nat /\
  Loader.uImageAspectRatio1 (Controller1.loaded w) = wb / hb /\
  Loader.uImageScale1 (Controller1.loaded w)
  = (Fitter.scaleX (Fitter.calculateFitParams (wb / hb) (width / height)),
     Fitter.scaleY (Fitter.calculateFitParams (wb / hb) (width / height))) /\
  Loader.uTex1 (Controller1.loaded w)
  = Some (mkTexture a LinearFilter LinearMipmapLinearFilter) /\
  Controller1.inFlight w = [Texture2 a; Texture2 b].
Proof.
  intros Ha Hb Hc Hca Ht1 Ht2 Ht3 w. subst w.
  assert (Pt2 : 0 < t2) by lra.
  assert (La : textureLoad net a
               = Some (mkTexture a LinearFilter LinearMipmapLinearFilter)).
  { unfold textureLoad. rewrite Ha. reflexivity. }
  assert (Lb : textureLoad net b
               = Some (mkTexture b LinearFilter LinearMipmapLinearFilter)).
  { unfold textureLoad. rewrite Hb. reflexivity. }
  assert (Rb : getImageAspectRatio net b = wb / hb).
  { unfold getImageAspectRatio. rewrite Hb. reflexivity. }
  unfold Controller1.run, Controller1.mount. cbn [fold_left].
  change (Loader.loadCurrentImages [a; b] 0) with (AspectRatios a b).
  (* the probes of the first load settle *)
  erewrite handle_settle;
    [| rewrite settle_nth_single;
       cbn [Loader.continue Loader.afterAspectRatios]; reflexivity].
  (* three frames: idle, transition entered, transition completed *)
  erewrite handle_frame; [| apply step_first; exact Hca].
  cbn [Slider1.index Slider1.init Nat.eqb app].
  erewrite handle_frame; [| apply step_enter; assumption].
  cbn [Slider1.index Nat.eqb app].
  erewrite handle_frame; [| apply step_complete; assumption].
  change (imagesLength (Controller1.props [a; b] autoPlayMs crossfadeMs))
    with 2%nat.
  change ((0 + 1) mod 2)%nat with 1%nat.
  cbn [Slider1.index Nat.eqb app].
  change (Loader.loadCurrentImages [a; b] 1) with (AspectRatios b a).
  (* the probes of the second load, its texture, then the late one *)
  erewrite handle_settle;
    [| rewrite settle_nth_pair;
       cbn [Loader.continue Loader.afterAspectRatios fst snd]; reflexivity].
  erewrite handle_settle;
    [| rewrite settle_nth_pair; cbn [Loader.continue];
       unfold Loader.afterTexture1; rewrite Lb; cbn [fst snd];
       reflexivity].
  erewrite handle_settle;
    [| rewrite settle_nth_pair; cbn [Loader.continue];
       unfold Loader.afterTexture1; rewrite La; cbn [fst snd];
       reflexivity].
  cbn [Controller1.loaded Controller1.sched Controller1.inFlight
       Loader.uTex1 Loader.uTex2 Loader.uImageAspectRatio1
       Loader.uImageAspectRatio2 Loader.uImageScale1 Loader.uImageScale2
       Loader.uImageOffset1 Loader.uImageOffset2 Slider1.index].
  rewrite Rb.
  split; [reflexivity | split; [reflexivity | split; [reflexivity |]]].
  split; reflexivity.
Qed.

Lemma stale_texture_overwrites_witness :
  let w :=
    Controller1.run all_load ["a.jpg"; "b.jpg"]%string 960 540 4000 1000
      [Controller1.Settle 0;
       Controller1.Frame 16; Controller1.Frame 3016; Controller1.Frame 4016;
       Controller1.Settle 1; Controller1.Settle 1; Controller1.Settle 0]
      (Controller1.mount ["a.jpg"; "b.jpg"]%string 10) in
  Slider1.index (Controller1.sched w) = 1%nat /\
  Loader.uTex1 (Controller1.loaded w)
  = Some (mkTexture "a.jpg" LinearFilter LinearMipmapLinearFilter).
Proof.
  destruct (stale_texture_overwrites all_load "a.jpg" "b.jpg"
              960 540 4000 1000 1920 1080 1920 1080 10 16 3016 4016)
    as [Hi [_ [_ [Ht _]]]];
    try reflexivity; try (intro H; discriminate H).
  split; [exact Hi | exact Ht].
Defined.

(** ** The two load effects of [ThreeImageSlider2] *)

(** X8: in the mount effect of [ThreeImageSlider2] the two textures are
    requested side by side, and the outcome does not depend on the
    order in which they arrive: at most two requests are in flight, and
    once the cycle has drained the uniforms are the same whatever the
    order was.  Each texture slot holds the texture of its image, with
    linear filters, if that image loaded and its old value otherwise,
    independently of the other slot. *)
Theorem parallel_load_any_order (net : network) (width height : Q)
    (currentImg nextImg : string) (u : Loader2.uniforms) (ks : list nat) :
  let continue := Loader2.continue net width height in
  let st := settle_all continue ks (u, [AspectRatios currentImg nextImg]) in
  let fitParams1 :=
    Fitter.calculateFitParams (getImageAspectRatio net currentImg)
      (width / height) in
  let fitParams2 :=
    Fitter.calculateFitParams (getImageAspectRatio net nextImg)
      (width / height) in
  (List.length (snd st) <= 2)%nat /\
  snd (settle_all continue [0; 0; 0]%nat
         (u, [AspectRatios currentImg nextImg])) = [] /\
  snd (settle_all continue [0; 1; 0]%nat
         (u, [AspectRatios currentImg nextImg])) = [] /\
  (snd st = [] ->
   fst st
   = Loader2.mkUniforms
       match textureLoad net currentImg with
       | Some tx1 => Some (mkTexture (image tx1) LinearFilter LinearFilter)
       | None => Loader2.texture1 u
       end
       match textureLoad net nextImg with
       | Some tx2 => Some (mkTexture (image tx2) LinearFilter LinearFilter)
       | None => Loader2.texture2 u
       end
       (getImageAspectRatio net currentImg)
       (getImageAspectRatio net nextImg)
       (Fitter.scaleX fitParams1, Fitter.scaleY fitParams1)
       (Fitter.scaleX fitParams2, Fitter.scaleY fitParams2)
       (Fitter.offsetX fitParams1, Fitter.offsetY fitParams1)
       (Fitter.offsetX fitParams2, Fitter.offsetY fitParams2)).
Proof.
  intros continue st fitParams1 fitParams2.
  set (s1 := Loader2.afterAspectRatios net width height currentImg nextImg u).
  set (a1 := Loader2.afterTexture1 net currentImg (fst s1)).
  set (a2 := Loader2.afterTexture2 net nextImg (fst s1)).
  set (b12 := Loader2.afterTexture2 net nextImg (fst a1)).
  set (b21 := Loader2.afterTexture1 net currentImg (fst a2)).
  assert (E1 : s1 = (fst s1, [Texture1 currentImg nextImg; Texture2 nextImg]))
    by reflexivity.
  assert (Ea1 : a1 = (fst a1, [])).
  { subst a1. unfold Loader2.afterTexture1.
    destruct (textureLoad net currentImg); reflexivity. }
  assert (Ea2 : a2 = (fst a2, [])).
  { subst a2. unfold Loader2.afterTexture2.
    destruct (textureLoad net nextImg); reflexivity. }
  assert (Eb12 : b12 = (fst b12, [])).
  { subst b12. unfold Loader2.afterTexture2.
    destruct (textureLoad net nextImg); reflexivity. }
  assert (Eb21 : b21 = (fst b12, [])).
  { subst b21 b12 a1 a2. unfold Loader2.afterTexture1, Loader2.afterTexture2.
    destruct (textureLoad net currentImg), (textureLoad net nextImg);
      reflexivity. }
  set (Inv := fun x : Loader2.uniforms * list request =>
    x = (u, [AspectRatios currentImg nextImg]) \/
    x = s1 \/
    x = (fst a1, [Texture2 nextImg]) \/
    x = (fst a2, [Texture1 currentImg nextImg]) \/
    x = (fst b12, [])).
  assert (Hinv : Inv st).
  { apply settle_all_invariant.
    - intros k x [E | [E | [E | [E | E]]]]; subst x.
      + rewrite settle_nth_single. destruct k.
        * right. left. reflexivity.
        * left. reflexivity.
      + rewrite E1, settle_nth_pair. destruct k as [| [| k]].
        * change (continue (Texture1 currentImg nextImg) (fst s1)) with a1.
          rewrite Ea1. right. right. left. reflexivity.
        * change (continue (Texture2 nextImg) (fst s1)) with a2.
          rewrite Ea2. right. right. right. left. reflexivity.
        * right. left. reflexivity.
      + rewrite settle_nth_single. destruct k.
        * change (continue (Texture2 nextImg) (fst a1)) with b12.
          right. right. right. right. exact Eb12.
        * right. right. left. reflexivity.
      + rewrite settle_nth_single. destruct k.
        * change (continue (Texture1 currentImg nextImg) (fst a2)) with b21.
          right. right. right. right. exact Eb21.
        * right. right. right. left. reflexivity.
      + rewrite settle_nth_nil. right. right. right. right. reflexivity.
    - left. reflexivity. }
  split; [| split; [| split]].
  - destruct Hinv as [E | [E | [E | [E | E]]]]; rewrite E; cbn; lia.
  - unfold settle_all. cbn [fold_left].
    rewrite settle_nth_single.
    change (continue (AspectRatios currentImg nextImg) u) with s1.
    rewrite E1, settle_nth_pair.
    change (continue (Texture1 currentImg nextImg) (fst s1)) with a1.
    rewrite Ea1. cbn [fst snd]. rewrite settle_nth_single.
    change (continue (Texture2 nextImg) (fst a1)) with b12.
    rewrite Eb12. reflexivity.
  - unfold settle_all. cbn [fold_left].
    rewrite settle_nth_single.
    change (continue (AspectRatios currentImg nextImg) u) with s1.
    rewrite E1, settle_nth_pair.
    change (continue (Texture2 nextImg) (fst s1)) with a2.
    rewrite Ea2. cbn [fst snd]. rewrite settle_nth_single.
    change (continue (Texture1 currentImg nextImg) (fst a2)) with b21.
    rewrite Eb21. reflexivity.
  - intros Hnil.
    destruct Hinv as [E | [E | [E | [E | E]]]]; rewrite E in Hnil |- *;
      try discriminate Hnil.
    cbn [fst]. subst b12 a1 s1 fitParams1 fitParams2.
    unfold Loader2.afterTexture2, Loader2.afterTexture1,
      Loader2.afterAspectRatios, Loader2.linear.
    destruct (textureLoad net currentImg), (textureLoad net nextImg);
      reflexivity.
Qed.

Lemma reload_afterTexture1 (net : network) (currentImg : string)
    (st : Reload2.state) :
  let r := fst (Reload2.afterTexture1 net currentImg st) in
  snd (Reload2.afterTexture1 net currentImg st) = [] /\
  (textureLoad net currentImg = None -> r = st) /\
  (forall tx1, textureLoad net currentImg = Some tx1 ->
     Reload2.resolved1 r = true /\
     Reload2.resolved2 r = Reload2.resolved2 st /\
     Reload2.dispFactor r
     = (if Reload2.resolved2 st then 0 else Reload2.dispFactor st) /\
     Loader2.texture1 (Reload2.loaded r)
     = Some (mkTexture (image tx1) LinearFilter LinearFilter) /\
     Loader2.texture2 (Reload2.loaded r)
     = Loader2.texture2 (Reload2.loaded st)).
Proof.
  destruct st as [u d r1 r2]. unfold Reload2.afterTexture1.
  destruct (textureLoad net currentImg) as [tx |].
  - split; [reflexivity | split; [intros H; discriminate H |]].
    intros tx1 E. injection E as E. subst tx1.
    unfold Reload2.whenAllLoaded.
    cbn [fst Reload2.loaded Reload2.dispFactor Reload2.resolved1
         Reload2.resolved2 andb].
    destruct r2; repeat split; reflexivity.
  - split; [reflexivity | split; [reflexivity |]].
    intros tx1 E. discriminate E.
Qed.

Lemma reload_afterTexture2 (net : network) (nextImg : string)
    (st : Reload2.state) :
  let r := fst (Reload2.afterTexture2 net nextImg st) in
  snd (Reload2.afterTexture2 net nextImg st) = [] /\
  (textureLoad net nextImg = None -> r = st) /\
  (forall tx2, textureLoad net nextImg = Some tx2 ->
     Reload2.resolved2 r = true /\
     Reload2.resolved1 r = Reload2.resolved1 st /\
     Reload2.dispFactor r
     = (if Reload2.resolved1 st then 0 else Reload2.dispFactor st) /\
     Loader2.texture2 (Reload2.loaded r)
     = Some (mkTexture (image tx2) LinearFilter LinearFilter) /\
     Loader2.texture1 (Reload2.loaded r)
     = Loader2.texture1 (Reload2.loaded st)).
Proof.
  destruct st as [u d r1 r2]. unfold Reload2.afterTexture2.
  destruct (textureLoad net nextImg) as [tx |].
  - split; [reflexivity | split; [intros H; discriminate H |]].
    intros tx2 E. injection E as E. subst tx2.
    unfold Reload2.whenAllLoaded.
    cbn [fst Reload2.loaded Reload2.dispFactor Reload2.resolved1
         Reload2.resolved2 andb].
    destruct r1; repeat split; reflexivity.
  - split; [reflexivity | split; [reflexivity |]].
    intros tx2 E. discriminate E.
Qed.

(** X9: the second effect of [ThreeImageSlider2] resets [dispFactor]
    to 0 when, and only when, both textures of the new pair have
    arrived, in whatever order.  Until then [dispFactor] keeps the value
    [d] it had; if either picture fails to load it is never reset, since
    a promise of [loadPromises] has no reject path; and once the cycle
    has drained with both pictures loaded, it is 0 and both textures are
    assigned. *)
Theorem reload_resets_after_both (net : network) (width height : Q)
    (currentImg nextImg : string) (u : Loader2.uniforms) (d : Q)
    (ks : list nat) :
  let continue := Reload2.continue net width height in
  let st := settle_all continue ks
              (Reload2.start u d, [AspectRatios currentImg nextImg]) in
  let after := fst st in
  Reload2.dispFactor after
  = (if Reload2.resolved1 after && Reload2.resolved2 after then 0 else d) /\
  (Reload2.resolved1 after = true ->
   exists tx1, textureLoad net currentImg = Some tx1 /\
     Loader2.texture1 (Reload2.loaded after)
     = Some (mkTexture (image tx1) LinearFilter LinearFilter)) /\
  (Reload2.resolved2 after = true ->
   exists tx2, textureLoad net nextImg = Some tx2 /\
     Loader2.texture2 (Reload2.loaded after)
     = Some (mkTexture (image tx2) LinearFilter LinearFilter)) /\
  (net currentImg = LoadError \/ net nextImg = LoadError ->
   Reload2.dispFactor after = d) /\
  (snd st = [] ->
   textureLoad net currentImg <> None -> textureLoad net nextImg <> None ->
   Reload2.dispFactor after = 0 /\
   Reload2.resolved1 after = true /\ Reload2.resolved2 after = true).
Proof.
  intros continue st after.
  (* what every completion keeps *)
  set (Q_ := fun x : Reload2.state =>
    Reload2.dispFactor x
    = (if Reload2.resolved1 x && Reload2.resolved2 x then 0 else d) /\
    (Reload2.resolved1 x = true ->
     exists tx1, textureLoad net currentImg = Some tx1 /\
       Loader2.texture1 (Reload2.loaded x)
       = Some (mkTexture (image tx1) LinearFilter LinearFilter)) /\
    (Reload2.resolved2 x = true ->
     exists tx2, textureLoad net nextImg = Some tx2 /\
       Loader2.texture2 (Reload2.loaded x)
       = Some (mkTexture (image tx2) LinearFilter LinearFilter))).
  set (R_ := fun r : request =>
    r = AspectRatios currentImg nextImg \/
    r = Texture1 currentImg nextImg \/ r = Texture2 nextImg).
  assert (Hkeep : Q_ after /\ Forall R_ (snd st)).
  { apply settle_all_preserves.
    - intros r x Hr [Hd [H1 H2]].
      destruct Hr as [Hr | [Hr | Hr]]; subst r; unfold continue;
        cbn [Reload2.continue].
      + split.
        * destruct x as [v dx r1 r2]. exact (conj Hd (conj H1 H2)).
        * constructor; [right; left; reflexivity |].
          constructor; [right; right; reflexivity | constructor].
      + destruct (reload_afterTexture1 net currentImg x) as [Hs [Hn Hl]].
        rewrite Hs. split; [| constructor].
        destruct (textureLoad net currentImg) as [tx1 |] eqn:L1.
        * destruct (Hl tx1 eq_refl) as [F1 [F2 [FD [T1 T2]]]].
          split; [| split].
          -- rewrite FD, F1, F2, Hd. cbn [andb].
             destruct (Reload2.resolved2 x);
               [reflexivity | rewrite andb_false_r; reflexivity].
          -- intros _. exists tx1. split; [reflexivity | exact T1].
          -- rewrite F2, T2. exact H2.
        * rewrite (Hn eq_refl). exact (conj Hd (conj H1 H2)).
      + destruct (reload_afterTexture2 net nextImg x) as [Hs [Hn Hl]].
        rewrite Hs. split; [| constructor].
        destruct (textureLoad net nextImg) as [tx2 |] eqn:L2.
        * destruct (Hl tx2 eq_refl) as [F2 [F1 [FD [T2 T1]]]].
          split; [| split].
          -- rewrite FD, F1, F2, Hd. rewrite andb_true_r.
             destruct (Reload2.resolved1 x); reflexivity.
          -- rewrite F1, T1. exact H1.
          -- intros _. exists tx2. split; [reflexivity | exact T2].
        * rewrite (Hn eq_refl). exact (conj Hd (conj H1 H2)).
    - split; [reflexivity | split; intros H; discriminate H].
    - constructor; [left; reflexivity | constructor]. }
  destruct Hkeep as [[Hd [H1 H2]] _].
  split; [exact Hd | split; [exact H1 | split; [exact H2 | split]]].
  - intros Herr. rewrite Hd.
    destruct (Reload2.resolved1 after) eqn:F1; [| reflexivity].
    destruct (Reload2.resolved2 after) eqn:F2; [| reflexivity].
    destruct (H1 eq_refl) as [tx1 [L1 _]].
    destruct (H2 eq_refl) as [tx2 [L2 _]].
    destruct Herr as [Herr | Herr]; apply textureLoad_error in Herr;
      congruence.
  - (* the states a cycle goes through *)
    intros Hnil N1 N2.
    set (s1 := Reload2.afterAspectRatios net width height currentImg nextImg
                 (Reload2.start u d)).
    set (a1 := Reload2.afterTexture1 net currentImg (fst s1)).
    set (a2 := Reload2.afterTexture2 net nextImg (fst s1)).
    set (b12 := Reload2.afterTexture2 net nextImg (fst a1)).
    set (b21 := Reload2.afterTexture1 net currentImg (fst a2)).
    destruct (textureLoad net currentImg) as [tx1 |] eqn:L1; [| congruence].
    destruct (textureLoad net nextImg) as [tx2 |] eqn:L2; [| congruence].
    destruct (reload_afterTexture1 net currentImg (fst s1)) as [Sa1 [_ Fa1]].
    destruct (reload_afterTexture2 net nextImg (fst s1)) as [Sa2 [_ Fa2]].
    destruct (reload_afterTexture2 net nextImg (fst a1)) as [Sb12 [_ Fb12]].
    destruct (reload_afterTexture1 net currentImg (fst a2)) as [Sb21 [_ Fb21]].
    specialize (Fa1 tx1 L1). specialize (Fa2 tx2 L2).
    specialize (Fb12 tx2 L2). specialize (Fb21 tx1 L1).
    fold a1 in Sa1, Fa1. fold a2 in Sa2, Fa2.
    fold b12 in Sb12, Fb12. fold b21 in Sb21, Fb21.
    set (Inv := fun x : Reload2.state * list request =>
      x = (Reload2.start u d, [AspectRatios currentImg nextImg]) \/
      x = s1 \/
      x = (fst a1, [Texture2 nextImg]) \/
      x = (fst a2, [Texture1 currentImg nextImg]) \/
      (snd x = [] /\ Reload2.resolved1 (fst x) = true /\
       Reload2.resolved2 (fst x) = true)).
    assert (H : Inv st).
    { apply settle_all_invariant.
      - intros k x [E | [E | [E | [E | [En [E1 E2]]]]]].
        + subst x. rewrite settle_nth_single. destruct k.
          * right. left. reflexivity.
          * left. reflexivity.
        + subst x.
          change s1 with (fst s1, [Texture1 currentImg nextImg;
                                   Texture2 nextImg]).
          rewrite settle_nth_pair. destruct k as [| [| k]].
          * change (continue (Texture1 currentImg nextImg) (fst s1))
              with a1.
            rewrite Sa1. right. right. left. reflexivity.
          * change (continue (Texture2 nextImg) (fst s1)) with a2.
            rewrite Sa2. right. right. right. left. reflexivity.
          * right. left. reflexivity.
        + subst x. rewrite settle_nth_single. destruct k.
          * change (continue (Texture2 nextImg) (fst a1)) with b12.
            right. right. right. right.
            destruct Fb12 as [F2 [F1 _]]. destruct Fa1 as [G1 _].
            split; [exact Sb12 | split; [| exact F2]].
            rewrite F1. exact G1.
          * right. right. left. reflexivity.
        + subst x. rewrite settle_nth_single. destruct k.
          * change (continue (Texture1 currentImg nextImg) (fst a2))
              with b21.
            right. right. right. right.
            destruct Fb21 as [F1 [F2 _]]. destruct Fa2 as [G2 _].
            split; [exact Sb21 | split; [exact F1 |]].
            rewrite F2. exact G2.
          * right. right. right. left. reflexivity.
        + rewrite (surjective_pairing x), En, settle_nth_nil.
          right. right. right. right.
          split; [reflexivity | split; assumption].
      - left. reflexivity. }
    destruct H as [E | [E | [E | [E | [_ [F1 F2]]]]]];
      try (rewrite E in Hnil; discriminate Hnil).
    subst after. rewrite Hd, F1, F2.
    split; [reflexivity | split; reflexivity].
Qed.

Lemma reload_resets_after_both_witness :
  Reload2.dispFactor
    (fst (settle_all (Reload2.continue one_missing 960 540) [0; 1; 0]%nat
            (Reload2.start Loader2.initial 1,
             [AspectRatios "a.jpg" "missing.jpg"])))
  = 1.
Proof.
  refine (proj1 (proj2 (proj2 (proj2
            (reload_resets_after_both one_missing 960 540
               "a.jpg" "missing.jpg" Loader2.initial 1 [0; 1; 0]%nat)))) _).
  right. reflexivity.
Defined.

(** ** The image props of [ThreeImageSlider2] *)

Lemma truthy_some (s : option string) :
  Slider2.truthy s = true -> exists c r, s = Some (String c r).
Proof.
  destruct s as [[| c r] |]; intros H; try discriminate H.
  exists c, r. reflexivity.
Qed.

(** X10: how [ThreeImageSlider2] reads its image props.  An [images]
    array, when given, is used as it is, even when it is empty, and
    [image1] and [image2] are then ignored.  Without it, the list is
    [image1; image2] when both are given and not empty, and empty
    otherwise.  On an empty list neither load effect issues a request,
    no autoplay timer is set, and a displacement map is requested only
    if [displacementImage] is given and not empty.  A timer is set only
    with [autoPlay] and at least two images.  Without
    [displacementImage] the displacement map is the first image. *)
Theorem image_props_of_slider2 (image1 image2 displacementImage : option string)
    (autoPlay : bool) (autoPlayMs : Q) (currentIndex : nat) :
  let imageList := Slider2.imageList None image1 image2 in
  (forall (l : list string) (i1 i2 : option string),
     Slider2.imageList (Some l) i1 i2 = l) /\
  (Slider2.truthy image1 && Slider2.truthy image2 = true ->
   exists i1 i2,
     image1 = Some i1 /\ image2 = Some i2 /\ imageList = [i1; i2] /\
     Loader2.loadCurrentImages imageList 0 = Some (AspectRatios i1 i2) /\
     Loader2.loadCurrentImages imageList 1 = Some (AspectRatios i2 i1) /\
     Slider2.startAutoPlay autoPlay imageList autoPlayMs
     = (if autoPlay then Some autoPlayMs else None) /\
     Slider2.displacementRequest (Slider2.displacementImg None imageList)
     = Some i1) /\
  (Slider2.truthy image1 && Slider2.truthy image2 = false ->
   imageList = []) /\
  Loader2.loadCurrentImages [] currentIndex = None /\
  Reload2.loadImagesForCurrentIndex [] currentIndex = None /\
  Slider2.startAutoPlay autoPlay [] autoPlayMs = None /\
  Slider2.displacementRequest (Slider2.displacementImg displacementImage [])
  = (if Slider2.truthy displacementImage then displacementImage else None) /\
  (forall l : list string,
     Slider2.startAutoPlay autoPlay l autoPlayMs <> None ->
     autoPlay = true /\ (2 <= List.length l)%nat).
Proof.
  intros imageList. subst imageList.
  split; [reflexivity | split; [| split]].
  - intros H. apply andb_true_iff in H. destruct H as [H1 H2].
    destruct (truthy_some image1 H1) as [c1 [r1 E1]].
    destruct (truthy_some image2 H2) as [c2 [r2 E2]].
    subst image1 image2.
    exists (String c1 r1), (String c2 r2).
    split; [reflexivity | split; [reflexivity | split; [reflexivity |]]].
    split; [reflexivity | split; [reflexivity | split]].
    + unfold Slider2.startAutoPlay. cbn. rewrite andb_true_r.
      reflexivity.
    + reflexivity.
  - intros H. unfold Slider2.imageList.
    destruct image1 as [i1 |]; [| reflexivity].
    destruct image2 as [i2 |]; [| reflexivity].
    rewrite H. reflexivity.
  - split; [reflexivity | split; [reflexivity | split]].
    + unfold Slider2.startAutoPlay. cbn. rewrite andb_false_r. reflexivity.
    + split.
      * unfold Slider2.displacementImg, Slider2.displacementRequest,
          Slider2.or_string.
        destruct displacementImage as [[| c r] |]; reflexivity.
      * intros l H. unfold Slider2.startAutoPlay in H.
        destruct autoPlay; [| exfalso; apply H; reflexivity].
        split; [reflexivity |].
        destruct (1 <? List.length l)%nat eqn:E.
        -- apply Nat.ltb_lt in E. exact E.
        -- exfalso. apply H. reflexivity.
Qed.

Lemma image_props_of_slider2_witness :
  Slider2.imageList None (Some "a.jpg"%string) (Some "b.jpg"%string)
  = ["a.jpg"; "b.jpg"]%string /\
  Slider2.imageList None (Some "a.jpg"%string) (Some ""%string) = [] /\
  Slider2.imageList (Some []) (Some "a.jpg"%string) (Some "b.jpg"%string)
  = [].
Proof.
  destruct (image_props_of_slider2 (Some "a.jpg"%string)
              (Some "b.jpg"%string) None true 3000 0)
    as [Hgiven [Hboth _]].
  destruct (image_props_of_slider2 (Some "a.jpg"%string)
              (Some ""%string) None true 3000 0)
    as [_ [_ [Hnone _]]].
  split; [| split].
  - destruct (Hboth eq_refl) as [i1 [i2 [E1 [E2 [El _]]]]].
    injection E1 as E1. injection E2 as E2. subst i1 i2. exact El.
  - exact (Hnone eq_refl).
  - apply Hgiven.
Defined.

(** ** The viewport *)

(** X11: the resize handler of [ThreeImageSlider] and
    [ThreeImageSlider3] reads the [width] and [height] props, not the
    window: it writes again what the mount wrote.  After any number of
    resize events the renderer size, the camera frustum, the plane and
    the uniforms [uResolution] and [uContainerAspectRatio] are those set
    at mount.  The frustum is centred on the origin and is exactly as
    wide and as high as the plane, so the plane fills the canvas. *)
Theorem resize_changes_nothing (width height : Q) (n : nat) :
  let mounted := Viewport.mount width height in
  let cam := Viewport.cameraOf mounted in
  Nat.iter n (Viewport.onResize width height) mounted = mounted /\
  (forall st : Viewport.state,
     Viewport.onResize width height (Viewport.onResize width height st)
     = Viewport.onResize width height st) /\
  Viewport.right cam - Viewport.left cam == fst (Viewport.planeGeometry mounted)
  /\
  Viewport.top cam - Viewport.bottom cam
  == snd (Viewport.planeGeometry mounted) /\
  Viewport.left cam + Viewport.right cam == 0 /\
  Viewport.bottom cam + Viewport.top cam == 0 /\
  Viewport.planeGeometry mounted = Viewport.rendererSize mounted.
Proof.
  intros mounted cam. split; [| split].
  - induction n as [| n IH]; [reflexivity |].
    change (Nat.iter (S n) (Viewport.onResize width height) mounted)
      with (Viewport.onResize width height
              (Nat.iter n (Viewport.onResize width height) mounted)).
    rewrite IH. reflexivity.
  - intros st. reflexivity.
  - subst cam mounted. unfold Viewport.mount.
    cbn [Viewport.cameraOf Viewport.right Viewport.left Viewport.top
         Viewport.bottom Viewport.planeGeometry Viewport.rendererSize
         fst snd].
    repeat split; try field.
Qed.

(** ** A crossfade as long as the cycle *)

(** X20: when [crossfadeMs] is positive and not smaller than
    [autoPlayMs], the components never rest: an idle phase lasts one
    frame only.  On the
    first frame at or after the time [s] at which the idle phase was
    entered, [ThreeImageSlider] and [ThreeImageSlider3] enter the next
    transition, with progress 0 and the same image. *)
Theorem overlong_crossfade_never_rests (M : component) (p : timing)
    (pre : list Q) (s t : Q) (i : nat) :
  M = slider1 \/ M = slider3 ->
  0 < crossfadeMs p -> autoPlayMs p <= crossfadeMs p ->
  Forall (fun x => 0 < x) (pre ++ [t]) ->
  observe M p pre = Scheduler.mkTS (Scheduler.Idle s) 0 i ->
  s <= t ->
  observe M p (pre ++ [t]) = Scheduler.mkTS (Scheduler.Transitioning t) 0 i.
Proof.
  intros HM Hc Hac Hpos Hpre Hst.
  assert (Ppre : Forall (fun x => 0 < x) pre).
  { apply Forall_app in Hpos. apply Hpos. }
  rewrite (component_observe M p _ HM Hc Hpos).
  rewrite (component_observe M p _ HM Hc Ppre) in Hpre.
  rewrite (run_app (autoPlayMs p) (crossfadeMs p) (imagesLength p)), Hpre.
  cbn [Scheduler.run fold_left].
  apply idle_exit. lra.
Qed.

Lemma overlong_crossfade_never_rests_witness :
  observe slider3 (mkTiming 1000 1000 3) ([16; 1016] ++ [1032])
  = Scheduler.mkTS (Scheduler.Transitioning 1032) 0 1.
Proof.
  apply (overlong_crossfade_never_rests slider3 (mkTiming 1000 1000 3)
           [16; 1016] 1016 1032 1%nat).
  - right. reflexivity.
  - reflexivity.
  - intro H. discriminate H.
  - repeat constructor.
  - reflexivity.
  - intro H. discriminate H.
Defined.

(** ** Only listed images are ever requested *)

Lemma step_index (p : timing) (t : Q) (st : Slider1.state) :
  Slider1.index (Slider1.step p t st) = Slider1.index st \/
  Slider1.index (Slider1.step p t st)
  = ((Slider1.index st + 1) mod imagesLength p)%nat.
Proof.
  unfold Slider1.step.
  destruct (negb (Slider1.isTransitioning st)).
  - destruct (Qle_bool _ _); left; reflexivity.
  - destruct (Qle_bool _ _); [right | left]; reflexivity.
Qed.

Lemma loadCurrentImages_listed (images : list string) (index : nat) :
  (index < List.length images)%nat ->
  names_listed images (Loader.loadCurrentImages images index).
Proof.
  intros H. unfold Loader.loadCurrentImages. cbn [names_listed].
  split; apply nth_In; [exact H |].
  apply Nat.mod_upper_bound. lia.
Qed.

Lemma continue_listed (net : network) (images : list string)
    (width height : Q) (r : request) (u : Loader.uniforms) :
  names_listed images r ->
  shows_listed images (Loader.uTex1 u) /\
  shows_listed images (Loader.uTex2 u) ->
  (shows_listed images
     (Loader.uTex1 (fst (Loader.continue net width height r u))) /\
   shows_listed images
     (Loader.uTex2 (fst (Loader.continue net width height r u)))) /\
  Forall (names_listed images) (snd (Loader.continue net width height r u)).
Proof.
  intros Hr [H1 H2]. destruct r as [c n | c n | n]; cbn [Loader.continue].
  - cbn. split; [split; assumption |].
    constructor; [exact Hr | constructor].
  - unfold Loader.afterTexture1, textureLoad.
    destruct (net c); cbn.
    + destruct Hr as [Hc Hn].
      split; [split; assumption |]. constructor; [exact Hn | constructor].
    + split; [split; assumption | constructor].
  - unfold Loader.afterTexture2, textureLoad.
    destruct (net n); cbn.
    + split; [split; assumption | constructor].
    + split; [split; assumption | constructor].
Qed.

(** X21: with at least one image, [ThreeImageSlider] never asks for
    anything but its images.  Whatever frames arrive, whatever requests
    settle and in whatever order, before or after an unmount: the image
    index stays below the number of images, every request in flight
    names URLs of the [images] prop only, and each of [uTex1] and
    [uTex2] is empty or holds the texture of one of them. *)
Theorem only_listed_images_are_requested (net : network)
    (images : list string) (width height autoPlayMs crossfadeMs : Q)
    (now : Q) (evs : list Controller1.event) :
  images <> [] ->
  let w :=
    Controller1.run net images width height autoPlayMs crossfadeMs evs
      (Controller1.mount images now) in
  (Slider1.index (Controller1.sched w) < List.length images)%nat /\
  Forall (names_listed images) (Controller1.inFlight w) /\
  shows_listed images (Loader.uTex1 (Controller1.loaded w)) /\
  shows_listed images (Loader.uTex2 (Controller1.loaded w)).
Proof.
  intros Hne w.
  assert (HN : (0 < List.length images)%nat).
  { destruct images; [congruence | cbn; lia]. }
  set (Inv := fun v : Controller1.world =>
    (Slider1.index (Controller1.sched v) < List.length images)%nat /\
    Forall (names_listed images) (Controller1.inFlight v) /\
    shows_listed images (Loader.uTex1 (Controller1.loaded v)) /\
    shows_listed images (Loader.uTex2 (Controller1.loaded v))).
  assert (Hstep : forall (v : Controller1.world) (e : Controller1.event),
            Inv v ->
            Inv (Controller1.handle net images width height
                   autoPlayMs crossfadeMs v e)).
  { intros v e [Hi [Hf [H1 H2]]]. destruct e as [t | k |].
    - unfold Inv, Controller1.handle.
      cbn [Controller1.sched Controller1.inFlight Controller1.loaded].
      set (s' := if Controller1.stepRaf v
                 then Slider1.step
                        (Controller1.props images autoPlayMs crossfadeMs) t
                        (Controller1.sched v)
                 else Controller1.sched v).
      assert (Hi' : (Slider1.index s' < List.length images)%nat).
      { subst s'. destruct (Controller1.stepRaf v); [| exact Hi].
        destruct (step_index
                    (Controller1.props images autoPlayMs crossfadeMs) t
                    (Controller1.sched v)) as [E | E]; rewrite E.
        - exact Hi.
        - apply Nat.mod_upper_bound. cbn. lia. }
      split; [exact Hi' | split; [| split; assumption]].
      apply Forall_app. split; [exact Hf |].
      destruct (Slider1.index s' =? Slider1.index (Controller1.sched v))%nat;
        [constructor |].
      constructor; [| constructor].
      apply loadCurrentImages_listed, Hi'.
    - unfold Inv, Controller1.handle.
      cbn [Controller1.sched Controller1.inFlight Controller1.loaded].
      split; [exact Hi |].
      destruct (settle_nth_preserves (Loader.continue net width height)
                  (fun u => shows_listed images (Loader.uTex1 u) /\
                            shows_listed images (Loader.uTex2 u))
                  (names_listed images)
                  (continue_listed net images width height)
                  k (Controller1.loaded v, Controller1.inFlight v)
                  (conj H1 H2) Hf) as [[T1 T2] Hf'].
      split; [exact Hf' | split; assumption].
    - unfold Inv, Controller1.handle.
      cbn [Controller1.sched Controller1.inFlight Controller1.loaded].
      split; [exact Hi | split; [exact Hf | split; assumption]]. }
  assert (Hrun : forall (l : list Controller1.event) (v : Controller1.world),
            Inv v ->
            Inv (Controller1.run net images width height
                   autoPlayMs crossfadeMs l v)).
  { induction l as [| e l IH]; intros v Hv; [exact Hv |].
    cbn [Controller1.run fold_left]. apply IH, Hstep, Hv. }
  apply Hrun. unfold Inv, Controller1.mount.
  cbn [Controller1.sched Controller1.inFlight Controller1.loaded
       Slider1.index Slider1.init].
  split; [exact HN | split; [| split; exact I]].
  constructor; [| constructor].
  apply loadCurrentImages_listed, HN.
Qed.

Lemma only_listed_images_are_requested_witness :
  Forall (names_listed ["a.jpg"; "b.jpg"]%string)
    (Controller1.inFlight
       (Controller1.run all_load ["a.jpg"; "b.jpg"]%string 960 540 4000 1000
          [Controller1.Settle 0; Controller1.Frame 16;
           Controller1.Frame 3016; Controller1.Frame 4016]
          (Controller1.mount ["a.jpg"; "b.jpg"]%string 10))).
Proof.
  refine (proj1 (proj2 (only_listed_images_are_requested all_load
            ["a.jpg"; "b.jpg"]%string 960 540 4000 1000 10
            [Controller1.Settle 0; Controller1.Frame 16;
             Controller1.Frame 3016; Controller1.Frame 4016] _))).
  discriminate.
Defined.

(** ** The two load effects of [ThreeImageSlider2] write alike *)

Lemma reload_simulates (net : network) (width height : Q)
    (r : request) (x : Reload2.state) :
  Reload2.loaded (fst (Reload2.continue net width height r x))
  = fst (Loader2.continue net width height r (Reload2.loaded x)) /\
  snd (Reload2.continue net width height r x)
  = snd (Loader2.continue net width height r (Reload2.loaded x)).
Proof.
  destruct x as [u d r1 r2].
  destruct r as [c n | c n | n];
    cbn [Reload2.continue Loader2.continue Reload2.loaded].
  - split; reflexivity.
  - unfold Reload2.afterTexture1, Loader2.afterTexture1,
      Reload2.whenAllLoaded.
    destruct (textureLoad net c); cbn [fst snd Reload2.loaded
      Reload2.resolved1 Reload2.resolved2 andb]; [| split; reflexivity].
    destruct r2; split; reflexivity.
  - unfold Reload2.afterTexture2, Loader2.afterTexture2,
      Reload2.whenAllLoaded.
    destruct (textureLoad net n); cbn [fst snd Reload2.loaded
      Reload2.resolved1 Reload2.resolved2 andb]; [| split; reflexivity].
    rewrite andb_true_r. destruct r1; split; reflexivity.
Qed.

(** X22: the two load effects of [ThreeImageSlider2] write the same
    uniforms.  Started on the same request and fed the same
    completions in the same order, [loadImagesForCurrentIndex] leaves
    the aspect ratios, scales, offsets and textures exactly as
    [loadCurrentImages] of the mount effect does, with the same
    requests in flight; it differs only in resetting [dispFactor]. *)
Theorem reload_writes_like_mount_load (net : network) (width height : Q)
    (u : Loader2.uniforms) (d : Q) (reqs : list request) (ks : list nat) :
  let reload :=
    settle_all (Reload2.continue net width height) ks
      (Reload2.start u d, reqs) in
  let load := settle_all (Loader2.continue net width height) ks (u, reqs) in
  Reload2.loaded (fst reload) = fst load /\ snd reload = snd load.
Proof.
  intros reload load. subst reload load.
  change u with (Reload2.loaded (Reload2.start u d)) at 2 4.
  generalize (Reload2.start u d) as x. revert reqs.
  induction ks as [| k ks IH]; intros reqs x; [split; reflexivity |].
  rewrite !settle_all_cons.
  unfold settle_nth at 2 4. unfold settle_nth at 1 2. cbn [fst snd].
  destruct (nth_error reqs k) as [r |]; [| apply IH].
  destruct (reload_simulates net width height r x) as [E1 E2].
  destruct (Reload2.continue net width height r x) as [x' issued].
  destruct (Loader2.continue net width height r (Reload2.loaded x))
    as [u' issued'].
  cbn [fst snd] in E1, E2. subst u' issued'. apply IH.
Qed.

(** Linear arithmetic over the reals, for the shaders. *)
Import Lra.

(** ** Facts about the built-in functions *)

Section BuiltIns.

Local Open Scope R_scope.

Lemma clamp_unit (p : R) : 0 <= p <= 1 -> GLSL.clamp p 0 1 = p.
Proof.
  intros [H0 H1]. unfold GLSL.clamp.
  rewrite (Rmax_left p 0 H0). apply Rmin_left, H1.
Qed.

Lemma smoothstep_unit (p : R) :
  0 <= p <= 1 -> GLSL.smoothstep 0.0 1.0 p = p * p * (3 - 2 * p).
Proof.
  intros Hp. unfold GLSL.smoothstep.
  replace ((p - 0.0) / (1.0 - 0.0)) with p by lra.
  rewrite (clamp_unit p Hp). reflexivity.
Qed.

Lemma smoothstep_range (p : R) :
  0 <= p <= 1 -> 0 <= p * p * (3 - 2 * p) <= 1.
Proof.
  intros [H0 H1]. split.
  - apply Rmult_le_pos; [apply Rmult_le_pos; assumption | lra].
  - assert (H : 0 <= (1 - p) * (1 - p) * (1 + 2 * p)).
    { apply Rmult_le_pos; [apply Rmult_le_pos; lra | lra]. }
    lra.
Qed.

Lemma mix_between (x y s : R) :
  0 <= s <= 1 -> Rmin x y <= GLSL.mix x y s <= Rmax x y.
Proof.
  intros [H0 H1]. unfold GLSL.mix.
  assert (Hminx := Rmin_l x y). assert (Hminy := Rmin_r x y).
  assert (Hmaxx := Rmax_l x y). assert (Hmaxy := Rmax_r x y).
  split.
  - replace (Rmin x y) with (Rmin x y * (1 - s) + Rmin x y * s) by ring.
    apply Rplus_le_compat; apply Rmult_le_compat_r; lra.
  - replace (Rmax x y) with (Rmax x y * (1 - s) + Rmax x y * s) by ring.
    apply Rplus_le_compat; apply Rmult_le_compat_r; lra.
Qed.

Lemma mix4_0 (x y : GLSL.vec4) : GLSL.mix4 x y 0 = x.
Proof.
  destruct x, y. unfold GLSL.mix4, GLSL.mix. cbn.
  f_equal; ring.
Qed.

Lemma mix4_1 (x y : GLSL.vec4) : GLSL.mix4 x y 1 = y.
Proof.
  destruct x, y. unfold GLSL.mix4, GLSL.mix. cbn.
  f_equal; ring.
Qed.

End BuiltIns.

(** ** Claim about the crossfade shader *)

(** C5: for every pixel and every progress in [0, 1] the crossfade
    shader returns, channel by channel, c1 * (1 - s) + c2 * s, where
    s = smoothstep(0, 1, progress) = progress^2 * (3 - 2 * progress) and
    c1, c2 are the samples of the current and of the next image at
    (vUv - 0.5) * scale + 0.5 + offset; at progress 0 this is c1, at
    progress 1 it is c2, and every channel lies between the
    corresponding channels of c1 and c2. *)
Theorem crossfade_is_smoothstep_lerp
    (u : CrossfadeShader.uniforms) (vUv : GLSL.vec2) :
  (0 <= CrossfadeShader.uProgress u <= 1)%R ->
  let p := CrossfadeShader.uProgress u in
  let s := (p * p * (3 - 2 * p))%R in
  let uv := fun scale offset : GLSL.vec2 =>
    GLSL.mkVec2
      ((GLSL.vx vUv - 0.5) * GLSL.vx scale + 0.5 + GLSL.vx offset)%R
      ((GLSL.vy vUv - 0.5) * GLSL.vy scale + 0.5 + GLSL.vy offset)%R in
  let c1 := CrossfadeShader.uTex1 u
              (uv (CrossfadeShader.uImageScale1 u)
                  (CrossfadeShader.uImageOffset1 u)) in
  let c2 := CrossfadeShader.uTex2 u
              (uv (CrossfadeShader.uImageScale2 u)
                  (CrossfadeShader.uImageOffset2 u)) in
  let out := CrossfadeShader.main u vUv in
  GLSL.smoothstep 0 1 p = s /\
  out = GLSL.mkVec4
          (GLSL.cr c1 * (1 - s) + GLSL.cr c2 * s)%R
          (GLSL.cg c1 * (1 - s) + GLSL.cg c2 * s)%R
          (GLSL.cb c1 * (1 - s) + GLSL.cb c2 * s)%R
          (GLSL.ca c1 * (1 - s) + GLSL.ca c2 * s)%R /\
  (p = 0%R -> out = c1) /\
  (p = 1%R -> out = c2) /\
  (Rmin (GLSL.cr c1) (GLSL.cr c2) <= GLSL.cr out
   <= Rmax (GLSL.cr c1) (GLSL.cr c2))%R /\
  (Rmin (GLSL.cg c1) (GLSL.cg c2) <= GLSL.cg out
   <= Rmax (GLSL.cg c1) (GLSL.cg c2))%R /\
  (Rmin (GLSL.cb c1) (GLSL.cb c2) <= GLSL.cb out
   <= Rmax (GLSL.cb c1) (GLSL.cb c2))%R /\
  (Rmin (GLSL.ca c1) (GLSL.ca c2) <= GLSL.ca out
   <= Rmax (GLSL.ca c1) (GLSL.ca c2))%R.
Proof.
  intros Hp p s uv c1 c2 out.
  assert (Hs : GLSL.smoothstep 0.0 1.0 p = s) by (apply smoothstep_unit, Hp).
  assert (Hrange : (0 <= s <= 1)%R) by (apply smoothstep_range, Hp).
  assert (Hout : out = GLSL.mix4 c1 c2 s).
  { subst out. unfold CrossfadeShader.main. fold p. rewrite Hs.
    reflexivity. }
  split; [| split; [| split; [| split]]].
  - rewrite <- Hs. unfold GLSL.smoothstep.
    replace (1.0 - 0.0)%R with (1 - 0)%R by lra.
    replace (p - 0.0)%R with (p - 0)%R by lra. reflexivity.
  - rewrite Hout. reflexivity.
  - intros E. rewrite Hout.
    replace s with 0%R by (subst s; rewrite E; ring).
    apply mix4_0.
  - intros E. rewrite Hout.
    replace s with 1%R by (subst s; rewrite E; ring).
    apply mix4_1.
  - rewrite Hout. cbn [GLSL.mix4 GLSL.cr GLSL.cg GLSL.cb GLSL.ca].
    repeat split; apply mix_between; exact Hrange.
Qed.

Lemma crossfade_is_smoothstep_lerp_witness :
  let red : GLSL.sampler2D := fun _ => GLSL.mkVec4 1 0 0 1 in
  let blue : GLSL.sampler2D := fun _ => GLSL.mkVec4 0 0 1 1 in
  let one := GLSL.mkVec2 1 1 in
  let zero := GLSL.mkVec2 0 0 in
  CrossfadeShader.main
    (CrossfadeShader.mkUniforms red blue 1 one one zero zero)
    (GLSL.mkVec2 (1 / 2) (1 / 2))
  = GLSL.mkVec4 0 0 1 1.
Proof.
  intros red blue one zero.
  assert (Hp : (0 <= 1 <= 1)%R) by (split; lra).
  destruct (crossfade_is_smoothstep_lerp
              (CrossfadeShader.mkUniforms red blue 1 one one zero zero)
              (GLSL.mkVec2 (1 / 2) (1 / 2)) Hp)
    as [_ [_ [_ [Hone _]]]].
  exact (Hone eq_refl).
Defined.

(** ** Claim about the displacement shader *)

(** C7, as stated, fails: with [angle1] supplied and [angle2] not, the
    default of [angle2] is taken from the [angle] prop, not from
    [angle1]. *)
Lemma angle2_default_ignores_angle1 :
  DisplacementShader.uniform_angle1 2 (Some 1%R) = 1%R /\
  DisplacementShader.uniform_angle2 2 None = (-6)%R /\
  ~ DisplacementShader.angle2_defaults_to_minus_three_angle1.
Proof.
  split; [reflexivity | split].
  - unfold DisplacementShader.uniform_angle2. lra.
  - intros H. specialize (H 2%R (Some 1%R)).
    unfold DisplacementShader.uniform_angle2,
      DisplacementShader.uniform_angle1 in H. lra.
Qed.

(** C7, amended: for every pixel and every progress the current image
    is sampled at its fitted UV plus R(angle1) d * intensity1 * progress
    and the next image at its fitted UV plus
    R(angle2) d * intensity2 * (1 - progress), where d is the red and
    green of the displacement map at the pixel and
    R(a) (x, y) = (cos a * x + sin a * y, - sin a * x + cos a * y), a
    rotation, which keeps lengths; the colour is the linear mix of the
    two samples weighted by progress, so that progress 0 shows the
    undistorted current image and progress 1 the undistorted next one.
    An [angle2] that is not supplied defaults to -3 * angle, the common
    [angle] prop; that is -3 * angle1 when [angle1] is not supplied
    either, as with the defaults pi/4 and -3 pi/4. *)
Theorem displacement_shader_spec
    (u : DisplacementShader.uniforms) (vUv : GLSL.vec2) :
  let p := DisplacementShader.dispFactor u in
  let d := DisplacementShader.disp u vUv in
  let rot := fun (a : R) (k : R) =>
    GLSL.mkVec2
      ((cos a * GLSL.cr d + sin a * GLSL.cg d) * k)%R
      ((- sin a * GLSL.cr d + cos a * GLSL.cg d) * k)%R in
  let uv1 := GLSL.fit_uv vUv (DisplacementShader.imageScale1 u)
               (DisplacementShader.imageOffset1 u) in
  let uv2 := GLSL.fit_uv vUv (DisplacementShader.imageScale2 u)
               (DisplacementShader.imageOffset2 u) in
  let off1 := rot (DisplacementShader.angle1 u)
                (DisplacementShader.intensity1 u * p)%R in
  let off2 := rot (DisplacementShader.angle2 u)
                (DisplacementShader.intensity2 u * (1 - p))%R in
  let c1 := DisplacementShader.texture1 u (GLSL.add2 uv1 off1) in
  let c2 := DisplacementShader.texture2 u (GLSL.add2 uv2 off2) in
  let out := DisplacementShader.main u vUv in
  out = GLSL.mkVec4
          (GLSL.cr c1 * (1 - p) + GLSL.cr c2 * p)%R
          (GLSL.cg c1 * (1 - p) + GLSL.cg c2 * p)%R
          (GLSL.cb c1 * (1 - p) + GLSL.cb c2 * p)%R
          (GLSL.ca c1 * (1 - p) + GLSL.ca c2 * p)%R /\
  (forall (a : R) (v : GLSL.vec2),
     GLSL.dot2 (DisplacementShader.mulMV (DisplacementShader.getRotM a) v)
               (DisplacementShader.mulMV (DisplacementShader.getRotM a) v)
     = GLSL.dot2 v v) /\
  (p = 0%R -> out = DisplacementShader.texture1 u uv1) /\
  (p = 1%R -> out = DisplacementShader.texture2 u uv2) /\
  (forall angle : R,
     DisplacementShader.uniform_angle2 angle None = (-3 * angle)%R /\
     DisplacementShader.uniform_angle2 angle None
     = (-3 * DisplacementShader.uniform_angle1 angle None)%R) /\
  (forall angle a1 a2 : R,
     DisplacementShader.uniform_angle1 angle (Some a1) = a1 /\
     DisplacementShader.uniform_angle2 angle (Some a2) = a2) /\
  (DisplacementShader.uniform_angle1 DisplacementShader.default_angle None
   = (PI / 4)%R /\
   DisplacementShader.uniform_angle2 DisplacementShader.default_angle None
   = (-3 * (PI / 4))%R).
Proof.
  intros p d rot uv1 uv2 off1 off2 c1 c2 out.
  assert (E1 : DisplacementShader.distortedPosition1 u vUv
               = GLSL.add2 uv1 off1).
  { unfold DisplacementShader.distortedPosition1. fold uv1.
    f_equal. subst off1 rot.
    unfold DisplacementShader.mulMV, DisplacementShader.getRotM,
      DisplacementShader.dispVec, GLSL.mul2f, GLSL.texture2D.
    cbn. fold d. fold p. f_equal; ring. }
  assert (E2 : DisplacementShader.distortedPosition2 u vUv
               = GLSL.add2 uv2 off2).
  { unfold DisplacementShader.distortedPosition2. fold uv2.
    f_equal. subst off2 rot.
    unfold DisplacementShader.mulMV, DisplacementShader.getRotM,
      DisplacementShader.dispVec, GLSL.mul2f, GLSL.texture2D.
    cbn. fold d. fold p. f_equal; lra. }
  assert (Hout : out = GLSL.mix4 c1 c2 p).
  { subst out. unfold DisplacementShader.main, GLSL.texture2D.
    rewrite E1, E2. reflexivity. }
  split; [| split; [| split; [| split; [| split; [| split]]]]].
  - rewrite Hout. reflexivity.
  - intros a v.
    unfold GLSL.dot2, DisplacementShader.mulMV, DisplacementShader.getRotM.
    cbn. pose proof (sin2_cos2 a) as H. unfold Rsqr in H.
    replace
      ((cos a * GLSL.vx v + sin a * GLSL.vy v)
       * (cos a * GLSL.vx v + sin a * GLSL.vy v)
       + (- sin a * GLSL.vx v + cos a * GLSL.vy v)
         * (- sin a * GLSL.vx v + cos a * GLSL.vy v))%R
      with ((sin a * sin a + cos a * cos a)
            * (GLSL.vx v * GLSL.vx v + GLSL.vy v * GLSL.vy v))%R by ring.
    rewrite H. ring.
  - intros E. rewrite Hout, E. rewrite mix4_0.
    subst c1 off1 rot. cbn beta. rewrite E. f_equal.
    unfold GLSL.add2. destruct uv1 as [x y]. cbn. f_equal; ring.
  - intros E. rewrite Hout, E. rewrite mix4_1.
    subst c2 off2 rot. cbn beta. rewrite E. f_equal.
    unfold GLSL.add2. destruct uv2 as [x y]. cbn. f_equal; ring.
  - intros angle. unfold DisplacementShader.uniform_angle2,
      DisplacementShader.uniform_angle1. split; ring.
  - intros angle a1 a2. split; reflexivity.
  - unfold DisplacementShader.uniform_angle1,
      DisplacementShader.uniform_angle2, DisplacementShader.default_angle.
    split; lra.
Qed.

(** ** Facts about the strength curve of the noise-warp shader *)

Section StrengthCurve.

Local Open Scope R_scope.

Lemma pi_above_literal : 3.14159 < PI.
Proof.
  pose proof (PI_2_3_7_ineq 2) as [H _].
  unfold sum_f_R0, tg_alt, PI_2_3_7_tg, Ratan_seq in H.
  simpl in H. lra.
Qed.

Lemma pi_below : PI < 3.1415927.
Proof.
  pose proof (PI_2_3_7_ineq 3) as [_ H].
  unfold sum_f_R0, tg_alt, PI_2_3_7_tg, Ratan_seq in H.
  simpl in H. lra.
Qed.

Lemma square_le (x b : R) : 0 <= x <= b -> x * x <= b * b.
Proof. intros [H0 H1]. apply Rmult_le_compat; lra. Qed.

Lemma sin_le_arg (x : R) : 0 <= x -> sin x <= x.
Proof.
  intros [H | H].
  - left. apply sin_lt_x, H.
  - subst x. rewrite sin_0. lra.
Qed.

Lemma cos_below_one (x : R) : 0 < x < 2 * PI -> cos x < 1.
Proof.
  intros [H0 H1].
  replace x with (2 * (x / 2)) by field.
  rewrite cos_2a_sin.
  assert (Hs : 0 < sin (x / 2)) by (apply sin_gt_0; lra).
  assert (Hsq : 0 < sin (x / 2) * sin (x / 2)) by (apply Rmult_lt_0_compat; lra).
  lra.
Qed.

Lemma one_minus_cos (x : R) : 0 <= x <= PI -> 1 - cos x <= x * x / 2.
Proof.
  intros [H0 H1].
  replace (cos x) with (cos (2 * (x / 2))) by (f_equal; field).
  rewrite cos_2a_sin.
  assert (Hs0 : 0 <= sin (x / 2)) by (apply sin_ge_0; lra).
  assert (Hs1 : sin (x / 2) <= x / 2) by (apply sin_le_arg; lra).
  pose proof (square_le (sin (x / 2)) (x / 2) (conj Hs0 Hs1)) as Hsq.
  lra.
Qed.

Lemma ease_range (t : R) : 0 <= NoiseShader.easeInOutSine t <= 1.
Proof.
  unfold NoiseShader.easeInOutSine.
  pose proof (COS_bound (3.14159 * t)) as [Hlo Hhi]. lra.
Qed.

Lemma strength_range (p : R) :
  0 <= NoiseShader.displacementStrength p <= NoiseShader.maxStrength.
Proof.
  unfold NoiseShader.displacementStrength, NoiseShader.maxStrength.
  pose proof (ease_range (sin (p * 3.14159))) as [Hlo Hhi]. lra.
Qed.

Lemma strength_at_0 : NoiseShader.displacementStrength 0 = 0.
Proof.
  unfold NoiseShader.displacementStrength, NoiseShader.easeInOutSine.
  rewrite Rmult_0_l, sin_0, Rmult_0_r, cos_0. lra.
Qed.

Lemma sin_literal_bounds : 0 < sin (1 * 3.14159) <= 0.0000027.
Proof.
  pose proof pi_above_literal as Hlo. pose proof pi_below as Hhi.
  replace (1 * 3.14159) with 3.14159 by lra.
  split.
  - apply sin_gt_0; lra.
  - rewrite <- (sin_PI_x 3.14159).
    apply Rle_trans with (PI - 3.14159); [apply sin_le_arg |]; lra.
Qed.

(** In exact arithmetic the strength at progress 1 is not zero, but it
    is below 10^-11, far below the resolution of a 32-bit float: on
    the binary32 numbers it is rounded to 0 ([strength32_at_1]
    below). *)
Lemma strength_at_1 :
  0 < NoiseShader.displacementStrength 1 <= 0.00000000001.
Proof.
  pose proof pi_above_literal as Hpi.
  pose proof sin_literal_bounds as [Hs0 Hs1].
  unfold NoiseShader.displacementStrength, NoiseShader.easeInOutSine,
    NoiseShader.maxStrength.
  set (t := sin (1 * 3.14159)) in *.
  assert (Hx : 0 < 3.14159 * t <= 0.0000085).
  { split; [apply Rmult_lt_0_compat; lra |].
    apply Rle_trans with (3.14159 * 0.0000027); [| lra].
    apply Rmult_le_compat_l; lra. }
  split.
  - assert (H : cos (3.14159 * t) < 1) by (apply cos_below_one; lra).
    lra.
  - assert (H : 1 - cos (3.14159 * t) <= (3.14159 * t) * (3.14159 * t) / 2)
      by (apply one_minus_cos; lra).
    assert (Hsq : (3.14159 * t) * (3.14159 * t) <= 0.0000085 * 0.0000085)
      by (apply square_le; lra).
    lra.
Qed.

(** At progress 0.5 the strength is within 1e-11 of [maxStrength]. *)
Lemma strength_at_half :
  NoiseShader.maxStrength - 0.00000000001
  <= NoiseShader.displacementStrength 0.5.
Proof.
  pose proof pi_above_literal as Hlo. pose proof pi_below as Hhi.
  unfold NoiseShader.displacementStrength, NoiseShader.easeInOutSine,
    NoiseShader.maxStrength.
  replace (0.5 * 3.14159) with (PI / 2 - (PI / 2 - 1.570795)) by lra.
  rewrite sin_shift.
  set (d := PI / 2 - 1.570795).
  assert (Hd : 0 <= d <= 0.0000014) by (unfold d; lra).
  assert (Hc1 : 1 - cos d <= d * d / 2) by (apply one_minus_cos; lra).
  assert (Hdd : d * d <= 0.0000014 * 0.0000014) by (apply square_le; lra).
  pose proof (COS_bound d) as [_ Hc2].
  set (s := cos d) in *.
  replace (cos (3.14159 * s)) with (- cos (PI - 3.14159 * s))
    by (rewrite Rtrigo_facts.cos_pi_minus; ring).
  set (e := PI - 3.14159 * s).
  assert (He : 0 <= e <= 0.0000028) by (unfold e; lra).
  assert (Hc3 : 1 - cos e <= e * e / 2) by (apply one_minus_cos; lra).
  assert (Hee : e * e <= 0.0000028 * 0.0000028) by (apply square_le; lra).
  lra.
Qed.

(** With the number pi in place of the literal the curve would start
    and end at exactly 0 and reach [maxStrength] at progress 0.5. *)
Lemma strength_with_pi :
  NoiseShader.strength_pi 0 = 0 /\
  NoiseShader.strength_pi 1 = 0 /\
  NoiseShader.strength_pi (1 / 2) = NoiseShader.maxStrength.
Proof.
  unfold NoiseShader.strength_pi, NoiseShader.ease_pi,
    NoiseShader.maxStrength.
  split; [| split].
  - rewrite Rmult_0_l, sin_0, Rmult_0_r, cos_0. lra.
  - rewrite Rmult_1_l, sin_PI, Rmult_0_r, cos_0. lra.
  - replace (1 / 2 * PI) with (PI / 2) by lra.
    rewrite sin_PI2, Rmult_1_r, cos_PI. lra.
Qed.

End StrengthCurve.

(** ** [floor] *)

Section FloorFacts.

Local Open Scope R_scope.

Lemma floor_val (x : R) (n : Z) :
  IZR n <= x < IZR n + 1 -> GLSL.floor x = IZR n.
Proof.
  intros [H0 H1]. unfold GLSL.floor. f_equal. symmetry.
  apply Int_part_spec. split; lra.
Qed.

End FloorFacts.

(** ** Rounding to binary32 *)

Section Binary32.

Local Open Scope R_scope.




Lemma pow2_lt (a b : Z) : (a < b)%Z -> powerRZ 2 a < powerRZ 2 b.
Proof.
  intros H. rewrite !powerRZ_Rpower by lra.
  apply Rpower_lt; [lra | apply IZR_lt, H].
Qed.












Lemma round_0 : Float32.round 0 = 0.
Proof.
  unfold Float32.round. destruct (Req_dec_T 0 0); [reflexivity | lra].
Qed.







Lemma representable_dyadic (m e : Z) :
  (Z.abs m <= 2 ^ 24)%Z -> (-149 <= e)%Z ->
  Float32.representable (IZR m * powerRZ 2 e).
Proof. intros Hm He. exists m, e. repeat split; assumption. Qed.


End Binary32.

(** ** The strength curve of the noise-warp shader on 32-bit floats *)

Section Strength32.

Local Open Scope R_scope.






Lemma literal_0 : Float32.literal 0.0 = 0.
Proof.
  unfold Float32.literal. replace 0.0 with 0 by lra. apply round_0.
Qed.
























End Strength32.

(** ** Claim about the noise-warp shader *)






(** ** The part of the picture that is drawn *)

Lemma fit_offsets_zero (a c : Q) :
  Fitter.offsetX (Fitter.calculateFitParams a c) = 0 /\
  Fitter.offsetY (Fitter.calculateFitParams a c) = 0.
Proof.
  unfold Fitter.calculateFitParams.
  destruct (Fitter.gt_bool a c); split; reflexivity.
Qed.

Lemma Q2R_unit (q : Q) : 0 < q -> q <= 1 -> (0 < Q2R q <= 1)%R.
Proof.
  intros H0 H1. split.
  - rewrite <- RMicromega.Q2R_0. apply Qlt_Rlt, H0.
  - rewrite <- RMicromega.Q2R_1. apply Qle_Rle, H1.
Qed.

Lemma window_bound (x s : R) :
  (0 <= x <= 1)%R -> (0 < s <= 1)%R ->
  (Rabs ((x - 0.5) * s + 0.5 + 0 - 0.5) <= s / 2)%R /\
  (0 <= (x - 0.5) * s + 0.5 + 0 <= 1)%R.
Proof.
  intros [Hx0 Hx1] [Hs0 Hs1].
  assert (Hlo : (- (s / 2) <= (x - 0.5) * s)%R) by nra.
  assert (Hhi : ((x - 0.5) * s <= s / 2)%R) by nra.
  split.
  - apply Rabs_le. lra.
  - lra.
Qed.

(** X12: with the fit parameters of [calculateFitParams] the shaders
    crop, they do not letterbox.  For positive aspect ratios every
    pixel of the canvas samples the image inside the image: the fitted
    UV lies in the unit square, within scaleX / 2 and scaleY / 2 of the
    centre (0.5, 0.5).  The centre of the canvas shows the centre of
    the image, and the corners of the canvas show the corners of that
    centred window, which is scaleX of the image wide and scaleY of it
    high. *)
Theorem fitted_uv_stays_inside (a c : Q) (vUv : GLSL.vec2) :
  0 < a -> 0 < c ->
  (0 <= GLSL.vx vUv <= 1)%R -> (0 <= GLSL.vy vUv <= 1)%R ->
  let f := Fitter.calculateFitParams a c in
  let sx := Q2R (Fitter.scaleX f) in
  let sy := Q2R (Fitter.scaleY f) in
  let scale := upload (Fitter.scaleX f, Fitter.scaleY f) in
  let offset := upload (Fitter.offsetX f, Fitter.offsetY f) in
  let uv := GLSL.fit_uv vUv scale offset in
  (0 <= GLSL.vx uv <= 1)%R /\ (0 <= GLSL.vy uv <= 1)%R /\
  (Rabs (GLSL.vx uv - 0.5) <= sx / 2)%R /\
  (Rabs (GLSL.vy uv - 0.5) <= sy / 2)%R /\
  GLSL.fit_uv (GLSL.mkVec2 0.5 0.5) scale offset = GLSL.mkVec2 0.5 0.5 /\
  GLSL.fit_uv (GLSL.mkVec2 0 0) scale offset
  = GLSL.mkVec2 ((1 - sx) / 2) ((1 - sy) / 2) /\
  GLSL.fit_uv (GLSL.mkVec2 1 1) scale offset
  = GLSL.mkVec2 ((1 + sx) / 2) ((1 + sy) / 2).
Proof.
  intros Ha Hc Hx Hy f sx sy scale offset uv.
  destruct (fit_scales_in_unit a c Ha Hc) as [[HX0 HX1] [HY0 HY1]].
  destruct (fit_offsets_zero a c) as [OX OY].
  fold f in HX0, HX1, HY0, HY1, OX, OY.
  pose proof (Q2R_unit _ HX0 HX1) as Hsx. fold sx in Hsx.
  pose proof (Q2R_unit _ HY0 HY1) as Hsy. fold sy in Hsy.
  assert (Eoff : offset = GLSL.mkVec2 0 0).
  { subst offset. unfold upload. cbn [fst snd]. rewrite OX, OY.
    rewrite RMicromega.Q2R_0. reflexivity. }
  assert (Euv : forall p : GLSL.vec2,
            GLSL.fit_uv p scale offset
            = GLSL.mkVec2 ((GLSL.vx p - 0.5) * sx + 0.5 + 0)%R
                          ((GLSL.vy p - 0.5) * sy + 0.5 + 0)%R).
  { intros p. rewrite Eoff. reflexivity. }
  destruct (window_bound (GLSL.vx vUv) sx Hx Hsx) as [Bx Rx].
  destruct (window_bound (GLSL.vy vUv) sy Hy Hsy) as [By Ry].
  subst uv. rewrite !Euv. cbn [GLSL.vx GLSL.vy].
  split; [exact Rx | split; [exact Ry |]].
  split; [exact Bx | split; [exact By |]].
  split; [f_equal; lra | split; f_equal; lra].
Qed.

Lemma fitted_uv_stays_inside_witness :
  let f := Fitter.calculateFitParams (2 # 1) (16 # 9) in
  (0 <= GLSL.vx (GLSL.fit_uv (GLSL.mkVec2 1 0)
                   (upload (Fitter.scaleX f, Fitter.scaleY f))
                   (upload (Fitter.offsetX f, Fitter.offsetY f))) <= 1)%R.
Proof.
  intros f.
  refine (proj1 (fitted_uv_stays_inside (2 # 1) (16 # 9) (GLSL.mkVec2 1 0)
                   _ _ _ _)).
  - reflexivity.
  - reflexivity.
  - cbn. lra.
  - cbn. lra.
Defined.

(** ** The rotation of the displacement shader *)

Lemma rot_apply (a : R) (v : GLSL.vec2) :
  DisplacementShader.mulMV (DisplacementShader.getRotM a) v
  = GLSL.mkVec2 (cos a * GLSL.vx v + sin a * GLSL.vy v)%R
                (- sin a * GLSL.vx v + cos a * GLSL.vy v)%R.
Proof. reflexivity. Qed.

(** X13: [getRotM] is a rotation about the origin.  The angle 0 gives
    the identity; rotating by [b] and then by [a] is rotating by
    [a + b]; the angle [- a] undoes the angle [a]; half a turn more
    negates the result.  With the default props (angle1 = pi/4,
    angle2 = -3 pi/4) the two images are therefore displaced in exactly
    opposite directions. *)
Theorem rotation_composes (a b : R) (v : GLSL.vec2) :
  let rot := fun angle w =>
    DisplacementShader.mulMV (DisplacementShader.getRotM angle) w in
  rot 0%R v = v /\
  rot a (rot b v) = rot (a + b)%R v /\
  rot (- a)%R (rot a v) = v /\
  rot (a + PI)%R v = GLSL.mul2f (rot a v) (-1) /\
  rot (DisplacementShader.uniform_angle2 DisplacementShader.default_angle
         None) v
  = GLSL.mul2f
      (rot (DisplacementShader.uniform_angle1
              DisplacementShader.default_angle None) v) (-1).
Proof.
  intros rot. subst rot. cbv beta. destruct v as [x y].
  rewrite !rot_apply. cbn [GLSL.vx GLSL.vy].
  split; [| split; [| split; [| split]]].
  - rewrite cos_0, sin_0. f_equal; ring.
  - rewrite cos_plus, sin_plus. f_equal; ring.
  - rewrite cos_neg, sin_neg.
    pose proof (sin2_cos2 a) as H. unfold Rsqr in H.
    f_equal.
    + replace (cos a * (cos a * x + sin a * y)
               + - sin a * (- sin a * x + cos a * y))%R
        with ((sin a * sin a + cos a * cos a) * x)%R by ring.
      rewrite H. ring.
    + replace (- - sin a * (cos a * x + sin a * y)
               + cos a * (- sin a * x + cos a * y))%R
        with ((sin a * sin a + cos a * cos a) * y)%R by ring.
      rewrite H. ring.
  - rewrite neg_cos, neg_sin. unfold GLSL.mul2f. cbn [GLSL.vx GLSL.vy].
    f_equal; ring.
  - unfold DisplacementShader.uniform_angle2,
      DisplacementShader.uniform_angle1, DisplacementShader.default_angle,
      GLSL.mul2f.
    cbn [GLSL.vx GLSL.vy].
    replace (- (PI / 4) * 3)%R with (- (PI - PI / 4))%R by lra.
    rewrite cos_neg, sin_neg, Rtrigo_facts.cos_pi_minus, sin_PI_x.
    f_equal; ring.
Qed.

(** ** The noise-warp shader without its warp *)

Lemma add2_zero (v : GLSL.vec2) : GLSL.add2 v (GLSL.mkVec2 0 0) = v.
Proof. destruct v as [x y]. unfold GLSL.add2. cbn. f_equal; ring. Qed.

(** X14: when [uNoiseIntensity] is 0, or at progress 0, where the
    strength of the warp is exactly 0, the noise-warp shader of
    [ThreeImageSlider3] computes for every pixel the colour that the
    crossfade shader of [ThreeImageSlider] computes from the same
    textures, progress, scales and offsets. *)
Theorem noise_shader_without_warp (u : NoiseShader.uniforms)
    (vUv : GLSL.vec2) :
  NoiseShader.uNoiseIntensity u = 0%R \/ NoiseShader.uProgress u = 0%R ->
  NoiseShader.displacement u vUv = GLSL.mkVec2 0 0 /\
  NoiseShader.main u vUv = CrossfadeShader.main (crossfade_part u) vUv.
Proof.
  intros H.
  assert (Hd : NoiseShader.displacement u vUv = GLSL.mkVec2 0 0).
  { unfold NoiseShader.displacement, GLSL.mul2f. cbn [GLSL.vx GLSL.vy].
    destruct H as [H | H]; rewrite H.
    - f_equal; ring.
    - rewrite strength_at_0. f_equal; ring. }
  split; [exact Hd |].
  unfold NoiseShader.main, CrossfadeShader.main, NoiseShader.distortedUV1,
    NoiseShader.distortedUV2, crossfade_part.
  cbn [CrossfadeShader.uTex1 CrossfadeShader.uTex2 CrossfadeShader.uProgress
       CrossfadeShader.uImageScale1 CrossfadeShader.uImageScale2
       CrossfadeShader.uImageOffset1 CrossfadeShader.uImageOffset2].
  rewrite Hd, !add2_zero. reflexivity.
Qed.

Lemma noise_shader_without_warp_witness :
  NoiseShader.main
    (NoiseShader.mkUniforms
       (fun _ => GLSL.mkVec4 1 0 0 1) (fun _ => GLSL.mkVec4 0 0 1 1)
       0 0 3 0.1
       (GLSL.mkVec2 1 1) (GLSL.mkVec2 1 1) (GLSL.mkVec2 0 0) (GLSL.mkVec2 0 0))
    (GLSL.mkVec2 0.5 0.5)
  = CrossfadeShader.main
      (CrossfadeShader.mkUniforms
         (fun _ => GLSL.mkVec4 1 0 0 1) (fun _ => GLSL.mkVec4 0 0 1 1)
         0
         (GLSL.mkVec2 1 1) (GLSL.mkVec2 1 1) (GLSL.mkVec2 0 0)
         (GLSL.mkVec2 0 0))
      (GLSL.mkVec2 0.5 0.5).
Proof.
  refine (proj2 (noise_shader_without_warp
                   (NoiseShader.mkUniforms
                      (fun _ => GLSL.mkVec4 1 0 0 1)
                      (fun _ => GLSL.mkVec4 0 0 1 1)
                      0 0 3 0.1
                      (GLSL.mkVec2 1 1) (GLSL.mkVec2 1 1)
                      (GLSL.mkVec2 0 0) (GLSL.mkVec2 0 0))
                   (GLSL.mkVec2 0.5 0.5) _)).
  right. reflexivity.
Defined.

(** ** The remainder modulo 289 *)

Section Mod289.

Local Open Scope R_scope.

Lemma floor_bounds (x : R) : GLSL.floor x <= x < GLSL.floor x + 1.
Proof.
  unfold GLSL.floor. destruct (base_Int_part x) as [H0 H1]. split; lra.
Qed.

Lemma floor_succ (x : R) : GLSL.floor (x + 1) = GLSL.floor x + 1.
Proof.
  destruct (floor_bounds x) as [H0 H1].
  unfold GLSL.floor at 2. rewrite <- plus_IZR.
  apply floor_val. rewrite plus_IZR. fold (GLSL.floor x). split; lra.
Qed.

Lemma mod289_lane_range (x : R) :
  0 <= x - GLSL.floor (x * (1.0 / 289.0)) * 289.0 < 289.
Proof.
  destruct (floor_bounds (x * (1.0 / 289.0))) as [H0 H1]. split; lra.
Qed.

Lemma mod289_lane_fix (x : R) :
  0 <= x < 289 -> x - GLSL.floor (x * (1.0 / 289.0)) * 289.0 = x.
Proof.
  intros H. rewrite (floor_val _ 0) by (split; lra). lra.
Qed.

Lemma mod289_lane_period (x : R) :
  (x + 289) - GLSL.floor ((x + 289) * (1.0 / 289.0)) * 289.0
  = x - GLSL.floor (x * (1.0 / 289.0)) * 289.0.
Proof.
  replace ((x + 289) * (1.0 / 289.0)) with (x * (1.0 / 289.0) + 1) by lra.
  rewrite floor_succ. lra.
Qed.

End Mod289.

(** X15: [mod289] computes the remainder modulo 289.  Every lane of
    its result lies in [0, 289); a vector whose lanes are already there
    is returned unchanged, so that [mod289] is idempotent; adding 289 to
    every lane does not change the result.  Hence every lane of
    [permute], which ends with [mod289], lies in [0, 289) too, whatever
    its argument. *)
Theorem mod289_is_a_remainder (x : GLSL.vec3) (v : GLSL.vec2) :
  let inside := fun r : R => (0 <= r < 289)%R in
  let inside3 := fun a : GLSL.vec3 =>
    inside (GLSL.x3 a) /\ inside (GLSL.y3 a) /\ inside (GLSL.z3 a) in
  inside3 (NoiseShader.mod289_3 x) /\
  (inside (GLSL.vx (NoiseShader.mod289_2 v)) /\
   inside (GLSL.vy (NoiseShader.mod289_2 v))) /\
  inside3 (NoiseShader.permute x) /\
  (inside3 x -> NoiseShader.mod289_3 x = x) /\
  NoiseShader.mod289_3 (NoiseShader.mod289_3 x) = NoiseShader.mod289_3 x /\
  NoiseShader.mod289_3 (NoiseShader.add3f x 289) = NoiseShader.mod289_3 x /\
  NoiseShader.mod289_2 (GLSL.add2f v 289) = NoiseShader.mod289_2 v.
Proof.
  intros inside inside3.
  assert (Hrange : forall a : GLSL.vec3, inside3 (NoiseShader.mod289_3 a)).
  { intros a. subst inside3 inside. cbv beta.
    unfold NoiseShader.mod289_3, NoiseShader.sub3, NoiseShader.mul3f,
      NoiseShader.floor3.
    cbn [GLSL.x3 GLSL.y3 GLSL.z3].
    split; [| split]; apply mod289_lane_range. }
  assert (Hfix : forall a : GLSL.vec3,
            inside3 a -> NoiseShader.mod289_3 a = a).
  { intros [ax ay az] [Hx [Hy Hz]]. subst inside. cbn in Hx, Hy, Hz.
    unfold NoiseShader.mod289_3, NoiseShader.sub3, NoiseShader.mul3f,
      NoiseShader.floor3.
    cbn [GLSL.x3 GLSL.y3 GLSL.z3].
    f_equal; apply mod289_lane_fix; assumption. }
  split; [apply Hrange | split; [| split; [| split; [| split; [| split]]]]].
  - subst inside. cbv beta.
    unfold NoiseShader.mod289_2, GLSL.sub2, GLSL.mul2f, NoiseShader.floor2.
    cbn [GLSL.vx GLSL.vy].
    split; apply mod289_lane_range.
  - unfold NoiseShader.permute. apply Hrange.
  - apply Hfix.
  - apply Hfix, Hrange.
  - unfold NoiseShader.mod289_3, NoiseShader.sub3, NoiseShader.mul3f,
      NoiseShader.floor3, NoiseShader.add3f.
    cbn [GLSL.x3 GLSL.y3 GLSL.z3].
    f_equal; apply mod289_lane_period.
  - unfold NoiseShader.mod289_2, GLSL.sub2, GLSL.mul2f, NoiseShader.floor2,
      GLSL.add2f.
    cbn [GLSL.vx GLSL.vy].
    f_equal; apply mod289_lane_period.
Qed.

(** ** The easing functions of the noise-warp shader *)

Section PolynomialEasing.

Local Open Scope R_scope.

(** On a base that is not negative, [pow] with a whole exponent of at
    least 1 is the repeated product. *)
Lemma pow_whole (x : R) (n : nat) :
  0 <= x -> (1 <= n)%nat -> Easing.pow x (INR n) = x ^ n.
Proof.
  intros Hx Hn. unfold Easing.pow.
  destruct (Req_dec_T x 0) as [E | E].
  - subst x. symmetry. apply pow_i. lia.
  - apply Rpower_pow. lra.
Qed.

Variables (f : R -> R) (n : nat).
Hypothesis n_pos : (1 <= n)%nat.
Hypothesis f_shape :
  forall t : R, t <= 1 ->
    f t = if Rlt_dec t 0.5 then (2 * t) ^ n / 2
          else 1 - (2 - 2 * t) ^ n / 2.

Lemma shape_low (t : R) : 0 <= t < 0.5 -> f t = (2 * t) ^ n / 2.
Proof.
  intros [H0 H1]. rewrite f_shape by lra.
  destruct (Rlt_dec t 0.5); [reflexivity | lra].
Qed.

Lemma shape_high (t : R) : 0.5 <= t <= 1 -> f t = 1 - (2 - 2 * t) ^ n / 2.
Proof.
  intros [H0 H1]. rewrite f_shape by lra.
  destruct (Rlt_dec t 0.5); [lra | reflexivity].
Qed.

Lemma pow_unit (x : R) : 0 <= x <= 1 -> 0 <= x ^ n <= 1.
Proof.
  intros [H0 H1]. split; [apply pow_le, H0 |].
  rewrite <- (pow1 n). apply pow_incr. split; assumption.
Qed.

Lemma shape_low_range (t : R) : 0 <= t < 0.5 -> 0 <= f t <= 0.5.
Proof.
  intros H. rewrite (shape_low t H).
  assert (Hp : 0 <= (2 * t) ^ n <= 1) by (apply pow_unit; lra). lra.
Qed.

Lemma shape_high_range (t : R) : 0.5 <= t <= 1 -> 0.5 <= f t <= 1.
Proof.
  intros H. rewrite (shape_high t H).
  assert (Hp : 0 <= (2 - 2 * t) ^ n <= 1) by (apply pow_unit; lra). lra.
Qed.

Lemma shape_at_0 : f 0 = 0.
Proof.
  rewrite shape_low by lra. rewrite Rmult_0_r, pow_i by lia. lra.
Qed.

Lemma shape_at_half : f 0.5 = 0.5.
Proof.
  rewrite shape_high by lra.
  replace (2 - 2 * 0.5) with 1 by lra. rewrite pow1. lra.
Qed.

Lemma shape_at_1 : f 1 = 1.
Proof.
  rewrite shape_high by lra.
  replace (2 - 2 * 1) with 0 by lra. rewrite pow_i by lia. lra.
Qed.

Lemma shape_range (t : R) : 0 <= t <= 1 -> 0 <= f t <= 1.
Proof.
  intros [H0 H1]. destruct (Rlt_dec t 0.5) as [H | H].
  - assert (Hr : 0 <= f t <= 0.5) by (apply shape_low_range; lra). lra.
  - assert (Hr : 0.5 <= f t <= 1) by (apply shape_high_range; lra). lra.
Qed.

Lemma shape_symmetric (t : R) : 0 <= t <= 1 -> f (1 - t) = 1 - f t.
Proof.
  intros [H0 H1]. destruct (Rlt_dec t 0.5) as [H | H].
  - rewrite (shape_high (1 - t)) by lra. rewrite (shape_low t) by lra.
    replace (2 - 2 * (1 - t)) with (2 * t) by lra. reflexivity.
  - destruct (Rlt_dec 0.5 t) as [H' | H'].
    + rewrite (shape_low (1 - t)) by lra. rewrite (shape_high t) by lra.
      replace (2 * (1 - t)) with (2 - 2 * t) by lra. lra.
    + replace t with 0.5 by lra. replace (1 - 0.5) with 0.5 by lra.
      rewrite shape_at_half. lra.
Qed.

Lemma shape_monotone (t t' : R) : 0 <= t -> t <= t' -> t' <= 1 -> f t <= f t'.
Proof.
  intros H0 Hle H1.
  destruct (Rlt_dec t 0.5) as [H | H]; destruct (Rlt_dec t' 0.5) as [H' | H'].
  - rewrite (shape_low t), (shape_low t') by lra.
    assert (Hp : (2 * t) ^ n <= (2 * t') ^ n) by (apply pow_incr; lra).
    lra.
  - assert (Hr : 0 <= f t <= 0.5) by (apply shape_low_range; lra).
    assert (Hr' : 0.5 <= f t' <= 1) by (apply shape_high_range; lra).
    lra.
  - lra.
  - rewrite (shape_high t), (shape_high t') by lra.
    assert (Hp : (2 - 2 * t') ^ n <= (2 - 2 * t) ^ n)
      by (apply pow_incr; lra).
    lra.
Qed.

End PolynomialEasing.

Section TheFourEasings.

Local Open Scope R_scope.

Lemma quad_shape (t : R) :
  t <= 1 ->
  Easing.easeInOutQuad t
  = if Rlt_dec t 0.5 then (2 * t) ^ 2 / 2 else 1 - (2 - 2 * t) ^ 2 / 2.
Proof.
  intros H. unfold Easing.easeInOutQuad.
  destruct (Rlt_dec t 0.5); [lra |].
  replace 2.0 with (INR 2) at 2 by (simpl; lra).
  rewrite pow_whole by (try lia; lra).
  replace (-2.0 * t + INR 2) with (2 - 2 * t) by (simpl; lra). lra.
Qed.

Lemma cubic_shape (t : R) :
  t <= 1 ->
  Easing.easeInOutCubic t
  = if Rlt_dec t 0.5 then (2 * t) ^ 3 / 2 else 1 - (2 - 2 * t) ^ 3 / 2.
Proof.
  intros H. unfold Easing.easeInOutCubic.
  destruct (Rlt_dec t 0.5); [lra |].
  replace 3.0 with (INR 3) by (simpl; lra).
  rewrite pow_whole by (try lia; lra).
  replace (-2.0 * t + 2.0) with (2 - 2 * t) by lra. lra.
Qed.

Lemma quart_shape (t : R) :
  t <= 1 ->
  Easing.easeInOutQuart t
  = if Rlt_dec t 0.5 then (2 * t) ^ 4 / 2 else 1 - (2 - 2 * t) ^ 4 / 2.
Proof.
  intros H. unfold Easing.easeInOutQuart.
  destruct (Rlt_dec t 0.5); [lra |].
  replace 4.0 with (INR 4) by (simpl; lra).
  rewrite pow_whole by (try lia; lra).
  replace (-2.0 * t + 2.0) with (2 - 2 * t) by lra. lra.
Qed.

Lemma quint_shape (t : R) :
  t <= 1 ->
  Easing.easeInOutQuint t
  = if Rlt_dec t 0.5 then (2 * t) ^ 5 / 2 else 1 - (2 - 2 * t) ^ 5 / 2.
Proof.
  intros H. unfold Easing.easeInOutQuint.
  destruct (Rlt_dec t 0.5); [lra |].
  replace 5.0 with (INR 5) by (simpl; lra).
  rewrite pow_whole by (try lia; lra).
  replace (-2.0 * t + 2.0) with (2 - 2 * t) by lra. lra.
Qed.

Lemma polynomial_shape (f : R -> R) :
  In f Easing.polynomial ->
  exists n : nat,
    (1 <= n)%nat /\
    forall t : R, t <= 1 ->
      f t = if Rlt_dec t 0.5 then (2 * t) ^ n / 2
            else 1 - (2 - 2 * t) ^ n / 2.
Proof.
  intros [E | [E | [E | [E | []]]]]; subst f.
  - exists 2%nat. split; [lia | apply quad_shape].
  - exists 3%nat. split; [lia | apply cubic_shape].
  - exists 4%nat. split; [lia | apply quart_shape].
  - exists 5%nat. split; [lia | apply quint_shape].
Qed.

End TheFourEasings.

(** X16: each of the four polynomial easings declared in the shader of
    [ThreeImageSlider3] ([easeInOutQuad], [easeInOutCubic],
    [easeInOutQuart], [easeInOutQuint]) is an ease-in-out curve on
    [0, 1]: it maps 0 to 0, 0.5 to 0.5 and 1 to 1, stays within [0, 1],
    never decreases, and is symmetric about the midpoint,
    f(1 - t) = 1 - f(t); its two branches meet at 0.5. *)
Theorem polynomial_easings_ease (f : R -> R) (t t' : R) :
  In f Easing.polynomial ->
  (0 <= t)%R -> (t <= t')%R -> (t' <= 1)%R ->
  f 0%R = 0%R /\ f 0.5%R = 0.5%R /\ f 1%R = 1%R /\
  (0 <= f t <= 1)%R /\
  (f t <= f t')%R /\
  f (1 - t)%R = (1 - f t)%R.
Proof.
  intros Hf H0 Hle H1.
  destruct (polynomial_shape f Hf) as [n [Hn Hshape]].
  split; [exact (shape_at_0 f n Hn Hshape) |].
  split; [exact (shape_at_half f n Hshape) |].
  split; [exact (shape_at_1 f n Hn Hshape) |].
  split; [apply (shape_range f n Hshape); lra |].
  split; [apply (shape_monotone f n Hshape); assumption |].
  apply (shape_symmetric f n Hshape); lra.
Qed.

Lemma polynomial_easings_ease_witness :
  (Easing.easeInOutCubic 0.25 <= Easing.easeInOutCubic 0.75)%R.
Proof.
  refine (proj1 (proj2 (proj2 (proj2 (proj2
            (polynomial_easings_ease Easing.easeInOutCubic 0.25 0.75
               _ _ _ _)))))).
  - right. left. reflexivity.
  - lra.
  - lra.
  - lra.
Defined.

Section ExponentialEasing.

Local Open Scope R_scope.

Lemma pow_two (y : R) : Easing.pow 2.0 y = Rpower 2 y.
Proof.
  unfold Easing.pow. destruct (Req_dec_T 2.0 0) as [E | _]; [lra |].
  f_equal. lra.
Qed.

Lemma two_to_minus_ten : Rpower 2 (- 10) = / 1024.
Proof.
  replace (- 10) with (- INR 10) by (simpl; lra).
  rewrite Rpower_Ropp. f_equal.
  rewrite Rpower_pow by lra. simpl. lra.
Qed.

Lemma two_power_bounds (y : R) :
  - 10 < y -> y <= 0 -> / 1024 < Rpower 2 y <= 1.
Proof.
  intros H0 H1. split.
  - rewrite <- two_to_minus_ten. apply Rpower_lt; lra.
  - rewrite <- (Rpower_O 2) by lra. apply Rle_Rpower; lra.
Qed.

Lemma expo_low (t : R) :
  0 < t < 0.5 -> Easing.easeInOutExpo t = Rpower 2 (20 * t - 10) / 2.
Proof.
  intros [H0 H1]. unfold Easing.easeInOutExpo.
  destruct (Req_dec_T t 0.0) as [E | _]; [lra |].
  destruct (Req_dec_T t 1.0) as [E | _]; [lra |].
  destruct (Rlt_dec t 0.5) as [_ | H]; [| lra].
  rewrite pow_two.
  replace (20.0 * t - 10.0) with (20 * t - 10) by lra. lra.
Qed.

Lemma expo_high (t : R) :
  0.5 <= t < 1 -> Easing.easeInOutExpo t = 1 - Rpower 2 (10 - 20 * t) / 2.
Proof.
  intros [H0 H1]. unfold Easing.easeInOutExpo.
  destruct (Req_dec_T t 0.0) as [E | _]; [lra |].
  destruct (Req_dec_T t 1.0) as [E | _]; [lra |].
  destruct (Rlt_dec t 0.5) as [H | _]; [lra |].
  rewrite pow_two.
  replace (-20.0 * t + 10.0) with (10 - 20 * t) by lra. lra.
Qed.

Lemma expo_at_0 : Easing.easeInOutExpo 0 = 0.
Proof.
  unfold Easing.easeInOutExpo.
  destruct (Req_dec_T 0 0.0) as [_ | H]; lra.
Qed.

Lemma expo_at_1 : Easing.easeInOutExpo 1 = 1.
Proof.
  unfold Easing.easeInOutExpo.
  destruct (Req_dec_T 1 0.0) as [H | _]; [lra |].
  destruct (Req_dec_T 1 1.0) as [_ | H]; lra.
Qed.

Lemma expo_low_range (t : R) :
  0 < t < 0.5 -> / 2048 < Easing.easeInOutExpo t < 0.5.
Proof.
  intros H. rewrite (expo_low t H).
  assert (Hp : / 1024 < Rpower 2 (20 * t - 10) <= 1)
    by (apply two_power_bounds; lra).
  assert (Hs : Rpower 2 (20 * t - 10) < Rpower 2 0)
    by (apply Rpower_lt; lra).
  rewrite Rpower_O in Hs by lra. lra.
Qed.

Lemma expo_high_range (t : R) :
  0.5 <= t < 1 -> 0.5 <= Easing.easeInOutExpo t < 1 - / 2048.
Proof.
  intros H. rewrite (expo_high t H).
  assert (Hp : / 1024 < Rpower 2 (10 - 20 * t) <= 1)
    by (apply two_power_bounds; lra).
  lra.
Qed.

Lemma expo_inner_range (t : R) :
  0 < t < 1 -> / 2048 < Easing.easeInOutExpo t < 1 - / 2048.
Proof.
  intros [H0 H1]. destruct (Rlt_dec t 0.5) as [H | H].
  - assert (Hr : / 2048 < Easing.easeInOutExpo t < 0.5)
      by (apply expo_low_range; lra).
    lra.
  - assert (Hr : 0.5 <= Easing.easeInOutExpo t < 1 - / 2048)
      by (apply expo_high_range; lra).
    lra.
Qed.

Lemma expo_range (t : R) : 0 <= t <= 1 -> 0 <= Easing.easeInOutExpo t <= 1.
Proof.
  intros [H0 H1].
  destruct (Req_dec_T t 0) as [E | E0]; [subst t; rewrite expo_at_0; lra |].
  destruct (Req_dec_T t 1) as [E | E1]; [subst t; rewrite expo_at_1; lra |].
  assert (Hr : / 2048 < Easing.easeInOutExpo t < 1 - / 2048)
    by (apply expo_inner_range; lra).
  lra.
Qed.

Lemma expo_at_half : Easing.easeInOutExpo 0.5 = 0.5.
Proof.
  rewrite expo_high by lra.
  replace (10 - 20 * 0.5) with 0 by lra. rewrite Rpower_O by lra. lra.
Qed.

Lemma expo_symmetric (t : R) :
  0 <= t <= 1 -> Easing.easeInOutExpo (1 - t) = 1 - Easing.easeInOutExpo t.
Proof.
  intros [H0 H1].
  destruct (Req_dec_T t 0) as [E | E0].
  { subst t. replace (1 - 0) with 1 by lra.
    rewrite expo_at_0, expo_at_1. lra. }
  destruct (Req_dec_T t 1) as [E | E1].
  { subst t. replace (1 - 1) with 0 by lra.
    rewrite expo_at_0, expo_at_1. lra. }
  destruct (Rlt_dec t 0.5) as [H | H].
  - rewrite (expo_high (1 - t)), (expo_low t) by lra.
    replace (10 - 20 * (1 - t)) with (20 * t - 10) by lra. reflexivity.
  - destruct (Rlt_dec 0.5 t) as [H' | H'].
    + rewrite (expo_low (1 - t)), (expo_high t) by lra.
      replace (20 * (1 - t) - 10) with (10 - 20 * t) by lra. lra.
    + replace t with 0.5 by lra. replace (1 - 0.5) with 0.5 by lra.
      rewrite expo_at_half. lra.
Qed.

Lemma expo_monotone (t t' : R) :
  0 <= t -> t <= t' -> t' <= 1 ->
  Easing.easeInOutExpo t <= Easing.easeInOutExpo t'.
Proof.
  intros H0 Hle H1.
  destruct (Req_dec_T t 0) as [E | E0].
  { subst t. rewrite expo_at_0. apply expo_range. lra. }
  destruct (Req_dec_T t' 1) as [E | E1].
  { subst t'. rewrite expo_at_1. apply expo_range. lra. }
  destruct (Rlt_dec t 0.5) as [H | H]; destruct (Rlt_dec t' 0.5) as [H' | H'].
  - rewrite (expo_low t), (expo_low t') by lra.
    assert (Hp : Rpower 2 (20 * t - 10) <= Rpower 2 (20 * t' - 10))
      by (apply Rle_Rpower; lra).
    lra.
  - assert (Hr : / 2048 < Easing.easeInOutExpo t < 0.5)
      by (apply expo_low_range; lra).
    assert (Hr' : 0.5 <= Easing.easeInOutExpo t' < 1 - / 2048)
      by (apply expo_high_range; lra).
    lra.
  - lra.
  - rewrite (expo_high t), (expo_high t') by lra.
    assert (Hp : Rpower 2 (10 - 20 * t') <= Rpower 2 (10 - 20 * t))
      by (apply Rle_Rpower; lra).
    lra.
Qed.

End ExponentialEasing.

(** X17: [easeInOutExpo] of the shader of [ThreeImageSlider3] maps 0 to
    0, 0.5 to 0.5 and 1 to 1, stays within [0, 1] on [0, 1], never
    decreases there and is symmetric about the midpoint,
    f(1 - t) = 1 - f(t).  Its two end points are special cases of the
    code, and the curve jumps at both: strictly between 0 and 1 its
    value is above 1/2048 and below 1 - 1/2048. *)
Theorem exponential_easing_eases (t t' : R) :
  (0 <= t)%R -> (t <= t')%R -> (t' <= 1)%R ->
  Easing.easeInOutExpo 0 = 0%R /\
  Easing.easeInOutExpo 0.5 = 0.5%R /\
  Easing.easeInOutExpo 1 = 1%R /\
  (0 <= Easing.easeInOutExpo t <= 1)%R /\
  (Easing.easeInOutExpo t <= Easing.easeInOutExpo t')%R /\
  Easing.easeInOutExpo (1 - t) = (1 - Easing.easeInOutExpo t)%R /\
  ((0 < t)%R -> (t < 1)%R ->
   (/ 2048 < Easing.easeInOutExpo t < 1 - / 2048)%R).
Proof.
  intros H0 Hle H1.
  split; [exact expo_at_0 | split; [exact expo_at_half |]].
  split; [exact expo_at_1 |].
  split; [apply expo_range; lra |].
  split; [apply expo_monotone; assumption |].
  split; [apply expo_symmetric; lra |].
  intros Hpos Hlt. apply expo_inner_range. lra.
Qed.

Lemma exponential_easing_eases_witness :
  (Easing.easeInOutExpo 0.25 <= Easing.easeInOutExpo 0.75)%R.
Proof.
  refine (proj1 (proj2 (proj2 (proj2 (proj2
            (exponential_easing_eases 0.25 0.75 _ _ _)))))); lra.
Defined.

Section SineEasing.

Local Open Scope R_scope.



End SineEasing.



(** ** The noise is bounded *)

Section NoiseBound.

Local Open Scope R_scope.

(** The fall-off of one corner, (0.5 - s^2)^4 * s, on pieces of
    [0, sqrt 0.5]. *)
Lemma falloff_piece (lo hi s : R) :
  0 <= lo -> lo <= s -> s <= hi -> s * s <= 0.5 ->
  (0.5 - s * s) ^ 4 * s <= (0.5 - lo * lo) ^ 4 * hi.
Proof.
  intros H0 H1 H2 H3.
  assert (Hs : lo * lo <= s * s) by (apply Rmult_le_compat; lra).
  apply Rmult_le_compat.
  - apply pow_le. lra.
  - lra.
  - apply pow_incr. lra.
  - exact H2.
Qed.

Lemma falloff_bound (s : R) :
  0 <= s -> s * s <= 0.5 -> (0.5 - s * s) ^ 4 * s <= 0.0105.
Proof.
  intros H0 H1.
  assert (Hs : s <= 0.7072).
  { destruct (Rle_dec s 0.7072) as [H | H]; [exact H |].
    assert (0.7072 * 0.7072 <= s * s) by (apply Rmult_le_compat; lra).
    lra. }
  destruct (Rle_dec s 0.16) as [C1 | C1].
  { apply Rle_trans with ((0.5 - 0 * 0) ^ 4 * 0.16);
      [apply falloff_piece; lra | simpl; lra]. }
  destruct (Rle_dec s 0.2) as [C2 | C2].
  { apply Rle_trans with ((0.5 - 0.16 * 0.16) ^ 4 * 0.2);
      [apply falloff_piece; lra | simpl; lra]. }
  destruct (Rle_dec s 0.23) as [C3 | C3].
  { apply Rle_trans with ((0.5 - 0.2 * 0.2) ^ 4 * 0.23);
      [apply falloff_piece; lra | simpl; lra]. }
  destruct (Rle_dec s 0.26) as [C4 | C4].
  { apply Rle_trans with ((0.5 - 0.23 * 0.23) ^ 4 * 0.26);
      [apply falloff_piece; lra | simpl; lra]. }
  destruct (Rle_dec s 0.3) as [C5 | C5].
  { apply Rle_trans with ((0.5 - 0.26 * 0.26) ^ 4 * 0.3);
      [apply falloff_piece; lra | simpl; lra]. }
  destruct (Rle_dec s 0.36) as [C6 | C6].
  { apply Rle_trans with ((0.5 - 0.3 * 0.3) ^ 4 * 0.36);
      [apply falloff_piece; lra | simpl; lra]. }
  destruct (Rle_dec s 0.45) as [C7 | C7].
  { apply Rle_trans with ((0.5 - 0.36 * 0.36) ^ 4 * 0.45);
      [apply falloff_piece; lra | simpl; lra]. }
  apply Rle_trans with ((0.5 - 0.45 * 0.45) ^ 4 * 0.7072);
    [apply falloff_piece; lra | simpl; lra].
Qed.

Lemma fract_range (q : R) : 0 <= GLSL.fract q < 1.
Proof.
  unfold GLSL.fract. destruct (floor_bounds q) as [H0 H1]. split; lra.
Qed.

(** The gradient of a corner, [(a0, h)], lies on the diamond
    |a0| + |h| = 0.5. *)
Lemma gradient_on_diamond (q : R) :
  let x := 2.0 * GLSL.fract q - 1.0 in
  let h := Rabs x - 0.5 in
  let a0 := x - GLSL.floor (x + 0.5) in
  Rabs a0 + Rabs h = 0.5.
Proof.
  intros x h a0.
  assert (Hx : -1 <= x < 1).
  { subst x. destruct (fract_range q) as [H0 H1]. split; lra. }
  destruct (Rlt_dec x (-0.5)) as [C1 | C1].
  - assert (Ef : GLSL.floor (x + 0.5) = -1).
    { apply (floor_val _ (-1)). split; lra. }
    subst a0 h. rewrite Ef.
    rewrite (Rabs_left x) by lra.
    rewrite (Rabs_right (x - -1)) by lra.
    rewrite (Rabs_right (- x - 0.5)) by lra. lra.
  - destruct (Rlt_dec x 0.5) as [C2 | C2].
    + assert (Ef : GLSL.floor (x + 0.5) = 0).
      { apply (floor_val _ 0). split; lra. }
      subst a0 h. rewrite Ef.
      replace (x - 0) with x by lra.
      assert (Ha : Rabs x <= 0.5) by (apply Rabs_le; lra).
      pose proof (Rabs_pos x) as Hp.
      rewrite (Rabs_left1 (Rabs x - 0.5)) by lra. lra.
    + assert (Ef : GLSL.floor (x + 0.5) = 1).
      { apply (floor_val _ 1). split; lra. }
      subst a0 h. rewrite Ef.
      rewrite (Rabs_right x) by lra.
      rewrite (Rabs_left (x - 1)) by lra.
      rewrite (Rabs_right (x - 0.5)) by lra. lra.
Qed.

Lemma abs_square (x : R) : x * x = Rabs x * Rabs x.
Proof.
  destruct (Rle_dec 0 x) as [H | H].
  - rewrite Rabs_right by lra. reflexivity.
  - rewrite Rabs_left by lra. ring.
Qed.

(** What one corner of the simplex contributes. *)
Lemma corner_bound (q X Y : R) :
  let x := 2.0 * GLSL.fract q - 1.0 in
  let h := Rabs x - 0.5 in
  let a0 := x - GLSL.floor (x + 0.5) in
  let m := Rmax (0.5 - (X * X + Y * Y)) 0.0 in
  Rabs (m * m * (m * m)
        * (1.79284291400159 - 0.85373472095314 * (a0 * a0 + h * h))
        * (a0 * X + h * Y)) <= 0.00886.
Proof.
  intros x h a0 m.
  pose proof (gradient_on_diamond q) as Hd. cbv zeta in Hd.
  fold x in Hd. fold h in Hd. fold a0 in Hd.
  set (A := Rabs a0) in *. set (B := Rabs h) in *.
  assert (HA : 0 <= A) by apply Rabs_pos.
  assert (HB : 0 <= B) by apply Rabs_pos.
  set (N := 1.79284291400159 - 0.85373472095314 * (a0 * a0 + h * h)).
  assert (HN : 0 <= N <= 1.6862).
  { subst N. rewrite (abs_square a0), (abs_square h).
    fold A. fold B.
    assert (EB : B = 0.5 - A) by lra.
    assert (Hsq : 0 <= (A - 0.25) * (A - 0.25)) by apply Rle_0_sqr.
    assert (Hpr : 0 <= A * B) by (apply Rmult_le_pos; assumption).
    assert (HAB : 0.125 <= A * A + B * B <= 0.25).
    { rewrite EB in Hpr |- *. split; lra. }
    lra. }
  set (s := Rmax (Rabs X) (Rabs Y)).
  assert (Hs0 : 0 <= s).
  { apply Rle_trans with (Rabs X); [apply Rabs_pos | apply Rmax_l]. }
  assert (HsX : Rabs X <= s) by apply Rmax_l.
  assert (HsY : Rabs Y <= s) by apply Rmax_r.
  assert (Hss : s * s <= X * X + Y * Y).
  { subst s. rewrite (abs_square X), (abs_square Y).
    pose proof (Rabs_pos X). pose proof (Rabs_pos Y).
    destruct (Rle_dec (Rabs X) (Rabs Y)) as [H1 | H1].
    - rewrite Rmax_right by exact H1. nra.
    - rewrite Rmax_left by lra. nra. }
  assert (Hg : Rabs (a0 * X + h * Y) <= 0.5 * s).
  { apply Rle_trans with (Rabs (a0 * X) + Rabs (h * Y));
      [apply Rabs_triang |].
    rewrite !Rabs_mult. fold A. fold B.
    pose proof (Rabs_pos X). pose proof (Rabs_pos Y).
    assert (A * Rabs X <= A * s) by (apply Rmult_le_compat_l; assumption).
    assert (B * Rabs Y <= B * s) by (apply Rmult_le_compat_l; assumption).
    nra. }
  assert (Hm0 : 0 <= m).
  { subst m. replace 0.0 with 0 by lra. apply Rmax_r. }
  assert (Hms : m * m * (m * m) * s <= 0.0105).
  { destruct (Rle_dec (0.5 - (X * X + Y * Y)) 0) as [C | C].
    - assert (Em : m = 0).
      { subst m. replace 0.0 with 0 by lra. apply Rmax_right, C. }
      rewrite Em. lra.
    - assert (Em : m = 0.5 - (X * X + Y * Y)).
      { subst m. replace 0.0 with 0 by lra. apply Rmax_left. lra. }
      assert (Hle : m <= 0.5 - s * s) by lra.
      assert (Hp : m ^ 4 <= (0.5 - s * s) ^ 4) by (apply pow_incr; lra).
      assert (Hf : (0.5 - s * s) ^ 4 * s <= 0.0105)
        by (apply falloff_bound; lra).
      replace (m * m * (m * m)) with (m ^ 4) by (simpl; ring).
      apply Rle_trans with ((0.5 - s * s) ^ 4 * s); [| exact Hf].
      apply Rmult_le_compat_r; assumption. }
  assert (Hm4 : 0 <= m * m * (m * m)).
  { apply Rmult_le_pos; apply Rmult_le_pos; assumption. }
  fold N.
  set (M4 := m * m * (m * m)) in *.
  rewrite Rabs_mult, Rabs_mult.
  rewrite (Rabs_right M4), (Rabs_right N) by lra.
  set (G := Rabs (a0 * X + h * Y)) in *.
  assert (HG0 : 0 <= G) by apply Rabs_pos.
  assert (H1 : M4 * N * G <= M4 * 1.6862 * (0.5 * s)).
  { apply Rmult_le_compat.
    - apply Rmult_le_pos; lra.
    - exact HG0.
    - apply Rmult_le_compat_l; lra.
    - exact Hg. }
  nra.
Qed.

(** Introduces the first local variable of the shader function under
    the absolute value, as a variable with its defining equation. *)
Ltac intro_let_abs :=
  match goal with
  | |- Rabs (let x := ?e in @?b x) <= ?B =>
      change (let x := e in Rabs (b x) <= B); intro; cbv beta
  end;
  match goal with
  | x := ?e |- _ =>
      let H := fresh "Def" in
      assert (H : x = e) by reflexivity; clearbody x
  end.

Lemma abs_le_between (x c : R) : Rabs x <= c -> - c <= x <= c.
Proof.
  intros H. pose proof (Rle_abs x) as H1. pose proof (Rle_abs (- x)) as H2.
  rewrite Rabs_Ropp in H2. split; lra.
Qed.

(** The three lanes of a vector defined by [Def], each as an equation
    between numbers. *)
Ltac lanes Def Hx Hy Hz :=
  pose proof (f_equal GLSL.x3 Def) as Hx;
  pose proof (f_equal GLSL.y3 Def) as Hy;
  pose proof (f_equal GLSL.z3 Def) as Hz;
  unfold NoiseShader.mul3, NoiseShader.fsub3, NoiseShader.fmul3,
    NoiseShader.add3, NoiseShader.sub3, NoiseShader.floor3,
    NoiseShader.add3f, NoiseShader.sub3f, NoiseShader.abs3,
    NoiseShader.fract3, NoiseShader.max3f, GLSL.dot2 in Hx, Hy, Hz;
  cbn [GLSL.x3 GLSL.y3 GLSL.z3 GLSL.vx GLSL.vy] in Hx, Hy, Hz.

Lemma snoise_bounded (v : GLSL.vec2) : Rabs (NoiseShader.snoise v) <= 3.5.
Proof.
  cbv beta delta [NoiseShader.snoise].
  repeat intro_let_abs.
  (* the cell, the corner offsets and the hash may be anything *)
  clear Def3 Def4 Def5 Def6 Def7 Def8 Def9.
  pose proof (corner_bound (GLSL.x3 p * Cw) (GLSL.vx x0) (GLSL.vy x0)) as H1.
  pose proof (corner_bound (GLSL.y3 p * Cw) (GLSL.vx x12xy) (GLSL.vy x12xy))
    as H2.
  pose proof (corner_bound (GLSL.z3 p * Cw) (GLSL.vx x12zw) (GLSL.vy x12zw))
    as H3.
  cbv zeta in H1, H2, H3.
  lanes Def10 Mx My Mz. lanes Def11 M0x M0y M0z. lanes Def12 M1x M1y M1z.
  lanes Def13 Xx Xy Xz. lanes Def14 Hx Hy Hz. lanes Def15 Ox Oy Oz.
  lanes Def16 Ax Ay Az. lanes Def17 M2x M2y M2z.
  unfold NoiseShader.dot3. cbn [GLSL.x3 GLSL.y3 GLSL.z3].
  rewrite M2x, M2y, M2z, Def18, Def19, Def20.
  rewrite M1x, M1y, M1z, M0x, M0y, M0z, Mx, My, Mz.
  rewrite Ax, Ay, Az, Ox, Oy, Oz, Hx, Hy, Hz, Xx, Xy, Xz.
  match type of H1 with Rabs ?t <= _ => set (T1 := t) in * end.
  match type of H2 with Rabs ?t <= _ => set (T2 := t) in * end.
  match type of H3 with Rabs ?t <= _ => set (T3 := t) in * end.
  apply abs_le_between in H1. apply abs_le_between in H2.
  apply abs_le_between in H3.
  apply Rabs_le. lra.
Qed.

End NoiseBound.

Lemma fbm_bounded (p : GLSL.vec2) : (Rabs (NoiseShader.fbm p) <= 3.28125)%R.
Proof.
  unfold NoiseShader.fbm. cbn [NoiseShader.fbm_loop].
  pose proof (abs_le_between _ _ (snoise_bounded (GLSL.mul2f p 1.0))) as S1.
  pose proof (abs_le_between _ _
                (snoise_bounded (GLSL.mul2f p (1.0 * 2.0)))) as S2.
  pose proof (abs_le_between _ _
                (snoise_bounded (GLSL.mul2f p (1.0 * 2.0 * 2.0)))) as S3.
  pose proof (abs_le_between _ _
                (snoise_bounded (GLSL.mul2f p (1.0 * 2.0 * 2.0 * 2.0))))
    as S4.
  apply Rabs_le. lra.
Qed.

Lemma warp_bound (n i k : R) :
  (Rabs n <= 3.28125)%R -> (0 <= k <= 0.4)%R ->
  (Rabs (n * i * k) <= 1.3125 * Rabs i)%R.
Proof.
  intros Hn Hk. rewrite !Rabs_mult, (Rabs_right k) by lra.
  pose proof (Rabs_pos n) as Pn. pose proof (Rabs_pos i) as Pi.
  assert (H1 : (Rabs n * Rabs i <= 3.28125 * Rabs i)%R)
    by (apply Rmult_le_compat_r; assumption).
  assert (H2 : (Rabs n * Rabs i * k <= Rabs n * Rabs i * 0.4)%R).
  { apply Rmult_le_compat_l; [apply Rmult_le_pos; assumption | lra]. }
  lra.
Qed.

(** X19: the noise of the shader of [ThreeImageSlider3] is bounded,
    whatever the coordinates.  The simplex noise [snoise] stays within
    3.5 of zero, the four octaves of [fbm] within 3.28125, and so, for
    every pixel, every time and every progress, each component of the
    UV displacement is at most 1.3125 * |noiseIntensity| in absolute
    value. *)
Theorem noise_is_bounded (v : GLSL.vec2) (u : NoiseShader.uniforms)
    (vUv : GLSL.vec2) :
  (Rabs (NoiseShader.snoise v) <= 3.5)%R /\
  (Rabs (NoiseShader.fbm v) <= 3.28125)%R /\
  (Rabs (NoiseShader.noise u vUv) <= 3.28125)%R /\
  (Rabs (GLSL.vx (NoiseShader.displacement u vUv))
   <= 1.3125 * Rabs (NoiseShader.uNoiseIntensity u))%R /\
  (Rabs (GLSL.vy (NoiseShader.displacement u vUv))
   <= 1.3125 * Rabs (NoiseShader.uNoiseIntensity u))%R.
Proof.
  assert (Hn : (Rabs (NoiseShader.noise u vUv) <= 3.28125)%R).
  { unfold NoiseShader.noise. apply fbm_bounded. }
  pose proof (strength_range (NoiseShader.uProgress u)) as Hk.
  unfold NoiseShader.maxStrength in Hk.
  split; [apply snoise_bounded | split; [apply fbm_bounded |]].
  split; [exact Hn |].
  unfold NoiseShader.displacement, GLSL.mul2f. cbn [GLSL.vx GLSL.vy].
  split; apply warp_bound; assumption.
Qed.

(** ** The crossfade never goes back *)

Lemma smoothstep_weight_monotone (p p' : R) :
  (0 <= p)%R -> (p <= p')%R -> (p' <= 1)%R ->
  (p * p * (3 - 2 * p) <= p' * p' * (3 - 2 * p'))%R.
Proof.
  intros H0 Hle H1.
  assert (E : (p' * p' * (3 - 2 * p') - p * p * (3 - 2 * p)
               = (p' - p) * (3 * (p + p') - 2 * (p * p + p * p' + p' * p')))%R)
    by ring.
  assert (Hf : (0 <= 3 * (p + p') - 2 * (p * p + p * p' + p' * p'))%R).
  { assert (A : (0 <= p * (1 - p))%R) by (apply Rmult_le_pos; lra).
    assert (B : (0 <= p' * (1 - p'))%R) by (apply Rmult_le_pos; lra).
    assert (C : (0 <= p * (1 - p'))%R) by (apply Rmult_le_pos; lra).
    assert (D : (0 <= p' * (1 - p))%R) by (apply Rmult_le_pos; lra).
    lra. }
  assert (Hp : (0 <= (p' - p)
                     * (3 * (p + p') - 2 * (p * p + p * p' + p' * p')))%R)
    by (apply Rmult_le_pos; lra).
  lra.
Qed.

Lemma mix_monotone (x y s s' : R) :
  (x <= y)%R -> (s <= s')%R -> (GLSL.mix x y s <= GLSL.mix x y s')%R.
Proof.
  intros Hxy Hs. unfold GLSL.mix.
  assert (H : (0 <= (y - x) * (s' - s))%R) by (apply Rmult_le_pos; lra).
  lra.
Qed.

Lemma mix_antitone (x y s s' : R) :
  (y <= x)%R -> (s <= s')%R -> (GLSL.mix x y s' <= GLSL.mix x y s)%R.
Proof.
  intros Hxy Hs. unfold GLSL.mix.
  assert (H : (0 <= (x - y) * (s' - s))%R) by (apply Rmult_le_pos; lra).
  lra.
Qed.

(** X23: the crossfade of [ThreeImageSlider] never goes back.  With the
    textures, scales and offsets fixed, a pixel samples the same two
    colours c1 and c2 at every progress, and as progress grows from 0
    to 1 every channel of the output moves from its value in c1 to its
    value in c2 without ever turning: it does not decrease where c2 is
    the larger and does not increase where c2 is the smaller.  Half way
    the output is the average of the two colours. *)
Theorem crossfade_never_goes_back
    (uTex1 uTex2 : GLSL.sampler2D)
    (uImageScale1 uImageScale2 uImageOffset1 uImageOffset2 : GLSL.vec2)
    (vUv : GLSL.vec2) (p p' : R) :
  (0 <= p)%R -> (p <= p')%R -> (p' <= 1)%R ->
  let shade := fun progress : R =>
    CrossfadeShader.main
      (CrossfadeShader.mkUniforms uTex1 uTex2 progress
         uImageScale1 uImageScale2 uImageOffset1 uImageOffset2) vUv in
  let c1 := shade 0%R in
  let c2 := shade 1%R in
  (forall channel : GLSL.vec4 -> R,
     In channel [GLSL.cr; GLSL.cg; GLSL.cb; GLSL.ca] ->
     ((channel c1 <= channel c2)%R ->
      (channel (shade p) <= channel (shade p'))%R) /\
     ((channel c2 <= channel c1)%R ->
      (channel (shade p') <= channel (shade p))%R) /\
     channel (shade 0.5%R) = ((channel c1 + channel c2) / 2)%R).
Proof.
  intros H0 Hle H1 shade c1 c2.
  set (s1 := uTex1 (GLSL.fit_uv vUv uImageScale1 uImageOffset1)).
  set (s2 := uTex2 (GLSL.fit_uv vUv uImageScale2 uImageOffset2)).
  assert (Hshade : forall q : R, (0 <= q <= 1)%R ->
            shade q = GLSL.mix4 s1 s2 (q * q * (3 - 2 * q))%R).
  { intros q Hq. subst shade. cbv beta. unfold CrossfadeShader.main.
    cbn [CrossfadeShader.uTex1 CrossfadeShader.uTex2
         CrossfadeShader.uProgress CrossfadeShader.uImageScale1
         CrossfadeShader.uImageScale2 CrossfadeShader.uImageOffset1
         CrossfadeShader.uImageOffset2].
    rewrite (smoothstep_unit q Hq). reflexivity. }
  assert (E1 : c1 = s1).
  { subst c1. rewrite Hshade by lra.
    replace (0 * 0 * (3 - 2 * 0))%R with 0%R by ring. apply mix4_0. }
  assert (E2 : c2 = s2).
  { subst c2. rewrite Hshade by lra.
    replace (1 * 1 * (3 - 2 * 1))%R with 1%R by ring. apply mix4_1. }
  pose proof (smoothstep_weight_monotone p p' H0 Hle H1) as Hw.
  intros channel Hin.
  rewrite E1, E2, (Hshade p), (Hshade p'), (Hshade 0.5%R) by lra.
  replace (0.5 * 0.5 * (3 - 2 * 0.5))%R with 0.5%R by lra.
  destruct Hin as [E | [E | [E | [E | []]]]]; subst channel;
    cbn [GLSL.mix4 GLSL.cr GLSL.cg GLSL.cb GLSL.ca];
    (split; [intros H; apply mix_monotone; assumption |]);
    (split; [intros H; apply mix_antitone; assumption |]);
    unfold GLSL.mix; lra.
Qed.

Lemma crossfade_never_goes_back_witness :
  let shade := fun progress : R =>
    CrossfadeShader.main
      (CrossfadeShader.mkUniforms
         (fun _ => GLSL.mkVec4 1 0 0 1) (fun _ => GLSL.mkVec4 0 0 1 1)
         progress
         (GLSL.mkVec2 1 1) (GLSL.mkVec2 1 1)
         (GLSL.mkVec2 0 0) (GLSL.mkVec2 0 0))
      (GLSL.mkVec2 0.5 0.5) in
  GLSL.cb (shade 0.5%R) = ((GLSL.cb (shade 0%R) + GLSL.cb (shade 1%R)) / 2)%R.
Proof.
  intros shade.
  refine (proj2 (proj2
            (crossfade_never_goes_back
               (fun _ => GLSL.mkVec4 1 0 0 1) (fun _ => GLSL.mkVec4 0 0 1 1)
               (GLSL.mkVec2 1 1) (GLSL.mkVec2 1 1)
               (GLSL.mkVec2 0 0) (GLSL.mkVec2 0 0)
               (GLSL.mkVec2 0.5 0.5) 0.25 0.75 _ _ _ GLSL.cb _))); try lra.
  right. right. left. reflexivity.
Defined.
